(** * convert_mat_to_jpg: a shallow embedding of the converter and its
      specification.

    The development follows [src/pre_processing/convert_mat_to_jpg.py]
    function by function.  NumPy arrays are a shape with a flat, row-major
    buffer; floating-point elements are IEEE 754 values ([spec_float], with
    the operations of [SpecFloat] at the precision of the array's dtype);
    exceptions are values of a [result] type; the file system and the
    console are an explicit state.  Text is held as its UTF-8 bytes; where
    the code looks at characters ([str.lower], the regular expression) the
    bytes are decoded and the Unicode character database is consulted. *)

From Stdlib Require Import ZArith NArith List Bool Lia.
From Stdlib Require Import Strings.String Strings.Ascii.
From Stdlib Require Import Numbers.DecimalString.
From Stdlib Require Import Floats.SpecFloat.
From Stdlib Require Import Sorting.Sorted Sorting.Permutation.
Import ListNotations.

Local Open Scope Z_scope.
Local Open Scope string_scope.

(** ** Exceptions *)

Inductive exn_class :=
| RuntimeError
| ValueError
| TypeError
| IndexError
| KeyError
| OSError.

(** A raised exception: its class and [str(e)].  Only subclasses of
    [Exception] occur ([KeyboardInterrupt] and [SystemExit] are not raised
    by the code under a [try]). *)
Record exn := Exn { exn_cls : exn_class; exn_msg : string }.

Inductive result (A : Type) :=
| Ok (a : A)
| Raise (e : exn).
Arguments Ok {A} a.
Arguments Raise {A} e.

Definition rbind {A B} (r : result A) (k : A -> result B) : result B :=
  match r with
  | Ok a => k a
  | Raise e => Raise e
  end.

Declare Scope result_scope.
Delimit Scope result_scope with result.
Notation "x <- r ;; k" := (rbind r (fun x => k))
  (at level 61, r at next level, right associativity) : result_scope.

(** ** The NumPy fragment *)

Module Np.

(** Floating-point dtypes (kind ['f']). *)
Inductive float_dtype := Float16 | Float32 | Float64.

(** Boolean and integer dtypes (kinds ['b'], ['i'], ['u']). *)
Inductive int_dtype :=
| Bool_ | Int8 | Int16 | Int32 | Int64 | UInt8 | UInt16 | UInt32 | UInt64.

Definition prec (f : float_dtype) : Z :=
  match f with Float16 => 11 | Float32 => 24 | Float64 => 53 end.

Definition emax (f : float_dtype) : Z :=
  match f with Float16 => 16 | Float32 => 128 | Float64 => 1024 end.

Definition int_min (d : int_dtype) : Z :=
  match d with
  | Int8 => - 2 ^ 7 | Int16 => - 2 ^ 15 | Int32 => - 2 ^ 31 | Int64 => - 2 ^ 63
  | _ => 0
  end.

Definition int_max (d : int_dtype) : Z :=
  match d with
  | Bool_ => 1
  | Int8 => 2 ^ 7 - 1 | Int16 => 2 ^ 15 - 1
  | Int32 => 2 ^ 31 - 1 | Int64 => 2 ^ 63 - 1
  | UInt8 => 2 ^ 8 - 1 | UInt16 => 2 ^ 16 - 1
  | UInt32 => 2 ^ 32 - 1 | UInt64 => 2 ^ 64 - 1
  end.

(** The buffer of an array, in C (row-major) order, tagged with its dtype:
    booleans and integers, floats, or text (kind ['U']). *)
Inductive buffer :=
| Ints (d : int_dtype) (vs : list Z)
| Floats (f : float_dtype) (vs : list spec_float)
| Strs (vs : list string).

Record ndarray := NdArray { shape : list nat; buf : buffer }.

Definition ndim (x : ndarray) : nat := List.length (shape x).

Definition size_of (sh : list nat) : nat := fold_right Nat.mul 1%nat sh.

Definition buf_length (b : buffer) : nat :=
  match b with
  | Ints _ vs => List.length vs
  | Floats _ vs => List.length vs
  | Strs vs => List.length vs
  end.

(** [x.dtype.kind] *)
Definition kind (x : ndarray) : ascii :=
  match buf x with
  | Floats _ _ => "f"%char
  | Strs _ => "U"%char
  | Ints Bool_ _ => "b"%char
  | Ints (Int8 | Int16 | Int32 | Int64) _ => "i"%char
  | Ints _ _ => "u"%char
  end.

(** Arrays as NumPy builds them: the buffer fills the shape, integers are
    in the range of their dtype and floats are representable in theirs. *)
Definition wf_buffer (b : buffer) : Prop :=
  match b with
  | Ints d vs => Forall (fun v => int_min d <= v <= int_max d) vs
  | Floats f vs => Forall (fun v => valid_binary (prec f) (emax f) v = true) vs
  | Strs _ => True
  end.

Definition wf (x : ndarray) : Prop :=
  buf_length (buf x) = size_of (shape x) /\ wf_buffer (buf x).

(** *** Floating-point scalars *)

Definition is_nan (v : spec_float) : bool :=
  match v with S754_nan => true | _ => false end.

(** A Python integer converted to the dtype [f]. *)
Definition of_Z (f : float_dtype) (z : Z) : spec_float :=
  binary_normalize (prec f) (emax f) z 0 false.

(** [np.fmax]: [(in1 >= in2 || isnan(in2)) ? in1 : in2]. *)
Definition fmax (in1 in2 : spec_float) : spec_float :=
  if SFleb in2 in1 || is_nan in2 then in1 else in2.

(** [np.nanmax(x)] on an array: [np.fmax.reduce] over all elements.  The
    reduction has no identity, so an empty array raises [ValueError]; an
    all-NaN array gives NaN (with a warning). *)
Definition nanmax (vs : list spec_float) : result spec_float :=
  match vs with
  | [] => Raise (Exn ValueError
      "zero-size array to reduction operation fmax which has no identity")
  | v :: rest => Ok (fold_left fmax rest v)
  end.

(** [np.clip] on one element: [min(max(x, lo), hi)], NaN kept. *)
Definition clip_float (lo hi x : spec_float) : spec_float :=
  let y := if is_nan x then x else if SFltb lo x then x else lo in
  if is_nan y then y else if SFltb y hi then y else hi.

Definition clip_int (lo hi x : Z) : Z := Z.min (Z.max x lo) hi.

(** Rounding toward zero, as the C conversion to an integer type does. *)
Definition trunc (v : spec_float) : option Z :=
  match v with
  | S754_zero _ => Some 0
  | S754_finite s m e => Some (cond_Zopp s (Z.shiftl (Z.pos m) e))
  | _ => None
  end.

Section Cast.
(** The C conversion of a NaN or an infinity to an integer is undefined;
    NumPy stores what the platform produces. *)
Variable invalid_cast : Z.

(** [astype(np.uint8)] on one element. *)
Definition float_to_uint8 (v : spec_float) : Z :=
  match trunc v with
  | Some z => z mod 256
  | None => invalid_cast mod 256
  end.

Definition int_to_uint8 (v : Z) : Z := v mod 256.

(** The [TypeError] of a ufunc that has no loop for a dtype; its text
    depends on the NumPy version. *)
Variable no_loop_msg : string.

(** [np.clip(x, 0, 255).astype(np.uint8)] on a buffer.  [clip] has no loop
    for text. *)
Definition clip_astype_uint8 (b : buffer) : result buffer :=
  match b with
  | Ints _ vs =>
      Ok (Ints UInt8 (map (fun v => int_to_uint8 (clip_int 0 255 v)) vs))
  | Floats f vs =>
      Ok (Ints UInt8
            (map (fun v => float_to_uint8 (clip_float (of_Z f 0) (of_Z f 255) v)) vs))
  | Strs _ => Raise (Exn TypeError no_loop_msg)
  end.
End Cast.

(** [x * 255.0]: the Python scalar takes the array's dtype. *)
Definition mul_255 (f : float_dtype) (v : spec_float) : spec_float :=
  SFmul (prec f) (emax f) v (of_Z f 255).

End Np.

Import Np.

(** ** Indexing and transposition *)

(** The elements of [l] at the positions [idx], in that order. *)
Definition gather {A} (idx : list nat) (l : list A) : list A :=
  flat_map (fun i => match nth_error l i with Some v => [v] | None => [] end) idx.

Definition buf_gather (idx : list nat) (b : buffer) : buffer :=
  match b with
  | Ints d vs => Ints d (gather idx vs)
  | Floats f vs => Floats f (gather idx vs)
  | Strs vs => Strs (gather idx vs)
  end.

(** [x[:, :, 0]] on a 3-dimensional array: element [(i, j)] is
    [x[i, j, 0]], at offset [(i * b + j) * c] of the buffer. *)
Definition index_last_0 (x : ndarray) : ndarray :=
  match shape x with
  | [a; b; c] =>
      NdArray [a; b]
        (buf_gather (map (fun p => p * c)%nat (seq 0 (a * b))) (buf x))
  | _ => x
  end.

(** [np.transpose(x, (1, 2, 0))] on an array of shape [(c, h, w)]: element
    [(i, j, k)] of the result is [x[k, i, j]]. *)
Definition transpose_1_2_0 (x : ndarray) : ndarray :=
  match shape x with
  | [c; h; w] =>
      NdArray [h; w; c]
        (buf_gather
           (flat_map (fun i =>
              flat_map (fun j =>
                map (fun k => k * (h * w) + i * w + j)%nat (seq 0 c))
                (seq 0 w))
              (seq 0 h))
           (buf x))
  | _ => x
  end.

(** ** Text *)

(** A [str] is held as its UTF-8 bytes, as the literals of this file are.
    Its characters are the code points those bytes encode; a byte that
    belongs to no well-formed sequence stands for itself (in a file name
    Python keeps it as a lone surrogate), and is neither a digit nor a
    letter. *)

Definition byte (c : ascii) : N := N_of_ascii c.

Definition continuation (c : ascii) : option N :=
  let b := byte c in
  if ((128 <=? b) && (b <? 192))%N then Some (b - 128)%N else None.

(** The code point at the head of [s], and what follows it. *)
Definition decode1 (s : string) : option (N * string) :=
  match s with
  | EmptyString => None
  | String a r =>
      let b := byte a in
      if (b <? 128)%N then Some (b, r)
      else if (b <? 194)%N then None
      else if (b <? 224)%N then
        match r with
        | String a1 r1 =>
            match continuation a1 with
            | Some x1 => Some (((b - 192) * 64 + x1)%N, r1)
            | None => None
            end
        | _ => None
        end
      else if (b <? 240)%N then
        match r with
        | String a1 (String a2 r2) =>
            match continuation a1, continuation a2 with
            | Some x1, Some x2 =>
                let c := ((((b - 224) * 64 + x1) * 64) + x2)%N in
                if ((0x800 <=? c) && negb ((0xd800 <=? c) && (c <=? 0xdfff)))%N
                then Some (c, r2) else None
            | _, _ => None
            end
        | _ => None
        end
      else if (b <? 245)%N then
        match r with
        | String a1 (String a2 (String a3 r3)) =>
            match continuation a1, continuation a2, continuation a3 with
            | Some x1, Some x2, Some x3 =>
                let c := ((((((b - 240) * 64 + x1) * 64) + x2) * 64) + x3)%N in
                if ((0x10000 <=? c) && (c <=? 0x10ffff))%N
                then Some (c, r3) else None
            | _, _, _ => None
            end
        | _ => None
        end
      else None
  end.

(** The next character of [s]: a stray byte [b] is U+DC00 + [b]. *)
Definition next (s : string) : option (N * string) :=
  match decode1 s with
  | Some x => Some x
  | None =>
      match s with
      | String a r => Some ((0xdc00 + byte a)%N, r)
      | EmptyString => None
      end
  end.

(** The characters of [s]; [fuel] bounds their number. *)
Fixpoint decode_fuel (fuel : nat) (s : string) : list N :=
  match fuel with
  | O => []
  | S fuel' =>
      match next s with
      | Some (c, r) => c :: decode_fuel fuel' r
      | None => []
      end
  end.

Definition decode (s : string) : list N := decode_fuel (String.length s) s.

Definition chr (n : N) : string := String (ascii_of_N n) EmptyString.

Definition encode1 (c : N) : string :=
  if (c <? 0x80)%N then chr c
  else if (c <? 0x800)%N then chr (192 + c / 64) ++ chr (128 + c mod 64)
  else if ((0xdc80 <=? c) && (c <=? 0xdcff))%N then chr (c - 0xdc00)
  else if (c <? 0x10000)%N
  then chr (224 + c / 4096) ++ chr (128 + (c / 64) mod 64) ++ chr (128 + c mod 64)
  else chr (240 + c / 262144) ++ chr (128 + (c / 4096) mod 64)
       ++ chr (128 + (c / 64) mod 64) ++ chr (128 + c mod 64).

Fixpoint encode (l : list N) : string :=
  match l with
  | [] => EmptyString
  | c :: r => encode1 c ++ encode r
  end.

(** The Unicode character database (version 14.0, that of CPython 3.11), as
    far as [str.lower] and [\d] read it. *)
Module Unicode.

(** The digit zero of every run of ten decimal digits (category Nd). *)
Definition decimal_zeros : list N :=
  [0x30; 0x660; 0x6f0; 0x7c0; 0x966; 0x9e6; 0xa66; 0xae6;
   0xb66; 0xbe6; 0xc66; 0xce6; 0xd66; 0xde6; 0xe50; 0xed0;
   0xf20; 0x1040; 0x1090; 0x17e0; 0x1810; 0x1946; 0x19d0; 0x1a80;
   0x1a90; 0x1b50; 0x1bb0; 0x1c40; 0x1c50; 0xa620; 0xa8d0; 0xa900;
   0xa9d0; 0xa9f0; 0xaa50; 0xabf0; 0xff10; 0x104a0; 0x10d30; 0x11066;
   0x110f0; 0x11136; 0x111d0; 0x112f0; 0x11450; 0x114d0; 0x11650; 0x116c0;
   0x11730; 0x118e0; 0x11950; 0x11c50; 0x11d50; 0x11da0; 0x16a60; 0x16ac0;
   0x16b50; 0x1d7ce; 0x1d7d8; 0x1d7e2; 0x1d7ec; 0x1d7f6; 0x1e140; 0x1e2f0;
   0x1e950; 0x1fbf0]%N.

(** Simple lowercase mappings: from [lo] to [hi] in steps of [step], the
    character [lo + k] has the lowercase [target + k]. *)
Definition lower_ranges : list (N * N * N * N) :=
  [(0x41, 0x5a, 1, 0x61); (0xc0, 0xd6, 1, 0xe0); (0xd8, 0xde, 1, 0xf8);
   (0x100, 0x12e, 2, 0x101); (0x130, 0x130, 1, 0x69); (0x132, 0x136, 2, 0x133);
   (0x139, 0x147, 2, 0x13a); (0x14a, 0x176, 2, 0x14b); (0x178, 0x178, 1, 0xff);
   (0x179, 0x17d, 2, 0x17a); (0x181, 0x181, 1, 0x253); (0x182, 0x184, 2, 0x183);
   (0x186, 0x186, 1, 0x254); (0x187, 0x187, 1, 0x188); (0x189, 0x18a, 1, 0x256);
   (0x18b, 0x18b, 1, 0x18c); (0x18e, 0x18e, 1, 0x1dd); (0x18f, 0x18f, 1, 0x259);
   (0x190, 0x190, 1, 0x25b); (0x191, 0x191, 1, 0x192); (0x193, 0x193, 1, 0x260);
   (0x194, 0x194, 1, 0x263); (0x196, 0x196, 1, 0x269); (0x197, 0x197, 1, 0x268);
   (0x198, 0x198, 1, 0x199); (0x19c, 0x19c, 1, 0x26f); (0x19d, 0x19d, 1, 0x272);
   (0x19f, 0x19f, 1, 0x275); (0x1a0, 0x1a4, 2, 0x1a1); (0x1a6, 0x1a6, 1, 0x280);
   (0x1a7, 0x1a7, 1, 0x1a8); (0x1a9, 0x1a9, 1, 0x283); (0x1ac, 0x1ac, 1, 0x1ad);
   (0x1ae, 0x1ae, 1, 0x288); (0x1af, 0x1af, 1, 0x1b0); (0x1b1, 0x1b2, 1, 0x28a);
   (0x1b3, 0x1b5, 2, 0x1b4); (0x1b7, 0x1b7, 1, 0x292); (0x1b8, 0x1b8, 1, 0x1b9);
   (0x1bc, 0x1bc, 1, 0x1bd); (0x1c4, 0x1c4, 1, 0x1c6); (0x1c5, 0x1c5, 1, 0x1c6);
   (0x1c7, 0x1c7, 1, 0x1c9); (0x1c8, 0x1c8, 1, 0x1c9); (0x1ca, 0x1ca, 1, 0x1cc);
   (0x1cb, 0x1db, 2, 0x1cc); (0x1de, 0x1ee, 2, 0x1df); (0x1f1, 0x1f1, 1, 0x1f3);
   (0x1f2, 0x1f4, 2, 0x1f3); (0x1f6, 0x1f6, 1, 0x195); (0x1f7, 0x1f7, 1, 0x1bf);
   (0x1f8, 0x21e, 2, 0x1f9); (0x220, 0x220, 1, 0x19e); (0x222, 0x232, 2, 0x223);
   (0x23a, 0x23a, 1, 0x2c65); (0x23b, 0x23b, 1, 0x23c); (0x23d, 0x23d, 1, 0x19a);
   (0x23e, 0x23e, 1, 0x2c66); (0x241, 0x241, 1, 0x242); (0x243, 0x243, 1, 0x180);
   (0x244, 0x244, 1, 0x289); (0x245, 0x245, 1, 0x28c); (0x246, 0x24e, 2, 0x247);
   (0x370, 0x372, 2, 0x371); (0x376, 0x376, 1, 0x377); (0x37f, 0x37f, 1, 0x3f3);
   (0x386, 0x386, 1, 0x3ac); (0x388, 0x38a, 1, 0x3ad); (0x38c, 0x38c, 1, 0x3cc);
   (0x38e, 0x38f, 1, 0x3cd); (0x391, 0x3a1, 1, 0x3b1); (0x3a3, 0x3ab, 1, 0x3c3);
   (0x3cf, 0x3cf, 1, 0x3d7); (0x3d8, 0x3ee, 2, 0x3d9); (0x3f4, 0x3f4, 1, 0x3b8);
   (0x3f7, 0x3f7, 1, 0x3f8); (0x3f9, 0x3f9, 1, 0x3f2); (0x3fa, 0x3fa, 1, 0x3fb);
   (0x3fd, 0x3ff, 1, 0x37b); (0x400, 0x40f, 1, 0x450); (0x410, 0x42f, 1, 0x430);
   (0x460, 0x480, 2, 0x461); (0x48a, 0x4be, 2, 0x48b); (0x4c0, 0x4c0, 1, 0x4cf);
   (0x4c1, 0x4cd, 2, 0x4c2); (0x4d0, 0x52e, 2, 0x4d1); (0x531, 0x556, 1, 0x561);
   (0x10a0, 0x10c5, 1, 0x2d00); (0x10c7, 0x10c7, 1, 0x2d27); (0x10cd, 0x10cd, 1, 0x2d2d);
   (0x13a0, 0x13ef, 1, 0xab70); (0x13f0, 0x13f5, 1, 0x13f8); (0x1c90, 0x1cba, 1, 0x10d0);
   (0x1cbd, 0x1cbf, 1, 0x10fd); (0x1e00, 0x1e94, 2, 0x1e01); (0x1e9e, 0x1e9e, 1, 0xdf);
   (0x1ea0, 0x1efe, 2, 0x1ea1); (0x1f08, 0x1f0f, 1, 0x1f00); (0x1f18, 0x1f1d, 1, 0x1f10);
   (0x1f28, 0x1f2f, 1, 0x1f20); (0x1f38, 0x1f3f, 1, 0x1f30); (0x1f48, 0x1f4d, 1, 0x1f40);
   (0x1f59, 0x1f5f, 2, 0x1f51); (0x1f68, 0x1f6f, 1, 0x1f60); (0x1f88, 0x1f8f, 1, 0x1f80);
   (0x1f98, 0x1f9f, 1, 0x1f90); (0x1fa8, 0x1faf, 1, 0x1fa0); (0x1fb8, 0x1fb9, 1, 0x1fb0);
   (0x1fba, 0x1fbb, 1, 0x1f70); (0x1fbc, 0x1fbc, 1, 0x1fb3); (0x1fc8, 0x1fcb, 1, 0x1f72);
   (0x1fcc, 0x1fcc, 1, 0x1fc3); (0x1fd8, 0x1fd9, 1, 0x1fd0); (0x1fda, 0x1fdb, 1, 0x1f76);
   (0x1fe8, 0x1fe9, 1, 0x1fe0); (0x1fea, 0x1feb, 1, 0x1f7a); (0x1fec, 0x1fec, 1, 0x1fe5);
   (0x1ff8, 0x1ff9, 1, 0x1f78); (0x1ffa, 0x1ffb, 1, 0x1f7c); (0x1ffc, 0x1ffc, 1, 0x1ff3);
   (0x2126, 0x2126, 1, 0x3c9); (0x212a, 0x212a, 1, 0x6b); (0x212b, 0x212b, 1, 0xe5);
   (0x2132, 0x2132, 1, 0x214e); (0x2160, 0x216f, 1, 0x2170); (0x2183, 0x2183, 1, 0x2184);
   (0x24b6, 0x24cf, 1, 0x24d0); (0x2c00, 0x2c2f, 1, 0x2c30); (0x2c60, 0x2c60, 1, 0x2c61);
   (0x2c62, 0x2c62, 1, 0x26b); (0x2c63, 0x2c63, 1, 0x1d7d); (0x2c64, 0x2c64, 1, 0x27d);
   (0x2c67, 0x2c6b, 2, 0x2c68); (0x2c6d, 0x2c6d, 1, 0x251); (0x2c6e, 0x2c6e, 1, 0x271);
   (0x2c6f, 0x2c6f, 1, 0x250); (0x2c70, 0x2c70, 1, 0x252); (0x2c72, 0x2c72, 1, 0x2c73);
   (0x2c75, 0x2c75, 1, 0x2c76); (0x2c7e, 0x2c7f, 1, 0x23f); (0x2c80, 0x2ce2, 2, 0x2c81);
   (0x2ceb, 0x2ced, 2, 0x2cec); (0x2cf2, 0x2cf2, 1, 0x2cf3); (0xa640, 0xa66c, 2, 0xa641);
   (0xa680, 0xa69a, 2, 0xa681); (0xa722, 0xa72e, 2, 0xa723); (0xa732, 0xa76e, 2, 0xa733);
   (0xa779, 0xa77b, 2, 0xa77a); (0xa77d, 0xa77d, 1, 0x1d79); (0xa77e, 0xa786, 2, 0xa77f);
   (0xa78b, 0xa78b, 1, 0xa78c); (0xa78d, 0xa78d, 1, 0x265); (0xa790, 0xa792, 2, 0xa791);
   (0xa796, 0xa7a8, 2, 0xa797); (0xa7aa, 0xa7aa, 1, 0x266); (0xa7ab, 0xa7ab, 1, 0x25c);
   (0xa7ac, 0xa7ac, 1, 0x261); (0xa7ad, 0xa7ad, 1, 0x26c); (0xa7ae, 0xa7ae, 1, 0x26a);
   (0xa7b0, 0xa7b0, 1, 0x29e); (0xa7b1, 0xa7b1, 1, 0x287); (0xa7b2, 0xa7b2, 1, 0x29d);
   (0xa7b3, 0xa7b3, 1, 0xab53); (0xa7b4, 0xa7c2, 2, 0xa7b5); (0xa7c4, 0xa7c4, 1, 0xa794);
   (0xa7c5, 0xa7c5, 1, 0x282); (0xa7c6, 0xa7c6, 1, 0x1d8e); (0xa7c7, 0xa7c9, 2, 0xa7c8);
   (0xa7d0, 0xa7d0, 1, 0xa7d1); (0xa7d6, 0xa7d8, 2, 0xa7d7); (0xa7f5, 0xa7f5, 1, 0xa7f6);
   (0xff21, 0xff3a, 1, 0xff41); (0x10400, 0x10427, 1, 0x10428); (0x104b0, 0x104d3, 1, 0x104d8);
   (0x10570, 0x1057a, 1, 0x10597); (0x1057c, 0x1058a, 1, 0x105a3); (0x1058c, 0x10592, 1, 0x105b3);
   (0x10594, 0x10595, 1, 0x105bb); (0x10c80, 0x10cb2, 1, 0x10cc0); (0x118a0, 0x118bf, 1, 0x118c0);
   (0x16e40, 0x16e5f, 1, 0x16e60); (0x1e900, 0x1e921, 1, 0x1e922)]%N.

(** Cased characters, those that are case-ignorable left out. *)
Definition cased_ranges : list (N * N) :=
  [(0x41, 0x5a); (0x61, 0x7a); (0xaa, 0xaa); (0xb5, 0xb5); (0xba, 0xba);
   (0xc0, 0xd6); (0xd8, 0xf6); (0xf8, 0x1ba); (0x1bc, 0x1bf); (0x1c4, 0x293);
   (0x295, 0x2af); (0x370, 0x373); (0x376, 0x377); (0x37b, 0x37d); (0x37f, 0x37f);
   (0x386, 0x386); (0x388, 0x38a); (0x38c, 0x38c); (0x38e, 0x3a1); (0x3a3, 0x3f5);
   (0x3f7, 0x481); (0x48a, 0x52f); (0x531, 0x556); (0x560, 0x588); (0x10a0, 0x10c5);
   (0x10c7, 0x10c7); (0x10cd, 0x10cd); (0x10d0, 0x10fa); (0x10fd, 0x10ff); (0x13a0, 0x13f5);
   (0x13f8, 0x13fd); (0x1c80, 0x1c88); (0x1c90, 0x1cba); (0x1cbd, 0x1cbf); (0x1d00, 0x1d2b);
   (0x1d6b, 0x1d77); (0x1d79, 0x1d9a); (0x1e00, 0x1f15); (0x1f18, 0x1f1d); (0x1f20, 0x1f45);
   (0x1f48, 0x1f4d); (0x1f50, 0x1f57); (0x1f59, 0x1f59); (0x1f5b, 0x1f5b); (0x1f5d, 0x1f5d);
   (0x1f5f, 0x1f7d); (0x1f80, 0x1fb4); (0x1fb6, 0x1fbc); (0x1fbe, 0x1fbe); (0x1fc2, 0x1fc4);
   (0x1fc6, 0x1fcc); (0x1fd0, 0x1fd3); (0x1fd6, 0x1fdb); (0x1fe0, 0x1fec); (0x1ff2, 0x1ff4);
   (0x1ff6, 0x1ffc); (0x2102, 0x2102); (0x2107, 0x2107); (0x210a, 0x2113); (0x2115, 0x2115);
   (0x2119, 0x211d); (0x2124, 0x2124); (0x2126, 0x2126); (0x2128, 0x2128); (0x212a, 0x212d);
   (0x212f, 0x2134); (0x2139, 0x2139); (0x213c, 0x213f); (0x2145, 0x2149); (0x214e, 0x214e);
   (0x2160, 0x217f); (0x2183, 0x2184); (0x24b6, 0x24e9); (0x2c00, 0x2c7b); (0x2c7e, 0x2ce4);
   (0x2ceb, 0x2cee); (0x2cf2, 0x2cf3); (0x2d00, 0x2d25); (0x2d27, 0x2d27); (0x2d2d, 0x2d2d);
   (0xa640, 0xa66d); (0xa680, 0xa69b); (0xa722, 0xa76f); (0xa771, 0xa787); (0xa78b, 0xa78e);
   (0xa790, 0xa7ca); (0xa7d0, 0xa7d1); (0xa7d3, 0xa7d3); (0xa7d5, 0xa7d9); (0xa7f5, 0xa7f6);
   (0xa7fa, 0xa7fa); (0xab30, 0xab5a); (0xab60, 0xab68); (0xab70, 0xabbf); (0xfb00, 0xfb06);
   (0xfb13, 0xfb17); (0xff21, 0xff3a); (0xff41, 0xff5a); (0x10400, 0x1044f); (0x104b0, 0x104d3);
   (0x104d8, 0x104fb); (0x10570, 0x1057a); (0x1057c, 0x1058a); (0x1058c, 0x10592); (0x10594, 0x10595);
   (0x10597, 0x105a1); (0x105a3, 0x105b1); (0x105b3, 0x105b9); (0x105bb, 0x105bc); (0x10c80, 0x10cb2);
   (0x10cc0, 0x10cf2); (0x118a0, 0x118df); (0x16e40, 0x16e7f); (0x1d400, 0x1d454); (0x1d456, 0x1d49c);
   (0x1d49e, 0x1d49f); (0x1d4a2, 0x1d4a2); (0x1d4a5, 0x1d4a6); (0x1d4a9, 0x1d4ac); (0x1d4ae, 0x1d4b9);
   (0x1d4bb, 0x1d4bb); (0x1d4bd, 0x1d4c3); (0x1d4c5, 0x1d505); (0x1d507, 0x1d50a); (0x1d50d, 0x1d514);
   (0x1d516, 0x1d51c); (0x1d51e, 0x1d539); (0x1d53b, 0x1d53e); (0x1d540, 0x1d544); (0x1d546, 0x1d546);
   (0x1d54a, 0x1d550); (0x1d552, 0x1d6a5); (0x1d6a8, 0x1d6c0); (0x1d6c2, 0x1d6da); (0x1d6dc, 0x1d6fa);
   (0x1d6fc, 0x1d714); (0x1d716, 0x1d734); (0x1d736, 0x1d74e); (0x1d750, 0x1d76e); (0x1d770, 0x1d788);
   (0x1d78a, 0x1d7a8); (0x1d7aa, 0x1d7c2); (0x1d7c4, 0x1d7cb); (0x1df00, 0x1df09); (0x1df0b, 0x1df1e);
   (0x1e900, 0x1e943); (0x1f130, 0x1f149); (0x1f150, 0x1f169); (0x1f170, 0x1f189)]%N.

(** Case-ignorable characters. *)
Definition case_ignorable_ranges : list (N * N) :=
  [(0x27, 0x27); (0x2e, 0x2e); (0x3a, 0x3a); (0x5e, 0x5e); (0x60, 0x60);
   (0xa8, 0xa8); (0xad, 0xad); (0xaf, 0xaf); (0xb4, 0xb4); (0xb7, 0xb8);
   (0x2b0, 0x36f); (0x374, 0x375); (0x37a, 0x37a); (0x384, 0x385); (0x387, 0x387);
   (0x483, 0x489); (0x559, 0x559); (0x55f, 0x55f); (0x591, 0x5bd); (0x5bf, 0x5bf);
   (0x5c1, 0x5c2); (0x5c4, 0x5c5); (0x5c7, 0x5c7); (0x5f4, 0x5f4); (0x600, 0x605);
   (0x610, 0x61a); (0x61c, 0x61c); (0x640, 0x640); (0x64b, 0x65f); (0x670, 0x670);
   (0x6d6, 0x6dd); (0x6df, 0x6e8); (0x6ea, 0x6ed); (0x70f, 0x70f); (0x711, 0x711);
   (0x730, 0x74a); (0x7a6, 0x7b0); (0x7eb, 0x7f5); (0x7fa, 0x7fa); (0x7fd, 0x7fd);
   (0x816, 0x82d); (0x859, 0x85b); (0x888, 0x888); (0x890, 0x891); (0x898, 0x89f);
   (0x8c9, 0x902); (0x93a, 0x93a); (0x93c, 0x93c); (0x941, 0x948); (0x94d, 0x94d);
   (0x951, 0x957); (0x962, 0x963); (0x971, 0x971); (0x981, 0x981); (0x9bc, 0x9bc);
   (0x9c1, 0x9c4); (0x9cd, 0x9cd); (0x9e2, 0x9e3); (0x9fe, 0x9fe); (0xa01, 0xa02);
   (0xa3c, 0xa3c); (0xa41, 0xa42); (0xa47, 0xa48); (0xa4b, 0xa4d); (0xa51, 0xa51);
   (0xa70, 0xa71); (0xa75, 0xa75); (0xa81, 0xa82); (0xabc, 0xabc); (0xac1, 0xac5);
   (0xac7, 0xac8); (0xacd, 0xacd); (0xae2, 0xae3); (0xafa, 0xaff); (0xb01, 0xb01);
   (0xb3c, 0xb3c); (0xb3f, 0xb3f); (0xb41, 0xb44); (0xb4d, 0xb4d); (0xb55, 0xb56);
   (0xb62, 0xb63); (0xb82, 0xb82); (0xbc0, 0xbc0); (0xbcd, 0xbcd); (0xc00, 0xc00);
   (0xc04, 0xc04); (0xc3c, 0xc3c); (0xc3e, 0xc40); (0xc46, 0xc48); (0xc4a, 0xc4d);
   (0xc55, 0xc56); (0xc62, 0xc63); (0xc81, 0xc81); (0xcbc, 0xcbc); (0xcbf, 0xcbf);
   (0xcc6, 0xcc6); (0xccc, 0xccd); (0xce2, 0xce3); (0xd00, 0xd01); (0xd3b, 0xd3c);
   (0xd41, 0xd44); (0xd4d, 0xd4d); (0xd62, 0xd63); (0xd81, 0xd81); (0xdca, 0xdca);
   (0xdd2, 0xdd4); (0xdd6, 0xdd6); (0xe31, 0xe31); (0xe34, 0xe3a); (0xe46, 0xe4e);
   (0xeb1, 0xeb1); (0xeb4, 0xebc); (0xec6, 0xec6); (0xec8, 0xecd); (0xf18, 0xf19);
   (0xf35, 0xf35); (0xf37, 0xf37); (0xf39, 0xf39); (0xf71, 0xf7e); (0xf80, 0xf84);
   (0xf86, 0xf87); (0xf8d, 0xf97); (0xf99, 0xfbc); (0xfc6, 0xfc6); (0x102d, 0x1030);
   (0x1032, 0x1037); (0x1039, 0x103a); (0x103d, 0x103e); (0x1058, 0x1059); (0x105e, 0x1060);
   (0x1071, 0x1074); (0x1082, 0x1082); (0x1085, 0x1086); (0x108d, 0x108d); (0x109d, 0x109d);
   (0x10fc, 0x10fc); (0x135d, 0x135f); (0x1712, 0x1714); (0x1732, 0x1733); (0x1752, 0x1753);
   (0x1772, 0x1773); (0x17b4, 0x17b5); (0x17b7, 0x17bd); (0x17c6, 0x17c6); (0x17c9, 0x17d3);
   (0x17d7, 0x17d7); (0x17dd, 0x17dd); (0x180b, 0x180f); (0x1843, 0x1843); (0x1885, 0x1886);
   (0x18a9, 0x18a9); (0x1920, 0x1922); (0x1927, 0x1928); (0x1932, 0x1932); (0x1939, 0x193b);
   (0x1a17, 0x1a18); (0x1a1b, 0x1a1b); (0x1a56, 0x1a56); (0x1a58, 0x1a5e); (0x1a60, 0x1a60);
   (0x1a62, 0x1a62); (0x1a65, 0x1a6c); (0x1a73, 0x1a7c); (0x1a7f, 0x1a7f); (0x1aa7, 0x1aa7);
   (0x1ab0, 0x1ace); (0x1b00, 0x1b03); (0x1b34, 0x1b34); (0x1b36, 0x1b3a); (0x1b3c, 0x1b3c);
   (0x1b42, 0x1b42); (0x1b6b, 0x1b73); (0x1b80, 0x1b81); (0x1ba2, 0x1ba5); (0x1ba8, 0x1ba9);
   (0x1bab, 0x1bad); (0x1be6, 0x1be6); (0x1be8, 0x1be9); (0x1bed, 0x1bed); (0x1bef, 0x1bf1);
   (0x1c2c, 0x1c33); (0x1c36, 0x1c37); (0x1c78, 0x1c7d); (0x1cd0, 0x1cd2); (0x1cd4, 0x1ce0);
   (0x1ce2, 0x1ce8); (0x1ced, 0x1ced); (0x1cf4, 0x1cf4); (0x1cf8, 0x1cf9); (0x1d2c, 0x1d6a);
   (0x1d78, 0x1d78); (0x1d9b, 0x1dff); (0x1fbd, 0x1fbd); (0x1fbf, 0x1fc1); (0x1fcd, 0x1fcf);
   (0x1fdd, 0x1fdf); (0x1fed, 0x1fef); (0x1ffd, 0x1ffe); (0x200b, 0x200f); (0x2018, 0x2019);
   (0x2024, 0x2024); (0x2027, 0x2027); (0x202a, 0x202e); (0x2060, 0x2064); (0x2066, 0x206f);
   (0x2071, 0x2071); (0x207f, 0x207f); (0x2090, 0x209c); (0x20d0, 0x20f0); (0x2c7c, 0x2c7d);
   (0x2cef, 0x2cf1); (0x2d6f, 0x2d6f); (0x2d7f, 0x2d7f); (0x2de0, 0x2dff); (0x2e2f, 0x2e2f);
   (0x3005, 0x3005); (0x302a, 0x302d); (0x3031, 0x3035); (0x303b, 0x303b); (0x3099, 0x309e);
   (0x30fc, 0x30fe); (0xa015, 0xa015); (0xa4f8, 0xa4fd); (0xa60c, 0xa60c); (0xa66f, 0xa672);
   (0xa674, 0xa67d); (0xa67f, 0xa67f); (0xa69c, 0xa69f); (0xa6f0, 0xa6f1); (0xa700, 0xa721);
   (0xa770, 0xa770); (0xa788, 0xa78a); (0xa7f2, 0xa7f4); (0xa7f8, 0xa7f9); (0xa802, 0xa802);
   (0xa806, 0xa806); (0xa80b, 0xa80b); (0xa825, 0xa826); (0xa82c, 0xa82c); (0xa8c4, 0xa8c5);
   (0xa8e0, 0xa8f1); (0xa8ff, 0xa8ff); (0xa926, 0xa92d); (0xa947, 0xa951); (0xa980, 0xa982);
   (0xa9b3, 0xa9b3); (0xa9b6, 0xa9b9); (0xa9bc, 0xa9bd); (0xa9cf, 0xa9cf); (0xa9e5, 0xa9e6);
   (0xaa29, 0xaa2e); (0xaa31, 0xaa32); (0xaa35, 0xaa36); (0xaa43, 0xaa43); (0xaa4c, 0xaa4c);
   (0xaa70, 0xaa70); (0xaa7c, 0xaa7c); (0xaab0, 0xaab0); (0xaab2, 0xaab4); (0xaab7, 0xaab8);
   (0xaabe, 0xaabf); (0xaac1, 0xaac1); (0xaadd, 0xaadd); (0xaaec, 0xaaed); (0xaaf3, 0xaaf4);
   (0xaaf6, 0xaaf6); (0xab5b, 0xab5f); (0xab69, 0xab6b); (0xabe5, 0xabe5); (0xabe8, 0xabe8);
   (0xabed, 0xabed); (0xfb1e, 0xfb1e); (0xfbb2, 0xfbc2); (0xfe00, 0xfe0f); (0xfe13, 0xfe13);
   (0xfe20, 0xfe2f); (0xfe52, 0xfe52); (0xfe55, 0xfe55); (0xfeff, 0xfeff); (0xff07, 0xff07);
   (0xff0e, 0xff0e); (0xff1a, 0xff1a); (0xff3e, 0xff3e); (0xff40, 0xff40); (0xff70, 0xff70);
   (0xff9e, 0xff9f); (0xffe3, 0xffe3); (0xfff9, 0xfffb); (0x101fd, 0x101fd); (0x102e0, 0x102e0);
   (0x10376, 0x1037a); (0x10780, 0x10785); (0x10787, 0x107b0); (0x107b2, 0x107ba); (0x10a01, 0x10a03);
   (0x10a05, 0x10a06); (0x10a0c, 0x10a0f); (0x10a38, 0x10a3a); (0x10a3f, 0x10a3f); (0x10ae5, 0x10ae6);
   (0x10d24, 0x10d27); (0x10eab, 0x10eac); (0x10f46, 0x10f50); (0x10f82, 0x10f85); (0x11001, 0x11001);
   (0x11038, 0x11046); (0x11070, 0x11070); (0x11073, 0x11074); (0x1107f, 0x11081); (0x110b3, 0x110b6);
   (0x110b9, 0x110ba); (0x110bd, 0x110bd); (0x110c2, 0x110c2); (0x110cd, 0x110cd); (0x11100, 0x11102);
   (0x11127, 0x1112b); (0x1112d, 0x11134); (0x11173, 0x11173); (0x11180, 0x11181); (0x111b6, 0x111be);
   (0x111c9, 0x111cc); (0x111cf, 0x111cf); (0x1122f, 0x11231); (0x11234, 0x11234); (0x11236, 0x11237);
   (0x1123e, 0x1123e); (0x112df, 0x112df); (0x112e3, 0x112ea); (0x11300, 0x11301); (0x1133b, 0x1133c);
   (0x11340, 0x11340); (0x11366, 0x1136c); (0x11370, 0x11374); (0x11438, 0x1143f); (0x11442, 0x11444);
   (0x11446, 0x11446); (0x1145e, 0x1145e); (0x114b3, 0x114b8); (0x114ba, 0x114ba); (0x114bf, 0x114c0);
   (0x114c2, 0x114c3); (0x115b2, 0x115b5); (0x115bc, 0x115bd); (0x115bf, 0x115c0); (0x115dc, 0x115dd);
   (0x11633, 0x1163a); (0x1163d, 0x1163d); (0x1163f, 0x11640); (0x116ab, 0x116ab); (0x116ad, 0x116ad);
   (0x116b0, 0x116b5); (0x116b7, 0x116b7); (0x1171d, 0x1171f); (0x11722, 0x11725); (0x11727, 0x1172b);
   (0x1182f, 0x11837); (0x11839, 0x1183a); (0x1193b, 0x1193c); (0x1193e, 0x1193e); (0x11943, 0x11943);
   (0x119d4, 0x119d7); (0x119da, 0x119db); (0x119e0, 0x119e0); (0x11a01, 0x11a0a); (0x11a33, 0x11a38);
   (0x11a3b, 0x11a3e); (0x11a47, 0x11a47); (0x11a51, 0x11a56); (0x11a59, 0x11a5b); (0x11a8a, 0x11a96);
   (0x11a98, 0x11a99); (0x11c30, 0x11c36); (0x11c38, 0x11c3d); (0x11c3f, 0x11c3f); (0x11c92, 0x11ca7);
   (0x11caa, 0x11cb0); (0x11cb2, 0x11cb3); (0x11cb5, 0x11cb6); (0x11d31, 0x11d36); (0x11d3a, 0x11d3a);
   (0x11d3c, 0x11d3d); (0x11d3f, 0x11d45); (0x11d47, 0x11d47); (0x11d90, 0x11d91); (0x11d95, 0x11d95);
   (0x11d97, 0x11d97); (0x11ef3, 0x11ef4); (0x13430, 0x13438); (0x16af0, 0x16af4); (0x16b30, 0x16b36);
   (0x16b40, 0x16b43); (0x16f4f, 0x16f4f); (0x16f8f, 0x16f9f); (0x16fe0, 0x16fe1); (0x16fe3, 0x16fe4);
   (0x1aff0, 0x1aff3); (0x1aff5, 0x1affb); (0x1affd, 0x1affe); (0x1bc9d, 0x1bc9e); (0x1bca0, 0x1bca3);
   (0x1cf00, 0x1cf2d); (0x1cf30, 0x1cf46); (0x1d167, 0x1d169); (0x1d173, 0x1d182); (0x1d185, 0x1d18b);
   (0x1d1aa, 0x1d1ad); (0x1d242, 0x1d244); (0x1da00, 0x1da36); (0x1da3b, 0x1da6c); (0x1da75, 0x1da75);
   (0x1da84, 0x1da84); (0x1da9b, 0x1da9f); (0x1daa1, 0x1daaf); (0x1e000, 0x1e006); (0x1e008, 0x1e018);
   (0x1e01b, 0x1e021); (0x1e023, 0x1e024); (0x1e026, 0x1e02a); (0x1e130, 0x1e13d); (0x1e2ae, 0x1e2ae);
   (0x1e2ec, 0x1e2ef); (0x1e8d0, 0x1e8d6); (0x1e944, 0x1e94b); (0x1f3fb, 0x1f3ff); (0xe0001, 0xe0001);
   (0xe0020, 0xe007f); (0xe0100, 0xe01ef)]%N.

Definition in_range (c : N) (r : N * N) : bool :=
  ((fst r <=? c) && (c <=? snd r))%N.

Definition isdecimal (c : N) : bool :=
  existsb (fun z => (z <=? c) && (c <? z + 10))%N decimal_zeros.

Definition in_lower_range (c : N) (r : N * N * N * N) : bool :=
  let '(lo, hi, step, _) := r in
  ((lo <=? c) && (c <=? hi) && ((c - lo) mod step =? 0))%N.

Definition tolower (c : N) : N :=
  match find (in_lower_range c) lower_ranges with
  | Some (lo, _, _, target) => (target + (c - lo))%N
  | None => c
  end.

(** The full lowercase: only U+0130 has one of two characters. *)
Definition tolower_full (c : N) : list N :=
  if (c =? 0x130)%N then [0x69; 0x307]%N else [tolower c].

Definition cased (c : N) : bool := existsb (in_range c) cased_ranges.

Definition case_ignorable (c : N) : bool := existsb (in_range c) case_ignorable_ranges.

End Unicode.

Definition SIGMA : N := 0x3a3%N.

(** Whether a cased character follows, case-ignorable ones skipped. *)
Fixpoint cased_ahead (l : list N) : bool :=
  match l with
  | [] => false
  | c :: r => if Unicode.case_ignorable c then cased_ahead r else Unicode.cased c
  end.

(** [str.lower] on the characters; [before] tells whether the last
    character that is not case-ignorable was a cased one.  A capital sigma
    that ends a word becomes the final sigma U+03C2. *)
Fixpoint lower_chars (before : bool) (l : list N) : list N :=
  match l with
  | [] => []
  | c :: r =>
      (if (c =? SIGMA)%N
       then [if before && negb (cased_ahead r) then 0x3c2 else 0x3c3]%N
       else Unicode.tolower_full c)
      ++ lower_chars (if Unicode.case_ignorable c then before else Unicode.cased c) r
  end.

(** [str.lower] *)
Definition lower (s : string) : string := encode (lower_chars false (decode s)).

(** The lowercase of an ASCII letter. *)
Definition lower_ascii (c : ascii) : ascii :=
  let n := nat_of_ascii c in
  if ((65 <=? n) && (n <=? 90))%nat then ascii_of_nat (n + 32) else c.

(** [str.startswith] *)
Definition startswith (s p : string) : bool := prefix p s.

Definition str_of_nat (n : nat) : string :=
  NilEmpty.string_of_uint (Nat.to_uint n).

Definition squote : ascii := "'"%char.
Definition dquote : ascii := ascii_of_nat 34.
Definition backslash : ascii := ascii_of_nat 92.
Definition newline : ascii := ascii_of_nat 10.

Fixpoint contains (c : ascii) (s : string) : bool :=
  match s with
  | EmptyString => false
  | String a r => Ascii.eqb a c || contains c r
  end.

Definition hex_digit (n : nat) : ascii :=
  if (n <? 10)%nat then ascii_of_nat (48 + n) else ascii_of_nat (87 + n).

Definition repr_char (q c : ascii) : string :=
  let n := nat_of_ascii c in
  if Ascii.eqb c q || Ascii.eqb c backslash then String backslash (String c EmptyString)
  else if (n =? 10)%nat then String backslash "n"
  else if (n =? 9)%nat then String backslash "t"
  else if (n =? 13)%nat then String backslash "r"
  else if ((n <? 32) || (n =? 127))%nat
       then String backslash
              (String "x" (String (hex_digit (n / 16)) (String (hex_digit (n mod 16)) EmptyString)))
  else String c EmptyString.

Fixpoint repr_body (q : ascii) (s : string) : string :=
  match s with
  | EmptyString => EmptyString
  | String c r => repr_char q c ++ repr_body q r
  end.

(** [repr] of a [str]: single quotes, unless the text holds a single quote
    and no double quote. *)
Definition repr_str (s : string) : string :=
  let q := if contains squote s && negb (contains dquote s) then dquote else squote in
  String q (repr_body q s ++ String q EmptyString).

(** [str] of a list of [str], as an f-string prints it. *)
Definition repr_list (l : list string) : string :=
  "[" ++ concat ", " (map repr_str l) ++ "]".

(** ** Paths *)

Record Path := MkPath { parent : string; name : string }.

(** [dir / name] *)
Definition path_join (dir : string) (n : string) : Path := MkPath dir n.

Definition path_str (p : Path) : string := parent p ++ "/" ++ name p.

(** [name.rfind('.')], counting from [i]. *)
Fixpoint rfind_dot (s : string) (i : nat) : option nat :=
  match s with
  | EmptyString => None
  | String c r =>
      match rfind_dot r (S i) with
      | Some j => Some j
      | None => if Ascii.eqb c "."%char then Some i else None
      end
  end.

(** [Path.stem]: the name without its last suffix; a leading or a trailing
    dot starts no suffix. *)
Definition stem (p : Path) : string :=
  match rfind_dot (name p) 0 with
  | Some i =>
      if ((0 <? i) && (i <? String.length (name p) - 1))%nat
      then substring 0 i (name p)
      else name p
  | None => name p
  end.

(** ** Module constants, lines 11-16 *)

Definition INPUT_DIR : string := "/mnt/projects/tilapia_ia/data/raw_images/imagens_mat".
Definition OUTPUT_DIR : string := "/mnt/projects/tilapia_ia/data/raw_images/imagens_jpg".
Definition PREFIX : string := "imagem".

(** [fnmatch] against [FILE_GLOB = "Chip_*.mat"] (case-sensitive). *)
Definition FILE_GLOB (n : string) : bool :=
  prefix "Chip_" n && (9 <=? String.length n)%nat
  && String.eqb (substring (String.length n - 4) 4 n) ".mat".

(** Besides its two ASCII forms, what a letter of a pattern matches under
    [re.IGNORECASE]: the characters with the same lowercase, and the dotless
    i for [i]. *)
Definition ci_extra (a : ascii) : list N :=
  let c := lower_ascii a in
  if Ascii.eqb c "i" then [0x130; 0x131]%N
  else if Ascii.eqb c "k" then [0x212a]%N
  else if Ascii.eqb c "s" then [0x17f]%N
  else [].

(** Consume one character that matches the ASCII character [a] of a
    pattern, ignoring case. *)
Definition match_char_ci (a : ascii) (s : string) : option string :=
  match decode1 s with
  | Some (c, r) =>
      if (if (c <? 128)%N
          then Ascii.eqb (lower_ascii (ascii_of_N c)) (lower_ascii a)
          else existsb (N.eqb c) (ci_extra a))
      then Some r else None
  | None => None
  end.

(** Consume the ASCII literal [lit] at the head of [s], ignoring case. *)
Fixpoint match_literal_ci (lit s : string) : option string :=
  match lit with
  | EmptyString => Some s
  | String a l =>
      match match_char_ci a s with
      | Some r => match_literal_ci l r
      | None => None
      end
  end.

(** [\d]: consume one decimal digit of any script. *)
Definition digit (s : string) : option string :=
  match decode1 s with
  | Some (c, r) => if Unicode.isdecimal c then Some r else None
  | None => None
  end.

(** What follows the longest run of digits at the head of [s]. *)
Fixpoint skip_digits (fuel : nat) (s : string) : string :=
  match fuel with
  | O => s
  | S fuel' =>
      match digit s with
      | Some r => skip_digits fuel' r
      | None => s
      end
  end.

(** The longest run of digits at the head of [s], and what follows it. *)
Definition span_digits (s : string) : string * string :=
  let tl := skip_digits (String.length s) s in
  (substring 0 (String.length s - String.length tl) s, tl).

(** [$]: the end of the text, or just before a newline that ends it. *)
Definition at_dollar (s : string) : bool :=
  match s with
  | EmptyString => true
  | String c EmptyString => Ascii.eqb c newline
  | _ => false
  end.

(** [CHIP_RE.match(name)] for
    [CHIP_RE = re.compile(r"^Chip_(\d+)\.mat$", re.IGNORECASE)]: group 1 of
    the match, if any.  The character after the digits must be a dot, so the
    greedy [\d+] never gives digits back. *)
Definition CHIP_RE (n : string) : option string :=
  match match_literal_ci "Chip_" n with
  | None => None
  | Some r1 =>
      let (ds, r2) := span_digits r1 in
      match ds with
      | EmptyString => None
      | _ =>
          match match_literal_ci ".mat" r2 with
          | Some r3 => if at_dollar r3 then Some ds else None
          | None => None
          end
      end
  end.

(** ** Python values read from a [.mat] file *)

Inductive scalar :=
| PyBool (b : bool)
| PyInt (z : Z)
| PyFloat (v : spec_float)
| PyStr (s : string).

(** What [np.asarray] is applied to: an array or a Python scalar. *)
Inductive array_like :=
| Arr (a : ndarray)
| Scalar (s : scalar).

(** The values a variable of the container may hold: an array or a scalar,
    an [ndarray] of dtype [object] (a cell array; items in C order), a
    [list] or [tuple], or [bytes]. *)
Inductive pyobj :=
| Num (v : array_like)
| ObjArray (sh : list nat) (items : list array_like)
| PyList (items : list array_like)
| PyBytes (bs : list Z).

(** The container: a [dict], keys in insertion order. *)
Definition mat_dict := list (string * pyobj).

Definition keys (d : mat_dict) : list string := map fst d.

(** [d[key]] *)
Fixpoint getitem (d : mat_dict) (key : string) : option pyobj :=
  match d with
  | [] => None
  | (k, v) :: r => if String.eqb k key then Some v else getitem r key
  end.

(** [np.asarray] *)
Definition asarray (v : array_like) : ndarray :=
  match v with
  | Arr a => a
  | Scalar (PyBool b) => NdArray [] (Ints Bool_ [if b then 1 else 0])
  | Scalar (PyInt z) =>
      NdArray [] (Ints (if (z <=? int_max Int64)%Z then Int64 else UInt64) [z])
  | Scalar (PyFloat v) => NdArray [] (Floats Float64 [v])
  | Scalar (PyStr s) => NdArray [] (Strs [s])
  end.

(** [repr(type(v))] *)
Definition type_repr (v : pyobj) : string :=
  match v with
  | Num (Arr _) | ObjArray _ _ => "<class 'numpy.ndarray'>"
  | Num (Scalar (PyBool _)) => "<class 'bool'>"
  | Num (Scalar (PyInt _)) => "<class 'int'>"
  | Num (Scalar (PyFloat _)) => "<class 'float'>"
  | Num (Scalar (PyStr _)) => "<class 'str'>"
  | PyList _ => "<class 'list'>"
  | PyBytes _ => "<class 'bytes'>"
  end.

Fixpoint chunks {A} (n k : nat) (l : list A) : list (list A) :=
  match k with
  | O => []
  | S k' => firstn n l :: chunks n k' (skipn n l)
  end.

(** Iterating an array yields its sub-arrays along the first axis; a
    0-dimensional array is not iterable. *)
Definition iter_array (a : ndarray) : option (list array_like) :=
  match shape a with
  | [] => None
  | n :: sh =>
      Some (match buf a with
            | Ints d vs =>
                map (fun c => Arr (NdArray sh (Ints d c))) (chunks (size_of sh) n vs)
            | Floats f vs =>
                map (fun c => Arr (NdArray sh (Floats f c))) (chunks (size_of sh) n vs)
            | Strs vs =>
                map (fun c => Arr (NdArray sh (Strs c))) (chunks (size_of sh) n vs)
            end)
  end.

Fixpoint chars (s : string) : list string :=
  match s with
  | EmptyString => []
  | String c r => String c EmptyString :: chars r
  end.

(** [list(v)]; [None] when [v] is not iterable ([TypeError]). *)
Definition py_list (v : pyobj) : option (list array_like) :=
  match v with
  | Num (Arr a) => iter_array a
  | Num (Scalar (PyStr s)) => Some (map (fun c => Scalar (PyStr c)) (chars s))
  | Num (Scalar _) => None
  | ObjArray [] _ => None
  | ObjArray _ items => Some items
  | PyList items => Some items
  | PyBytes bs => Some (map (fun b => Scalar (PyInt b)) bs)
  end.

(** ** The part of [scipy.io.loadmat] that the converter relies on

    [loadmat] is a library function.  What is modelled is its documented
    treatment of numeric matrices, char arrays and cell arrays of these
    under the keyword [squeeze_me]; [struct_as_record] only concerns
    structs, which are not modelled. *)

Module Scipy.

(** A matrix as MATLAB stores it: numeric or logical (at least two
    dimensions), or a row of characters. *)
Inductive mlatom :=
| MNumeric (a : ndarray)
| MChar (s : string).

Inductive mlvalue :=
| MAtom (x : mlatom)
| MCell (sh : list nat) (items : list mlatom).

Record matfile := MatFile {
  mf_header : list Z;
  mf_version : string;
  mf_vars : list (string * mlvalue)
}.

Record loadmat_kwargs := Kwargs { squeeze_me : bool; struct_as_record : bool }.

(** [np.squeeze]: drop the axes of size one. *)
Definition squeeze (sh : list nat) : list nat :=
  filter (fun n => negb (Nat.eqb n 1)) sh.

(** [arr.item()] of a one-element buffer. *)
Definition item (b : buffer) : option scalar :=
  match b with
  | Ints Bool_ [v] => Some (PyBool (negb (Z.eqb v 0)))
  | Ints _ [v] => Some (PyInt v)
  | Floats f [v] =>
      Some (PyFloat
              match v with
              | S754_finite sg m e =>
                  binary_normalize (prec Float64) (emax Float64)
                    (cond_Zopp sg (Z.pos m)) e false
              | _ => v
              end)
  | Strs [v] => Some (PyStr v)
  | _ => None
  end.

Definition empty_like (b : buffer) : buffer :=
  match b with
  | Ints d _ => Ints d []
  | Floats f _ => Floats f []
  | Strs _ => Strs []
  end.

(** [squeeze_element]: an empty array becomes 1-dimensional and empty, a
    one-element array becomes a Python scalar, other arrays lose their
    axes of size one. *)
Definition squeeze_element (a : ndarray) : array_like :=
  if Nat.eqb (size_of (shape a)) 0 then Arr (NdArray [0%nat] (empty_like (buf a)))
  else
    match squeeze (shape a), item (buf a) with
    | [], Some v => Scalar v
    | sh, _ => Arr (NdArray sh (buf a))
    end.

Definition load_atom (kw : loadmat_kwargs) (x : mlatom) : array_like :=
  match x with
  | MNumeric a => if squeeze_me kw then squeeze_element a else Arr a
  | MChar s =>
      if squeeze_me kw then Scalar (PyStr s) else Arr (NdArray [1%nat] (Strs [s]))
  end.

Definition load_value (kw : loadmat_kwargs) (v : mlvalue) : pyobj :=
  match v with
  | MAtom x => Num (load_atom kw x)
  | MCell sh items =>
      let items' := map (load_atom kw) items in
      if squeeze_me kw then
        if Nat.eqb (size_of sh) 0 then ObjArray [0%nat] []
        else
          match squeeze sh, items' with
          | [], [x] => Num x
          | sh', _ => ObjArray sh' items'
          end
      else ObjArray sh items'
  end.

(** The dictionary [loadmat] returns: three entries of metadata, then the
    variables of the file. *)
Definition loadmat (f : matfile) (kw : loadmat_kwargs) : mat_dict :=
  ("__header__", PyBytes (mf_header f))
  :: ("__version__", Num (Scalar (PyStr (mf_version f))))
  :: ("__globals__", PyList [])
  :: map (fun kv => (fst kv, load_value kw (snd kv))) (mf_vars f).

End Scipy.

(** ** The converter *)

Section Converter.

(** What the platform stores when a NaN is converted to [uint8], and the
    text of NumPy's no-loop [TypeError]. *)
Variable invalid_cast : Z.
Variable no_loop_msg : string.

(** Encoded image data, and [Image.fromarray(x).save(_, format="JPEG",
    quality=95)] of Pillow: the bytes written, or the exception raised for
    an array it cannot encode. *)
Variable jpeg : Type.
Variable pil_save : ndarray -> result jpeg.

(** The [.mat] files on disk: parsing the file at a path gives its
    variables or raises. *)
Variable read_mat : Path -> result Scipy.matfile.

(** The names of the entries of [INPUT_DIR]. *)
Variable input_dir : list string.

(** *** State: files written, directories made, lines printed *)

Record world := World {
  files : list (string * jpeg);
  dirs : list string;
  stdout : list string
}.

Definition M (A : Type) : Type := world -> world * result A.

Definition ret {A} (a : A) : M A := fun w => (w, Ok a).

Definition bind {A B} (m : M A) (k : A -> M B) : M B :=
  fun w =>
    match m w with
    | (w', Ok a) => k a w'
    | (w', Raise e) => (w', Raise e)
    end.

Definition lift {A} (r : result A) : M A := fun w => (w, r).

Notation "x <-- m ;; k" := (bind m (fun x => k))
  (at level 61, m at next level, right associativity).
Notation "m ;;; k" := (bind m (fun _ => k))
  (at level 61, right associativity).

(** A file written at a path; a later write to the same path comes later
    in the list. *)
Definition write_file (p : Path) (data : jpeg) : M unit :=
  fun w => (World (files w ++ [(path_str p, data)]) (dirs w) (stdout w), Ok tt).

(** [mkdir(parents=True, exist_ok=True)] *)
Definition mkdir (d : string) : M unit :=
  fun w =>
    (World (files w) (if existsb (String.eqb d) (dirs w) then dirs w else dirs w ++ [d])
       (stdout w), Ok tt).

Definition print (line : string) : M unit :=
  fun w => (World (files w) (dirs w) (stdout w ++ [line]), Ok tt).

(** [for v in l: body(v)] *)
Fixpoint for_each {A} (l : list A) (body : A -> M unit) : M unit :=
  match l with
  | [] => ret tt
  | v :: r => body v ;;; for_each r body
  end.

Local Open Scope result_scope.

(** [_to_uint8], lines 19-24. *)
Definition _to_uint8 (img : ndarray) : result ndarray :=
  let x := img in
  x <- match buf x with
       | Floats f vs =>
           m <- nanmax vs ;;
           if SFleb m (of_Z f 1)
           then Ok (NdArray (shape x) (Floats f (map (mul_255 f) vs)))
           else Ok x
       | _ => Ok x
       end ;;
  b <- clip_astype_uint8 invalid_cast no_loop_msg (buf x) ;;
  Ok (NdArray (shape x) b).

(** Line 31: [x.ndim == 3 and x.shape[2] == 1]. *)
Definition is_hw1 (sh : list nat) : bool :=
  Nat.eqb (List.length sh) 3 && Nat.eqb (nth 2 sh 0%nat) 1.

(** Line 35: [x.ndim == 3 and x.shape[0] in (1, 3, 4) and x.shape[1] > 32
    and x.shape[2] > 32]. *)
Definition is_chw (sh : list nat) : bool :=
  Nat.eqb (List.length sh) 3
  && existsb (Nat.eqb (nth 0 sh 0%nat)) [1; 3; 4]%nat
  && (32 <? nth 1 sh 0)%nat
  && (32 <? nth 2 sh 0)%nat.

(** Lines 28-36 of [_save_jpg]: the array handed to the encoder. *)
Definition jpg_array (img : ndarray) : result ndarray :=
  x <- _to_uint8 img ;;
  let x := if is_hw1 (shape x) then index_last_0 x else x in
  let x := if is_chw (shape x) then transpose_1_2_0 x else x in
  Ok x.

(** [_save_jpg], lines 27-38. *)
Definition _save_jpg (img : ndarray) (out_path : Path) : M unit :=
  x <-- lift (jpg_array img) ;;
  data <-- lift (pil_save x) ;;
  write_file out_path data.

(** [_find_key_case_insensitive], lines 41-46. *)
Definition _find_key_case_insensitive (d : mat_dict) (wanted : string)
  : option string :=
  let wl := lower wanted in
  find (fun k => String.eqb (lower k) wl) (keys d).

(** [loadmat(mat_path, squeeze_me=True, struct_as_record=False)], line 50. *)
Definition loadmat_args : Scipy.loadmat_kwargs := Scipy.Kwargs true false.

Definition load (mat_path : Path) : result mat_dict :=
  f <- read_mat mat_path ;;
  Ok (Scipy.loadmat f loadmat_args).

(** Lines 52-58: the value of the variable [Icolor]. *)
Definition find_icolor (mat : mat_dict) : result pyobj :=
  match _find_key_case_insensitive mat "Icolor" with
  | None =>
      let keys := filter (fun k => negb (startswith k "__")) (keys mat) in
      Raise (Exn RuntimeError
               ("Variável 'Icolor' não encontrada. Chaves disponíveis: "
                ++ repr_list keys))
  | Some key =>
      match getitem mat key with
      | Some ic => Ok ic
      | None => Raise (Exn KeyError (repr_str key))
      end
  end.

(** Lines 60-69: the value as a list of frames. *)
Definition frames_of (ic : pyobj) : result (list array_like) :=
  match ic with
  | ObjArray _ items => Ok items
  | PyList items => Ok items
  | _ =>
      match py_list ic with
      | Some frames => Ok frames
      | None =>
          Raise (Exn RuntimeError
                   ("Icolor encontrado, mas em formato inesperado: " ++ type_repr ic))
      end
  end.

(** Lines 74-75. *)
Definition chip_id (mat_path : Path) : string :=
  match CHIP_RE (name mat_path) with
  | Some g => g
  | None => stem mat_path
  end.

(** Line 81. *)
Definition out_name (chip : string) (i : nat) : string :=
  PREFIX ++ "_" ++ chip ++ "_" ++ str_of_nat i ++ ".jpg".

(** Line 82: [OUTPUT_DIR / out_name]. *)
Definition out_path (mat_path : Path) (i : nat) : Path :=
  path_join OUTPUT_DIR (out_name (chip_id mat_path) i).

(** [frames[i]] *)
Definition frame_at (frames : list array_like) (i : nat) : result array_like :=
  match nth_error frames i with
  | Some f => Ok f
  | None => Raise (Exn IndexError "list index out of range")
  end.

(** Lines 71-82, from the list of frames on. *)
Definition save_frames (mat_path : Path) (frames : list array_like) : M unit :=
  if (List.length frames <? 5)%nat then
    lift (Raise (Exn RuntimeError
            ("Icolor contém " ++ str_of_nat (List.length frames)
             ++ " frame(s), esperado >= 5.")))
  else
    mkdir OUTPUT_DIR ;;;
    for_each (seq 1 5) (fun i =>
      f <-- lift (frame_at frames (i - 1)) ;;
      let img := asarray f in
      _save_jpg img (out_path mat_path i)).

(** [extract_from_mat], lines 49-82. *)
Definition extract_from_mat (mat_path : Path) : M unit :=
  mat <-- lift (load mat_path) ;;
  ic <-- lift (find_icolor mat) ;;
  frames <-- lift (frames_of ic) ;;
  save_frames mat_path frames.

(** [sorted]: insertion into a sorted list, on file names. *)
Fixpoint insert_sorted (n : string) (l : list string) : list string :=
  match l with
  | [] => [n]
  | m :: r => if String.leb n m then n :: l else m :: insert_sorted n r
  end.

Definition sorted (l : list string) : list string :=
  fold_right insert_sorted [] l.

(** [sorted(INPUT_DIR.glob(FILE_GLOB))] *)
Definition glob_mats : list Path :=
  map (path_join INPUT_DIR) (sorted (filter FILE_GLOB input_dir)).

(** The body of the loop of [main], lines 92-97: [total] after the file. *)
Definition main_step (total : nat) (mat_file : Path) : world -> world * nat :=
  fun w =>
    match extract_from_mat mat_file w with
    | (w', Ok _) =>
        let total := (total + 5)%nat in
        (fst (print ("[OK] " ++ name mat_file ++ " -> 5 imagens extraídas (Icolor)") w'),
         total)
    | (w', Raise e) =>
        (fst (print ("[ERRO] " ++ name mat_file ++ ": " ++ exn_msg e) w'), total)
    end.

Fixpoint main_loop (mats : list Path) (total : nat) (w : world) : world * nat :=
  match mats with
  | [] => (w, total)
  | mat_file :: r =>
      let (w', total') := main_step total mat_file w in
      main_loop r total' w'
  end.

(** How [main] ends: normally, or by [SystemExit]. *)
Inductive exit := Done | SystemExit (msg : string).

(** [main], lines 85-100. *)
Definition main (w : world) : world * exit :=
  let mats := glob_mats in
  match mats with
  | [] => (w, SystemExit ("Nenhum arquivo .mat encontrado em " ++ INPUT_DIR))
  | _ =>
      let (w1, total) := main_loop mats 0 w in
      let w2 := fst (print (String newline "Concluído. Total extraído: "
                            ++ str_of_nat total ++ " imagens") w1) in
      let w3 := fst (print ("Saída: " ++ OUTPUT_DIR) w2) in
      (w3, Done)
  end.

End Converter.

(** * Vocabulary of the specification *)

Local Open Scope Z_scope.

(** A value that is not NaN, as a point of a lexicographic order: class
    (infinities, sign), then exponent, then mantissa. *)
Definition float_key (v : spec_float) : option (Z * Z * Z) :=
  match v with
  | S754_nan => None
  | S754_infinity true => Some (-2, 0, 0)
  | S754_finite true m e => Some (-1, - e, - Z.pos m)
  | S754_zero _ => Some (0, 0, 0)
  | S754_finite false m e => Some (1, e, Z.pos m)
  | S754_infinity false => Some (2, 0, 0)
  end.

Definition lex (k1 k2 : Z * Z * Z) : comparison :=
  let '(a1, b1, c1) := k1 in
  let '(a2, b2, c2) := k2 in
  match a1 ?= a2 with
  | Eq => match b1 ?= b2 with Eq => c1 ?= c2 | r => r end
  | r => r
  end.

Definition lex_lt (k1 k2 : Z * Z * Z) : Prop :=
  let '(a1, b1, c1) := k1 in
  let '(a2, b2, c2) := k2 in
  a1 < a2 \/ (a1 = a2 /\ (b1 < b2 \/ (b1 = b2 /\ c1 < c2))).

(** [m] is the greatest element of [vs] that is not NaN. *)
Definition is_max (vs : list spec_float) (m : spec_float) : Prop :=
  In m vs /\ is_nan m = false /\
  forall x, In x vs -> is_nan x = false -> SFleb x m = true.

(** [m] is the greatest finite element of [vs]: the reading of claim C1 in
    which infinities are left aside, as NaN is. *)
Definition is_finite (v : spec_float) : bool :=
  match v with
  | S754_zero _ | S754_finite _ _ _ => true
  | _ => false
  end.

Definition is_finite_max (vs : list spec_float) (m : spec_float) : Prop :=
  In m vs /\ is_finite m = true /\
  forall x, In x vs -> is_finite x = true -> SFleb x m = true.

(** Claim C1 in that reading: an array whose greatest finite element is at
    most 1.0 is multiplied by 255 before it is clipped and cast. *)
Definition scales_by_finite_max (invalid_cast : Z) (no_loop_msg : string) : Prop :=
  forall sh f vs m,
    is_finite_max vs m -> SFleb m (of_Z f 1) = true ->
    _to_uint8 invalid_cast no_loop_msg (NdArray sh (Floats f vs)) =
    Ok (NdArray sh (Ints UInt8
          (map (fun v => float_to_uint8 invalid_cast
                           (clip_float (of_Z f 0) (of_Z f 255) (mul_255 f v))) vs))).

(** One element of an array, with the dtype it is read at. *)
Inductive elem :=
| EInt (z : Z)
| EFloat (f : float_dtype) (v : spec_float)
| EStr (s : string).

Definition elems (b : buffer) : list elem :=
  match b with
  | Ints _ vs => map EInt vs
  | Floats f vs => map (EFloat f) vs
  | Strs vs => map EStr vs
  end.

(** The element is less than 0, or greater than 255. *)
Definition below_0 (e : elem) : Prop :=
  match e with
  | EInt z => z < 0
  | EFloat f v => SFltb v (of_Z f 0) = true
  | EStr _ => False
  end.

Definition above_255 (e : elem) : Prop :=
  match e with
  | EInt z => 255 < z
  | EFloat f v => SFltb (of_Z f 255) v = true
  | EStr _ => False
  end.

(** An array of dtype [uint8]: its elements lie in [0, 255]. *)
Definition is_uint8 (x : ndarray) : Prop :=
  exists vs, buf x = Ints UInt8 vs /\ Forall (fun v => 0 <= v <= 255) vs.

(** Two characters that are the same up to the case of an ASCII letter. *)
Definition is_upper (c : ascii) : bool :=
  ((65 <=? nat_of_ascii c) && (nat_of_ascii c <=? 90))%nat.

Definition ci_char (a b : ascii) : Prop :=
  a = b
  \/ (is_upper a = true /\ nat_of_ascii b = (nat_of_ascii a + 32)%nat)
  \/ (is_upper b = true /\ nat_of_ascii a = (nat_of_ascii b + 32)%nat).

(** Two texts that match case-insensitively. *)
Inductive ci_eq : string -> string -> Prop :=
| ci_nil : ci_eq EmptyString EmptyString
| ci_cons a b s t : ci_char a b -> ci_eq s t -> ci_eq (String a s) (String b t).

(** A key of metadata: it begins with two underscores. *)
Definition is_metadata (k : string) : Prop := exists r, k = "__" ++ r.

(** The text consists of decimal digits. *)
Definition all_digits (s : string) : bool := forallb Unicode.isdecimal (decode s).

(** A run of decimal digits, one after the other. *)
Inductive digits : string -> Prop :=
| digits_nil : digits EmptyString
| digits_cons s r : digit s = Some r -> digits r -> digits s.

(** The characters outside ASCII that a letter of a pattern matches under
    [re.IGNORECASE]: the dotted capital I and the dotless i for an i, the
    Kelvin sign for a k, the long s for an s. *)
Definition ci_others : list (ascii * N) :=
  [("i"%char, 0x130); ("i"%char, 0x131); ("k"%char, 0x212a); ("s"%char, 0x17f)]%N.

(** A text that an ASCII literal of a pattern matches under
    [re.IGNORECASE]. *)
Inductive ci_match : string -> string -> Prop :=
| ci_match_nil : ci_match EmptyString EmptyString
| ci_match_ascii a b s t :
    (byte b < 128)%N -> ci_char a b -> ci_match s t ->
    ci_match (String a s) (String b t)
| ci_match_other c b s t :
    In (lower_ascii b, c) ci_others -> ci_match s t ->
    ci_match (encode1 c ++ s) (String b t).

(** The lowercase of ASCII text, letter by letter. *)
Fixpoint lower_bytes (s : string) : string :=
  match s with
  | EmptyString => EmptyString
  | String c r => String (lower_ascii c) (lower_bytes r)
  end.

(** ASCII text. *)
Definition is_ascii (s : string) : Prop :=
  Forall (fun b => (byte b < 128)%N) (list_ascii_of_string s).

(** ASCII text without the letter k, the one ASCII letter that is the
    lowercase of a character outside ASCII (the Kelvin sign). *)
Definition plain (s : string) : Prop :=
  Forall (fun b => (byte b < 128)%N /\ lower_ascii b <> "k"%char) (list_ascii_of_string s).

(** Two characters that are the same up to the case of an ASCII letter. *)
Definition ci_cp (x y : N) : Prop :=
  (x = y \/ (65 <= x <= 90 /\ y = x + 32) \/ (65 <= y <= 90 /\ x = y + 32))%N.

(** A range of the table of lowercase mappings that has no ASCII lowercase
    for a character outside ASCII, the Kelvin sign and the dotted capital I
    apart. *)
Definition lower_range_ok (r : N * N * N * N) : bool :=
  let '(lo, hi, _, target) := r in
  ((hi <? 128) || (128 <=? target)
   || ((lo =? hi) && ((target =? 107) || (lo =? 0x130))))%N.

(** What the character database says of an ASCII character. *)
Definition ascii_lower_ok (n : nat) : bool :=
  let c := N.of_nat n in
  ((Unicode.tolower c =? (if (65 <=? c) && (c <=? 90) then c + 32 else c))
   && negb (c =? 0x130) && negb (c =? SIGMA)
   && Bool.eqb (Unicode.cased c) (((65 <=? c) && (c <=? 90)) || ((97 <=? c) && (c <=? 122)))
   && Bool.eqb (Unicode.case_ignorable c)
        ((c =? 39) || (c =? 46) || (c =? 58) || (c =? 94) || (c =? 96)))%N.


(** The name ends with a newline. *)
Definition ends_with_newline (n : string) : Prop :=
  exists n', n = n' ++ String newline EmptyString.

(** The name is [Chip_<digits>.mat], letters in either case; [ds] are the
    digits. *)
Definition chip_name (n ds : string) : Prop :=
  exists pre suf,
    n = pre ++ ds ++ suf
    /\ ci_eq pre "Chip_" /\ ci_eq suf ".mat"
    /\ ds <> EmptyString /\ all_digits ds = true.

Section Outcomes.

Variable invalid_cast : Z.
Variable no_loop_msg : string.
Variable jpeg : Type.
Variable pil_save : ndarray -> result jpeg.
Variable read_mat : Path -> result Scipy.matfile.

(** The data a frame is encoded to, if it can be. *)
Definition encoded (f : array_like) : result jpeg :=
  (x <- jpg_array invalid_cast no_loop_msg (asarray f) ;; pil_save x)%result.

(** A file with a valid container of at least 5 frames: it loads, holds
    [Icolor] as a list of 5 frames or more, and frames 1 to 5 encode to
    [js]. *)
Definition valid_mat (p : Path) (js : list jpeg) : Prop :=
  exists mat ic frames,
    load read_mat p = Ok mat /\ find_icolor mat = Ok ic
    /\ frames_of ic = Ok frames
    /\ (5 <= List.length frames)%nat
    /\ Forall2 (fun f j => encoded f = Ok j) (firstn 5 frames) js.

(** A computation whose result is the same in every state, and that prints
    nothing. *)
Definition stateless {A} (m : M jpeg A) : Prop :=
  exists r, forall w, snd (m w) = r /\ stdout jpeg (fst (m w)) = stdout jpeg w.

Definition empty_world : world jpeg := World jpeg [] [] [].

(** What the extraction of a file ends with. *)
Definition outcome (p : Path) : result unit :=
  snd (extract_from_mat invalid_cast no_loop_msg jpeg pil_save read_mat p empty_world).

Definition succeeded (p : Path) : bool :=
  match outcome p with Ok _ => true | Raise _ => false end.

(** The line the batch driver prints for a file. *)
Definition log_line (p : Path) : string :=
  match outcome p with
  | Ok _ => "[OK] " ++ name p ++ " -> 5 imagens extraídas (Icolor)"
  | Raise e => "[ERRO] " ++ name p ++ ": " ++ exn_msg e
  end.

End Outcomes.

(** [loadmat] keeps every cell array as a container of the stored shape. *)
Definition keeps_containers (kw : Scipy.loadmat_kwargs) : Prop :=
  forall sh items,
    exists items', Scipy.load_value kw (Scipy.MCell sh items) = ObjArray sh items'
                   /\ List.length items' = List.length items.

(** The last character of a text. *)
Fixpoint str_last (s : string) : option ascii :=
  match s with
  | EmptyString => None
  | String c EmptyString => Some c
  | String _ r => str_last r
  end.

(** * Sample inputs *)

Module Sample.

Definition half : spec_float := binary_normalize 53 1024 1 (-1) false.
Definition one : spec_float := of_Z Float64 1.
Definition two : spec_float := of_Z Float64 2.

(** A 2 x 2 grey image. *)
Definition frame : ndarray := NdArray [2; 2]%nat (Ints UInt8 [0; 64; 128; 255]).

(** The same pixels with a channel axis of size one. *)
Definition hw1_image : ndarray := NdArray [2; 2; 1]%nat (Ints UInt8 [0; 64; 128; 255]).

(** Channel-first images: 3 x 64 x 64 and 1 x 33 x 33. *)
Definition chw_image : ndarray :=
  NdArray [3; 64; 64]%nat (Ints UInt8 (repeat 7 (3 * 64 * 64))).

Definition one_hw_image : ndarray :=
  NdArray [1; 33; 33]%nat (Ints UInt8 (repeat 7 (33 * 33))).

(** A 3 x 64 x 64 image whose element at offset [n] is [n mod 256]. *)
Definition ramp_image : ndarray :=
  NdArray [3; 64; 64]%nat
    (Ints UInt8 (map (fun n => Z.of_nat (n mod 256)) (seq 0 (3 * 64 * 64)))).

Definition inf : spec_float := S754_infinity false.

(** A file whose [Icolor] is a 1 x n cell array of such images. *)
Definition file (n : nat) : Scipy.matfile :=
  Scipy.MatFile [] "1.0"
    [("Icolor", Scipy.MCell [1%nat; n] (repeat (Scipy.MNumeric frame) n))].

(** A directory where [Chip_2.mat] holds 3 frames, [Chip_3.mat] cannot be
    read and every other file holds 5 frames. *)
Definition disk (p : Path) : result Scipy.matfile :=
  if String.eqb (name p) "Chip_2.mat" then Ok (file 3)
  else if String.eqb (name p) "Chip_3.mat"
       then Raise (Exn OSError "could not read bytes")
       else Ok (file 5).

(** A stand-in for the encoder: grey and RGB arrays are accepted and the
    pixels stand for the file content. *)
Definition encoder (x : ndarray) : result ndarray :=
  match shape x with
  | [_; _] | [_; _; 3%nat] => Ok x
  | _ => Raise (Exn TypeError "Cannot handle this data type")
  end.

Definition listing : list string :=
  ["notes.txt"; "Chip_2.mat"; "Chip_10.mat"; "Chip_3.mat"; "chip_4.mat"].

(** A file name that ends with a newline. *)
Definition newline_path : Path :=
  MkPath INPUT_DIR ("Chip_7.mat" ++ String newline EmptyString).

End Sample.

(** * Further vocabulary *)

(** The paths of the five images of a file, in the order they are written. *)
Definition out_paths (p : Path) : list string :=
  map (fun i => path_str (out_path p i)) (seq 1 5).

(** The name is [Chip_<anything>.mat], as the glob asks. *)
Definition glob_name (n mid : string) : Prop :=
  n = "Chip_" ++ mid ++ ".mat".

Section Validation.

Variable read_mat : Path -> result Scipy.matfile.

(** Lines 50-69: the frames of a file, before any of them is looked at. *)
Definition frames_for (p : Path) : result (list array_like) :=
  (mat <- load read_mat p ;; ic <- find_icolor mat ;; frames_of ic)%result.

(** The file passes the checks of lines 50-72: it loads, holds [Icolor] in
    a form that can be listed, and has 5 frames or more. *)
Definition validated (p : Path) : bool :=
  match frames_for p with
  | Ok frames => (5 <=? List.length frames)%nat
  | Raise _ => false
  end.

End Validation.

(** * More sample inputs *)

Module Faulty.

(** A row of four bytes: 1 x 4 in the file, 1-dimensional once loaded; the
    stand-in encoder refuses it. *)
Definition row : ndarray := NdArray [1; 4]%nat (Ints UInt8 [1; 2; 3; 4]).
Definition row_loaded : ndarray := NdArray [4%nat] (Ints UInt8 [1; 2; 3; 4]).

(** A file whose third frame is that row. *)
Definition file : Scipy.matfile :=
  Scipy.MatFile [] "1.0"
    [("icolor",
      Scipy.MCell [1; 5]%nat
        [Scipy.MNumeric Sample.frame; Scipy.MNumeric Sample.frame;
         Scipy.MNumeric row;
         Scipy.MNumeric Sample.frame; Scipy.MNumeric Sample.frame])].

Definition disk (p : Path) : result Scipy.matfile := Ok file.

Definition path : Path := MkPath INPUT_DIR "Chip_5.mat".

End Faulty.

(** * Properties *)

(** ** The order of floating-point values *)

Module FloatOrder.

Local Open Scope Z_scope.



Lemma SFcompare_key (x y : spec_float) :
  SFcompare x y =
  match float_key x, float_key y with
  | Some kx, Some ky => Some (lex kx ky)
  | _, _ => None
  end.
Proof.
  destruct x as [sx|sx| |sx mx ex], y as [sy|sy| |sy my ey];
    try destruct sx; try destruct sy; try reflexivity; simpl.
  rewrite Z.compare_opp, (Z.compare_antisym ex ey).
  destruct (ex ?= ey); reflexivity.
Qed.


Lemma lex_Lt k1 k2 : lex k1 k2 = Lt <-> lex_lt k1 k2.
Proof.
  destruct k1 as [[a1 b1] c1], k2 as [[a2 b2] c2]; simpl.
  destruct (Z.compare_spec a1 a2), (Z.compare_spec b1 b2), (Z.compare_spec c1 c2);
    split; intros Hc; try discriminate; try reflexivity; lia.
Qed.

Lemma lex_Eq k1 k2 : lex k1 k2 = Eq <-> k1 = k2.
Proof.
  destruct k1 as [[a1 b1] c1], k2 as [[a2 b2] c2]; simpl.
  destruct (Z.compare_spec a1 a2), (Z.compare_spec b1 b2), (Z.compare_spec c1 c2);
    split; intros Hc; try discriminate; try reflexivity;
    try (inversion Hc; lia); subst; reflexivity.
Qed.

Lemma lex_Gt k1 k2 : lex k1 k2 = Gt <-> lex_lt k2 k1.
Proof.
  destruct k1 as [[a1 b1] c1], k2 as [[a2 b2] c2]; simpl.
  destruct (Z.compare_spec a1 a2), (Z.compare_spec b1 b2), (Z.compare_spec c1 c2);
    split; intros Hc; try discriminate; try reflexivity; lia.
Qed.

Lemma lex_lt_trans k1 k2 k3 : lex_lt k1 k2 -> lex_lt k2 k3 -> lex_lt k1 k3.
Proof.
  destruct k1 as [[a1 b1] c1], k2 as [[a2 b2] c2], k3 as [[a3 b3] c3];
    simpl; lia.
Qed.

(** [x < y] and [x <= y] through the keys. *)
Lemma SFltb_key x y :
  SFltb x y = true <-> exists kx ky, float_key x = Some kx /\ float_key y = Some ky /\ lex_lt kx ky.
Proof.
  unfold SFltb. rewrite SFcompare_key.
  destruct (float_key x) as [kx|], (float_key y) as [ky|].
  - destruct (lex kx ky) eqn:E; split; intros H; try discriminate.
    + destruct H as (a & b & Ha & Hb & Hl). inversion Ha; inversion Hb; subst.
      apply lex_Eq in E. subst. destruct b as [[? ?] ?]; simpl in Hl; lia.
    + exists kx, ky. now rewrite <- lex_Lt.
    + reflexivity.
    + destruct H as (a & b & Ha & Hb & Hl). inversion Ha; inversion Hb; subst.
      apply lex_Gt in E. pose proof (lex_lt_trans _ _ _ E Hl) as C.
      destruct b as [[? ?] ?]; simpl in C; lia.
  - split; [discriminate|]. intros (a & b & _ & Hb & _). discriminate.
  - split; [discriminate|]. intros (a & b & Ha & _). discriminate.
  - split; [discriminate|]. intros (a & b & Ha & _). discriminate.
Qed.

Lemma SFleb_key x y :
  SFleb x y = true <->
  exists kx ky, float_key x = Some kx /\ float_key y = Some ky /\ (lex_lt kx ky \/ kx = ky).
Proof.
  unfold SFleb. rewrite SFcompare_key.
  destruct (float_key x) as [kx|], (float_key y) as [ky|].
  - destruct (lex kx ky) eqn:E; split; intros H; try discriminate; try reflexivity.
    + exists kx, ky. apply lex_Eq in E. auto.
    + exists kx, ky. apply lex_Lt in E. auto.
    + destruct H as (a & b & Ha & Hb & Hl). inversion Ha; inversion Hb; subst.
      apply lex_Gt in E. destruct Hl as [Hl|Hl].
      * pose proof (lex_lt_trans _ _ _ E Hl) as C.
        destruct b as [[? ?] ?]; simpl in C; lia.
      * subst. destruct b as [[? ?] ?]; simpl in E; lia.
  - split; [discriminate|]. intros (a & b & _ & Hb & _). discriminate.
  - split; [discriminate|]. intros (a & b & Ha & _). discriminate.
  - split; [discriminate|]. intros (a & b & Ha & _). discriminate.
Qed.

Lemma key_nan v : float_key v = None <-> is_nan v = true.
Proof. destruct v as [s|s| |s m e]; try destruct s; simpl; split; congruence. Qed.

Lemma key_some v : is_nan v = false -> exists k, float_key v = Some k.
Proof.
  intros H. destruct (float_key v) eqn:E; eauto.
  apply key_nan in E. congruence.
Qed.

Lemma SFleb_refl v : is_nan v = false -> SFleb v v = true.
Proof.
  intros H. apply SFleb_key. destruct (key_some v H) as [k Hk]. eauto 6.
Qed.

Lemma SFleb_trans x y z : SFleb x y = true -> SFleb y z = true -> SFleb x z = true.
Proof.
  rewrite !SFleb_key. intros (a & b & Ha & Hb & H1) (b' & c & Hb' & Hc & H2).
  rewrite Hb in Hb'. inversion Hb'; subst. exists a, c. repeat split; auto.
  destruct H1 as [H1|H1], H2 as [H2|H2]; subst; auto.
  left. eapply lex_lt_trans; eauto.
Qed.

Lemma SFltb_leb_trans x y z : SFltb x y = true -> SFleb y z = true -> SFltb x z = true.
Proof.
  rewrite !SFltb_key, SFleb_key. intros (a & b & Ha & Hb & H1) (b' & c & Hb' & Hc & H2).
  rewrite Hb in Hb'. inversion Hb'; subst. exists a, c. repeat split; auto.
  destruct H2 as [H2|H2]; subst; auto. eapply lex_lt_trans; eauto.
Qed.

Lemma SFleb_ltb_trans x y z : SFleb x y = true -> SFltb y z = true -> SFltb x z = true.
Proof.
  rewrite !SFltb_key, SFleb_key. intros (a & b & Ha & Hb & H1) (b' & c & Hb' & Hc & H2).
  rewrite Hb in Hb'. inversion Hb'; subst. exists a, c. repeat split; auto.
  destruct H1 as [H1|H1]; subst; auto. eapply lex_lt_trans; eauto.
Qed.

Lemma SFltb_trans x y z : SFltb x y = true -> SFltb y z = true -> SFltb x z = true.
Proof.
  rewrite !SFltb_key. intros (a & b & Ha & Hb & H1) (b' & c & Hb' & Hc & H2).
  rewrite Hb in Hb'. inversion Hb'; subst. exists a, c. repeat split; auto.
  eapply lex_lt_trans; eauto.
Qed.

Lemma SFltb_irrefl x : SFltb x x = false.
Proof.
  destruct (SFltb x x) eqn:E; auto.
  apply SFltb_key in E. destruct E as (a & b & Ha & Hb & Hl).
  rewrite Ha in Hb. inversion Hb; subst. destruct b as [[? ?] ?]; simpl in Hl; lia.
Qed.

Lemma SFltb_not_leb x y : SFltb x y = true -> SFleb y x = false.
Proof.
  intros H. destruct (SFleb y x) eqn:E; auto.
  pose proof (SFltb_leb_trans _ _ _ H E) as C. now rewrite SFltb_irrefl in C.
Qed.

Lemma SFltb_asym x y : SFltb x y = true -> SFltb y x = false.
Proof.
  intros H. destruct (SFltb y x) eqn:E; auto.
  pose proof (SFltb_trans _ _ _ H E) as C. now rewrite SFltb_irrefl in C.
Qed.

Lemma SFltb_leb x y : SFltb x y = true -> SFleb x y = true.
Proof.
  rewrite SFltb_key, SFleb_key. intros (a & b & Ha & Hb & H). eauto 7.
Qed.

(** The order is total on values that are not NaN. *)
Lemma SFleb_total x y :
  is_nan x = false -> is_nan y = false -> SFleb x y = false -> SFltb y x = true.
Proof.
  intros Hx Hy H. destruct (key_some x Hx) as [kx Kx], (key_some y Hy) as [ky Ky].
  apply SFltb_key. exists ky, kx. repeat split; auto.
  apply lex_Gt. destruct (lex kx ky) eqn:E; auto.
  - apply lex_Eq in E. subst.
    assert (SFleb x y = true) by (apply SFleb_key; eauto 7). congruence.
  - apply lex_Lt in E.
    assert (SFleb x y = true) by (apply SFleb_key; eauto 7). congruence.
Qed.

Lemma SFltb_not_nan x y : SFltb x y = true -> is_nan x = false /\ is_nan y = false.
Proof.
  destruct x, y; simpl; try discriminate; auto.
Qed.

Lemma SFleb_not_nan x y : SFleb x y = true -> is_nan x = false /\ is_nan y = false.
Proof.
  destruct x, y; simpl; try discriminate; auto.
Qed.

End FloatOrder.

(** ** Rounding keeps the sign *)

Module Rounding.

Local Open Scope Z_scope.

Lemma shr_1_nonneg mrs : 0 <= shr_m mrs -> 0 <= shr_m (shr_1 mrs).
Proof.
  destruct mrs as [m r s]; simpl.
  destruct m as [|p|p]; simpl; try lia; destruct p; simpl; lia.
Qed.

Lemma iter_shr_1_nonneg p : forall mrs,
  0 <= shr_m mrs -> 0 <= shr_m (iter_pos shr_1 p mrs).
Proof.
  induction p as [p IH|p IH|]; intros mrs H; simpl.
  - apply IH, IH, shr_1_nonneg, H.
  - apply IH, IH, H.
  - apply shr_1_nonneg, H.
Qed.

Lemma shr_fexp_nonneg prec emax m e l :
  0 <= m -> 0 <= shr_m (fst (shr_fexp prec emax m e l)).
Proof.
  intros H. unfold shr_fexp, shr.
  assert (H0 : 0 <= shr_m (shr_record_of_loc m l))
    by (destruct l as [|[]]; simpl; exact H).
  destruct (fexp prec emax (Zdigits2 m + e) - e); simpl; auto.
  now apply iter_shr_1_nonneg.
Qed.

Lemma round_nearest_even_nonneg m l : 0 <= m -> 0 <= round_nearest_even m l.
Proof.
  intros H. destruct l as [|[]]; simpl; try lia.
  destruct (Z.even m); lia.
Qed.

(** Rounding a non-negative mantissa gives a zero, a finite value or an
    infinity of the sign asked for. *)
Lemma binary_round_aux_sign prec emax sx m e l :
  0 <= m ->
  let r := binary_round_aux prec emax sx m e l in
  r = S754_zero sx \/ r = S754_infinity sx \/ exists m' e', r = S754_finite sx m' e'.
Proof.
  intros H. unfold binary_round_aux.
  pose proof (shr_fexp_nonneg prec emax m e l H) as H1.
  destruct (shr_fexp prec emax m e l) as [mrs' e'] eqn:E1. simpl in H1.
  pose proof (shr_fexp_nonneg prec emax _ e' loc_Exact
                (round_nearest_even_nonneg _ (loc_of_shr_record mrs') H1)) as H2.
  destruct (shr_fexp prec emax (round_nearest_even (shr_m mrs') (loc_of_shr_record mrs'))
              e' loc_Exact) as [mrs'' e''] eqn:E2.
  simpl in H2. simpl.
  destruct (shr_m mrs'') as [|p|p]; auto.
  - destruct (e'' <=? emax - prec); eauto.
  - lia.
Qed.

End Rounding.

(** ** [nanmax] *)

Module NanMax.

Import FloatOrder.


Lemma fmax_cases a b : fmax a b = a \/ fmax a b = b.
Proof. unfold fmax. destruct (SFleb b a || is_nan b); auto. Qed.

Lemma fmax_nan a b : is_nan (fmax a b) = true -> is_nan a = true /\ is_nan b = true.
Proof.
  unfold fmax. destruct (SFleb b a) eqn:E; simpl.
  - apply SFleb_not_nan in E. intros H. destruct E. congruence.
  - destruct (is_nan b) eqn:Eb; simpl; auto. congruence.
Qed.

Lemma fmax_ge_l a b : is_nan a = false -> SFleb a (fmax a b) = true.
Proof.
  intros Ha. unfold fmax. destruct (SFleb b a) eqn:E; simpl.
  - now apply SFleb_refl.
  - destruct (is_nan b) eqn:Eb; simpl.
    + now apply SFleb_refl.
    + apply SFltb_leb, SFleb_total; auto.
Qed.

Lemma fmax_ge_r a b : is_nan b = false -> SFleb b (fmax a b) = true.
Proof.
  intros Hb. unfold fmax. destruct (SFleb b a) eqn:E; simpl; auto.
  rewrite Hb. now apply SFleb_refl.
Qed.

Lemma fold_fmax_spec rest : forall v,
  let m := fold_left fmax rest v in
  In m (v :: rest)
  /\ (is_nan m = true -> forall x, In x (v :: rest) -> is_nan x = true)
  /\ (forall x, In x (v :: rest) -> is_nan x = false -> SFleb x m = true).
Proof.
  induction rest as [|a rest IH]; intros v; simpl.
  - repeat split; auto.
    + intros H x [<-|[]]; auto.
    + intros x [<-|[]] H. now apply SFleb_refl.
  - destruct (IH (fmax v a)) as (Hin & Hnan & Hmax). simpl in *.
    repeat split.
    + destruct Hin as [Hin|Hin]; auto.
      rewrite <- Hin. destruct (fmax_cases v a) as [E|E]; rewrite E; auto.
    + intros H x Hx.
      assert (Hf : is_nan (fmax v a) = true) by (apply Hnan; auto).
      apply fmax_nan in Hf. destruct Hf as [Hv Ha].
      destruct Hx as [<-|[<-|Hx]]; auto.
    + intros x Hx Hn.
      destruct Hx as [Hx|[Hx|Hx]]; auto; subst.
      * pose proof (fmax_ge_l x a Hn) as H1.
        apply SFleb_trans with (fmax x a); auto.
        apply Hmax; auto. apply SFleb_not_nan in H1. tauto.
      * pose proof (fmax_ge_r v x Hn) as H1.
        apply SFleb_trans with (fmax v x); auto.
        apply Hmax; auto. apply SFleb_not_nan in H1. tauto.
Qed.

(** [nanmax] returns a greatest non-NaN element whenever there is one. *)
Lemma nanmax_is_max vs m :
  is_max vs m ->
  exists m', nanmax vs = Ok m' /\ is_max vs m' /\ SFleb m m' = true /\ SFleb m' m = true.
Proof.
  intros (Hin & Hn & Hmax).
  destruct vs as [|v rest]; [destruct Hin|].
  destruct (fold_fmax_spec rest v) as (Hin' & Hnan & Hmax').
  exists (fold_left fmax rest v). simpl.
  assert (Hn' : is_nan (fold_left fmax rest v) = false).
  { destruct (is_nan (fold_left fmax rest v)) eqn:E; auto.
    specialize (Hnan eq_refl m Hin). congruence. }
  repeat split; auto.
Qed.

Lemma nanmax_ge vs m x :
  nanmax vs = Ok m -> In x vs -> is_nan x = false -> SFleb x m = true.
Proof.
  destruct vs as [|v rest]; simpl; [discriminate|].
  intros H. inversion H; subst.
  apply (fold_fmax_spec rest v).
Qed.

Lemma nanmax_nonempty vs : vs <> [] -> exists m, nanmax vs = Ok m.
Proof. destruct vs; [congruence|]. simpl. eauto. Qed.

End NanMax.

(** ** Pixel format: [_to_uint8] *)

Section ToUint8.

Variable invalid_cast : Z.
Variable no_loop_msg : string.

Local Open Scope Z_scope.

Import FloatOrder NanMax.

Local Abbreviation to_uint8 := (_to_uint8 invalid_cast no_loop_msg).
Local Abbreviation cast := (float_to_uint8 invalid_cast).

#[local] Arguments of_Z : simpl never.
#[local] Arguments mul_255 : simpl never.
#[local] Arguments clip_float : simpl never.

Lemma of_Z_0 f : of_Z f 0 = S754_zero false.
Proof. destruct f; reflexivity. Qed.

Lemma zero_lt_255 f : SFltb (of_Z f 0) (of_Z f 255) = true.
Proof. destruct f; reflexivity. Qed.

Lemma one_lt_255 f : SFltb (of_Z f 1) (of_Z f 255) = true.
Proof. destruct f; reflexivity. Qed.

Lemma trunc_255 f : trunc (of_Z f 255) = Some 255.
Proof. destruct f; reflexivity. Qed.

Lemma of_Z_255_finite f : exists m e, of_Z f 255 = S754_finite false m e.
Proof. destruct f; eexists; eexists; reflexivity. Qed.

(** A value that is not above 0 is clipped to 0. *)
Lemma clip_cast_nonpos f v :
  is_nan v = false -> SFltb (of_Z f 0) v = false ->
  cast (clip_float (of_Z f 0) (of_Z f 255) v) = 0.
Proof.
  intros Hn Hv. unfold clip_float. rewrite Hn, Hv.
  rewrite of_Z_0 at 1. simpl is_nan. cbv iota.
  rewrite zero_lt_255, of_Z_0. reflexivity.
Qed.

Lemma clip_cast_below f v :
  SFltb v (of_Z f 0) = true -> cast (clip_float (of_Z f 0) (of_Z f 255) v) = 0.
Proof.
  intros H. apply clip_cast_nonpos.
  - now apply SFltb_not_nan in H.
  - now apply SFltb_asym.
Qed.

Lemma clip_cast_above f v :
  SFltb (of_Z f 255) v = true -> cast (clip_float (of_Z f 0) (of_Z f 255) v) = 255.
Proof.
  intros H. unfold clip_float.
  destruct (SFltb_not_nan _ _ H) as [_ Hn]. rewrite Hn.
  rewrite (SFltb_trans _ _ _ (zero_lt_255 f) H), Hn.
  rewrite (SFltb_asym _ _ H).
  unfold float_to_uint8. now rewrite trunc_255.
Qed.

(** A negative value times 255 is not above 0. *)
Lemma mul_255_below f v :
  SFltb v (of_Z f 0) = true ->
  is_nan (mul_255 f v) = false /\ SFltb (of_Z f 0) (mul_255 f v) = false.
Proof.
  rewrite of_Z_0. unfold mul_255.
  destruct (of_Z_255_finite f) as (m & e & ->).
  destruct v as [s|s| |s mv ev]; try destruct s; simpl; try discriminate; auto.
  intros _.
  pose proof (Rounding.binary_round_aux_sign (prec f) (emax f) true
                (Z.pos (mv * m)) (ev + e) loc_Exact) as H.
  simpl in H. destruct H as [H|[H|(m' & e' & H)]]; try lia; rewrite H; auto.
Qed.

(** [x.dtype.kind == "f"] is the case of a buffer of floats. *)
Lemma kind_float x : kind x = "f"%char <-> exists f vs, buf x = Floats f vs.
Proof.
  unfold kind. destruct (buf x) as [d vs|f vs|vs].
  - split; [destruct d; discriminate|]. intros (f & l & H). discriminate.
  - split; eauto.
  - split; [discriminate|]. intros (f & l & H). discriminate.
Qed.

(** *** Claim C1 *)

(** C1 (amended). In [_to_uint8], a floating-point array whose greatest
    value, NaN ignored and infinities counted (what [np.nanmax] returns), is
    at most 1.0 has every value multiplied by 255 before it is clipped and
    cast; one whose greatest value exceeds 1.0, +inf included, is clipped
    and cast as it is. *)
Theorem to_uint8_scales_normalized_floats
  (sh : list nat) (f : float_dtype) (vs : list spec_float) (m : spec_float)
  (Hmax : is_max vs m) :
  (SFleb m (of_Z f 1) = true ->
   to_uint8 (NdArray sh (Floats f vs)) =
   Ok (NdArray sh (Ints UInt8
         (map (fun v => cast (clip_float (of_Z f 0) (of_Z f 255) (mul_255 f v))) vs))))
  /\
  (SFltb (of_Z f 1) m = true ->
   to_uint8 (NdArray sh (Floats f vs)) =
   Ok (NdArray sh (Ints UInt8
         (map (fun v => cast (clip_float (of_Z f 0) (of_Z f 255) v)) vs)))).
Proof.
  destruct (nanmax_is_max vs m Hmax) as (m' & Hm' & _ & Hle & Hge).
  unfold _to_uint8; simpl; rewrite Hm'; simpl. split; intros H.
  - rewrite (SFleb_trans _ _ _ Hge H). simpl. now rewrite map_map.
  - rewrite (SFltb_not_leb _ _ (SFltb_leb_trans _ _ _ H Hle)). reflexivity.
Qed.

(** *** Claim C7 *)

Lemma clip_int_id v : 0 <= v <= 255 -> int_to_uint8 (clip_int 0 255 v) = v.
Proof.
  intros H. unfold int_to_uint8, clip_int.
  rewrite Z.max_l, Z.min_l by lia. apply Z.mod_small. lia.
Qed.

Lemma clip_int_below v : v < 0 -> int_to_uint8 (clip_int 0 255 v) = 0.
Proof.
  intros H. unfold int_to_uint8, clip_int.
  rewrite Z.max_r, Z.min_l by lia. reflexivity.
Qed.

Lemma clip_int_above v : 255 < v -> int_to_uint8 (clip_int 0 255 v) = 255.
Proof.
  intros H. unfold int_to_uint8, clip_int.
  rewrite Z.max_l, Z.min_r by lia. reflexivity.
Qed.

Lemma nth_error_map_some {A B} (g : A -> B) l i b :
  nth_error (map g l) i = Some b -> exists a, nth_error l i = Some a /\ b = g a.
Proof.
  rewrite nth_error_map. destruct (nth_error l i); simpl; [|discriminate].
  intros H. inversion H. eauto.
Qed.

(** C7. An integer array whose values all lie in [0, 255] comes out of
    [_to_uint8] with the same values, as [uint8]; in every array, of any
    dtype, a value below 0 becomes 0 and a value above 255 becomes 255
    (saturation, no wrap-around). *)
Theorem to_uint8_identity_and_saturation (x : ndarray) :
  (forall d vs, buf x = Ints d vs -> Forall (fun v => 0 <= v <= 255) vs ->
     to_uint8 x = Ok (NdArray (shape x) (Ints UInt8 vs)))
  /\
  (forall r i e, to_uint8 x = Ok r -> nth_error (elems (buf x)) i = Some e ->
     exists out, buf r = Ints UInt8 out
       /\ (below_0 e -> nth_error out i = Some 0)
       /\ (above_255 e -> nth_error out i = Some 255)).
Proof.
  destruct x as [sh b]. split.
  - intros d vs Hb Hall. simpl in Hb. subst b. unfold _to_uint8. simpl.
    do 3 f_equal. rewrite <- (map_id vs) at 2.
    apply map_ext_in. intros v Hv. rewrite Forall_forall in Hall.
    apply clip_int_id. auto.
  - intros r i e Hr He. unfold _to_uint8 in Hr. simpl in Hr.
    destruct b as [d vs|f vs|vs]; simpl in *.
    + inversion Hr; subst; clear Hr. simpl. eexists; split; [reflexivity|].
      apply nth_error_map_some in He. destruct He as (v & Hv & ->). simpl.
      rewrite !nth_error_map, Hv; simpl.
      split; intros H; f_equal; [apply clip_int_below|apply clip_int_above]; auto.
    + destruct (nanmax vs) as [m|ex] eqn:Hm; simpl in Hr; [|discriminate].
      apply nth_error_map_some in He. destruct He as (v & Hv & ->). simpl.
      destruct (SFleb m (of_Z f 1)) eqn:Hle; simpl in Hr;
        inversion Hr; subst; clear Hr; simpl;
        (eexists; split; [reflexivity|]).
      * rewrite !nth_error_map, Hv; simpl. split; intros H; f_equal.
        -- destruct (mul_255_below f v H) as [Hn Hz].
           now apply clip_cast_nonpos.
        -- exfalso.
           assert (Hvm : SFleb v m = true).
           { apply (nanmax_ge vs m v Hm).
             - eapply nth_error_In; eauto.
             - now apply SFltb_not_nan in H. }
           pose proof (SFltb_leb_trans _ _ _ H (SFleb_trans _ _ _ Hvm Hle)) as C.
           rewrite (SFltb_asym _ _ (one_lt_255 f)) in C. discriminate.
      * rewrite !nth_error_map, Hv; simpl. split; intros H; f_equal.
        -- now apply clip_cast_below.
        -- now apply clip_cast_above.
    + discriminate.
Qed.

(** *** Claim C9 *)

Lemma mod_256_range z : 0 <= z mod 256 <= 255.
Proof. pose proof (Z.mod_pos_bound z 256). lia. Qed.

Lemma Forall_map_all {A B} (P : B -> Prop) (g : A -> B) l :
  (forall a, P (g a)) -> Forall P (map g l).
Proof. intros H. induction l; simpl; constructor; auto. Qed.

(** C9. Whenever [_to_uint8] returns, the result has dtype [uint8], every
    element lies in [0, 255], and the shape (and the number of elements) is
    that of the input.  It returns for every array but two kinds: a
    floating-point array of size zero, where [nanmax] raises [ValueError],
    and an array of text, where [clip] raises [TypeError]. *)
Theorem to_uint8_invariant (x : ndarray) :
  match to_uint8 x with
  | Ok r =>
      shape r = shape x
      /\ is_uint8 r
      /\ buf_length (buf r) = buf_length (buf x)
  | Raise e =>
      (exists f, buf x = Floats f [] /\ exn_cls e = ValueError)
      \/ (exists vs, buf x = Strs vs /\ exn_cls e = TypeError)
  end.
Proof.
  destruct x as [sh b]. unfold _to_uint8, is_uint8. cbn [buf shape].
  destruct b as [d vs|f vs|vs]; cbn [rbind clip_astype_uint8 buf shape buf_length].
  - repeat split; [|now rewrite length_map].
    eexists; split; [reflexivity|].
    apply Forall_map_all. intros v. apply mod_256_range.
  - destruct (nanmax vs) as [m|e] eqn:Hm; cbn [rbind].
    + destruct (SFleb m (of_Z f 1));
        cbn [rbind clip_astype_uint8 buf shape buf_length];
        (repeat split; [|now rewrite ?length_map]);
        (eexists; split; [reflexivity|]);
        apply Forall_map_all; intros v; unfold float_to_uint8;
        destruct (trunc _); apply mod_256_range.
    + left. destruct vs; [|discriminate]. inversion Hm. eauto.
  - right. eauto.
Qed.

End ToUint8.

(** ** Shape correction: [_save_jpg] *)

Section SaveJpg.

Variable invalid_cast : Z.
Variable no_loop_msg : string.

Local Open Scope nat_scope.

Local Abbreviation to_uint8 := (_to_uint8 invalid_cast no_loop_msg).
Local Abbreviation jpg_array' := (jpg_array invalid_cast no_loop_msg).

Lemma to_uint8_shape img u : to_uint8 img = Ok u -> shape u = shape img.
Proof.
  unfold _to_uint8. destruct img as [sh b]. cbn [buf shape].
  destruct b as [d vs|f vs|vs]; cbn [rbind clip_astype_uint8 buf shape].
  - intros H. now inversion H.
  - destruct (nanmax vs) as [m|e]; cbn [rbind]; [|discriminate].
    destruct (SFleb m (of_Z f 1)); cbn [rbind clip_astype_uint8 buf shape];
      intros H; now inversion H.
  - discriminate.
Qed.

Lemma jpg_array_eq img u :
  to_uint8 img = Ok u ->
  jpg_array' img =
  Ok (let x := if is_hw1 (shape u) then index_last_0 u else u in
      if is_chw (shape x) then transpose_1_2_0 x else x).
Proof. intros H. unfold jpg_array. rewrite H. reflexivity. Qed.

Lemma index_last_0_shape u a b c : shape u = [a; b; c] -> shape (index_last_0 u) = [a; b].
Proof. intros H. unfold index_last_0. now rewrite H. Qed.

Lemma transpose_shape u c h w :
  shape u = [c; h; w] -> shape (transpose_1_2_0 u) = [h; w; c].
Proof. intros H. unfold transpose_1_2_0. now rewrite H. Qed.

Lemma is_chw_true c h w :
  In c [1; 3; 4] -> 32 < h -> 32 < w -> is_chw [c; h; w] = true /\ is_hw1 [c; h; w] = false.
Proof.
  intros Hc Hh Hw. unfold is_chw, is_hw1. cbn [List.length nth Nat.eqb andb].
  apply Nat.ltb_lt in Hh as ->. apply Nat.ltb_lt in Hw as Hw'. rewrite Hw'.
  split.
  - destruct Hc as [<-|[<-|[<-|[]]]]; reflexivity.
  - apply Nat.eqb_neq. lia.
Qed.

(** *** What the two array operations do to the elements *)

Lemma elems_gather idx b : elems (buf_gather idx b) = gather idx (elems b).
Proof.
  assert (G : forall A B (g : A -> B) (l : list A),
            map g (gather idx l) = gather idx (map g l)).
  { intros A B g l. unfold gather. induction idx as [|i idx IH]; simpl; auto.
    rewrite map_app, IH, nth_error_map. now destruct (nth_error l i). }
  destruct b; simpl; apply G.
Qed.

Lemma nth_error_gather {A} (idx : list nat) (l : list A) p q :
  Forall (fun i => i < List.length l) idx ->
  nth_error idx p = Some q ->
  nth_error (gather idx l) p = nth_error l q.
Proof.
  unfold gather. revert p. induction idx as [|i idx IH]; intros p Hall Hp.
  - destruct p; discriminate.
  - inversion Hall as [|? ? Hi Hrest]; subst.
    apply nth_error_Some in Hi. simpl.
    destruct (nth_error l i) as [v|] eqn:E; [|congruence].
    destruct p as [|p]; simpl in *.
    + inversion Hp; subst. auto.
    + now apply IH.
Qed.

Lemma nth_error_blocks {A} (f : nat -> list A) m :
  (forall i, List.length (f i) = m) ->
  forall n s i j, i < n -> j < m ->
    nth_error (flat_map f (seq s n)) (i * m + j) = nth_error (f (s + i)) j.
Proof.
  intros Hlen. induction n as [|n IH]; intros s i j Hi Hj; [lia|].
  simpl. destruct i as [|i].
  - rewrite nth_error_app1 by (rewrite Hlen; lia). now rewrite Nat.add_0_r.
  - rewrite nth_error_app2 by (rewrite Hlen; lia).
    rewrite Hlen. replace (S i * m + j - m) with (i * m + j) by lia.
    rewrite IH by lia. f_equal. f_equal. lia.
Qed.

Lemma length_blocks {A} (f : nat -> list A) m l :
  (forall i, List.length (f i) = m) -> List.length (flat_map f l) = List.length l * m.
Proof.
  intros H. induction l as [|x l IH]; simpl; auto.
  now rewrite length_app, H, IH.
Qed.

(** Element [(i, j, k)] of the transpose is element [(k, i, j)] of the
    array. *)
Lemma transpose_elems u c h w i j k :
  shape u = [c; h; w] -> buf_length (buf u) = c * h * w ->
  i < h -> j < w -> k < c ->
  nth_error (elems (buf (transpose_1_2_0 u))) ((i * w + j) * c + k)
  = nth_error (elems (buf u)) (k * (h * w) + i * w + j).
Proof.
  intros Hs Hlen Hi Hj Hk. unfold transpose_1_2_0. rewrite Hs. cbn [buf].
  rewrite elems_gather.
  assert (Hl : List.length (elems (buf u)) = c * h * w).
  { rewrite <- Hlen. destruct (buf u); simpl; apply length_map. }
  apply nth_error_gather.
  - rewrite Hl. apply Forall_forall. intros q Hq.
    apply in_flat_map in Hq. destruct Hq as (i' & Hi' & Hq).
    apply in_flat_map in Hq. destruct Hq as (j' & Hj' & Hq).
    apply in_map_iff in Hq. destruct Hq as (k' & <- & Hk').
    apply in_seq in Hi', Hj', Hk'.
    assert (B1 : i' * w + j' < h * w) by nia.
    assert (B2 : k' * (h * w) + h * w <= c * (h * w)) by nia.
    rewrite <- Nat.mul_assoc. lia.
  - replace ((i * w + j) * c + k) with (i * (w * c) + (j * c + k)) by lia.
    rewrite (nth_error_blocks _ (w * c)).
    + rewrite (nth_error_blocks _ c); try lia.
      * rewrite nth_error_map, nth_error_seq.
        destruct (Nat.ltb_spec k c); [|lia]. reflexivity.
      * intros. now rewrite length_map, length_seq.
    + intros i'. rewrite (length_blocks _ c), length_seq; auto.
      intros. now rewrite length_map, length_seq.
    + lia.
    + nia.
Qed.

(** Dropping a last axis of size one keeps every element in place. *)
Lemma index_last_0_elems u a b :
  shape u = [a; b; 1] -> buf_length (buf u) = a * b * 1 ->
  elems (buf (index_last_0 u)) = elems (buf u).
Proof.
  intros Hs Hlen. unfold index_last_0. rewrite Hs. cbn [buf].
  rewrite elems_gather.
  assert (Hl : List.length (elems (buf u)) = a * b).
  { rewrite <- (Nat.mul_1_r (a * b)), <- Hlen.
    destruct (buf u); simpl; apply length_map. }
  rewrite <- Hl. generalize (elems (buf u)). clear. intros l.
  rewrite (map_ext _ (fun p => p) (fun p => Nat.mul_1_r p)), map_id.
  assert (G : forall pre, gather (seq (List.length pre) (List.length l)) (pre ++ l)%list = l).
  { induction l as [|x l IH]; intros pre; auto.
    cbn [List.length seq]. unfold gather in *. cbn [flat_map].
    rewrite nth_error_app2, Nat.sub_diag by lia. cbn [nth_error app]. f_equal.
    specialize (IH (pre ++ [x])%list). rewrite length_app, <- app_assoc in IH.
    simpl in IH. now rewrite Nat.add_1_r in IH. }
  apply (G []).
Qed.

Lemma to_uint8_length img u :
  to_uint8 img = Ok u -> buf_length (buf u) = buf_length (buf img).
Proof.
  unfold _to_uint8. destruct img as [sh b]. cbn [buf shape].
  destruct b as [d vs|f vs|vs]; cbn [rbind clip_astype_uint8 buf shape].
  - intros H. inversion H. cbn [buf buf_length]. apply length_map.
  - destruct (nanmax vs) as [m|e]; cbn [rbind]; [|discriminate].
    destruct (SFleb m (of_Z f 1)); cbn [rbind clip_astype_uint8 buf shape];
      intros H; inversion H; cbn [buf buf_length]; now rewrite ?length_map.
  - discriminate.
Qed.

Lemma length_elems b : List.length (elems b) = buf_length b.
Proof. destruct b; simpl; apply length_map. Qed.

Lemma length_gather {A} (idx : list nat) (l : list A) :
  Forall (fun i => i < List.length l) idx ->
  List.length (gather idx l) = List.length idx.
Proof.
  unfold gather. induction idx as [|i idx IH]; intros H; [reflexivity|].
  inversion H as [|? ? Hi Hrest]; subst. cbn [flat_map].
  apply nth_error_Some in Hi. destruct (nth_error l i); [|congruence].
  rewrite length_app, (IH Hrest). reflexivity.
Qed.

(** The transpose has as many elements as the array. *)
Lemma transpose_length u c h w :
  shape u = [c; h; w] -> buf_length (buf u) = c * h * w ->
  List.length (elems (buf (transpose_1_2_0 u))) = h * w * c.
Proof.
  intros Hs Hlen. unfold transpose_1_2_0. rewrite Hs. cbn [buf].
  rewrite elems_gather, length_gather.
  - rewrite (length_blocks _ (w * c)), length_seq; [lia|].
    intros i. rewrite (length_blocks _ c), length_seq; auto.
    intros. now rewrite length_map, length_seq.
  - rewrite length_elems, Hlen. apply Forall_forall. intros q Hq.
    apply in_flat_map in Hq. destruct Hq as (i' & Hi' & Hq).
    apply in_flat_map in Hq. destruct Hq as (j' & Hj' & Hq).
    apply in_map_iff in Hq. destruct Hq as (k' & <- & Hk').
    apply in_seq in Hi', Hj', Hk'.
    assert (B1 : i' * w + j' < h * w) by nia.
    assert (B2 : k' * (h * w) + h * w <= c * (h * w)) by nia.
    rewrite <- Nat.mul_assoc. lia.
Qed.

(** *** Claim C2 *)

(** C2. After the conversion to [uint8], [_save_jpg] hands on, for an array
    of shape (a, b, 1), a 2-dimensional array of shape (a, b) that holds the
    same elements in the same order; for an array of shape (c, h, w) with c
    in {1, 3, 4}, h > 32 and w > 32, an array of shape (h, w, c) that has as
    many elements and whose element (i, j, k) is element (k, i, j) of the
    converted array.  So (3, 64, 64) becomes (64, 64, 3), channel last, and
    (3, 16, 16) is handed on as it is.  (The elements are those of an array
    whose buffer holds one value per position.) *)
Theorem save_jpg_shape_correction (img u : ndarray)
  (Hu : to_uint8 img = Ok u) :
  (forall a b, shape img = [a; b; 1] ->
     exists x, jpg_array' img = Ok x /\ shape x = [a; b] /\ ndim x = 2
       /\ (buf_length (buf img) = a * b * 1 -> elems (buf x) = elems (buf u)))
  /\
  (forall c h w, shape img = [c; h; w] -> In c [1; 3; 4] -> 32 < h -> 32 < w ->
     exists x, jpg_array' img = Ok x /\ shape x = [h; w; c]
       /\ (buf_length (buf img) = c * h * w ->
           List.length (elems (buf x)) = h * w * c
           /\ forall i j k, i < h -> j < w -> k < c ->
                nth_error (elems (buf x)) ((i * w + j) * c + k)
                = nth_error (elems (buf u)) (k * (h * w) + i * w + j)))
  /\
  (shape img = [3; 64; 64] ->
     exists x, jpg_array' img = Ok x /\ shape x = [64; 64; 3]
       /\ (buf_length (buf img) = 3 * 64 * 64 ->
           List.length (elems (buf x)) = 64 * 64 * 3
           /\ forall i j k, i < 64 -> j < 64 -> k < 3 ->
                nth_error (elems (buf x)) ((i * 64 + j) * 3 + k)
                = nth_error (elems (buf u)) (k * (64 * 64) + i * 64 + j)))
  /\
  (shape img = [3; 16; 16] -> jpg_array' img = Ok u /\ shape u = [3; 16; 16]).
Proof.
  pose proof (to_uint8_shape img u Hu) as Hs.
  pose proof (to_uint8_length img u Hu) as Hl.
  rewrite (jpg_array_eq img u Hu).
  assert (T : forall c h w, shape img = [c; h; w] -> In c [1; 3; 4] -> 32 < h -> 32 < w ->
     exists x,
       Ok (let x := if is_hw1 (shape u) then index_last_0 u else u in
           if is_chw (shape x) then transpose_1_2_0 x else x) = Ok x
       /\ shape x = [h; w; c]
       /\ (buf_length (buf img) = c * h * w ->
           List.length (elems (buf x)) = h * w * c
           /\ forall i j k, i < h -> j < w -> k < c ->
                nth_error (elems (buf x)) ((i * w + j) * c + k)
                = nth_error (elems (buf u)) (k * (h * w) + i * w + j))).
  { intros c h w H Hc Hh Hw. rewrite H in Hs.
    destruct (is_chw_true c h w Hc Hh Hw) as [E1 E2].
    exists (transpose_1_2_0 u). cbv zeta. rewrite Hs, E2, Hs, E1.
    split; [reflexivity|]. split; [now apply transpose_shape|].
    intros Hfull. rewrite <- Hl in Hfull. split.
    - now apply transpose_length.
    - intros i j k Hi Hj Hk. now apply transpose_elems. }
  split; [|split; [exact T|split]].
  - intros a b H. rewrite H in Hs. exists (index_last_0 u). cbv zeta. rewrite Hs.
    change (is_hw1 [a; b; 1]) with true. cbv iota.
    rewrite (index_last_0_shape u a b 1 Hs).
    change (is_chw [a; b]) with false. cbv iota.
    split; [reflexivity|]. split; [reflexivity|].
    split; [unfold ndim; now rewrite (index_last_0_shape u a b 1 Hs)|].
    intros Hfull. rewrite <- Hl in Hfull. now apply (index_last_0_elems u a b).
  - intros H. apply (T 3 64 64 H); simpl; auto; lia.
  - intros H. rewrite H in Hs. cbv zeta. rewrite Hs.
    change (is_hw1 [3; 16; 16]) with false. cbv iota. rewrite Hs.
    split; reflexivity.
Qed.

(** *** Claim C10 *)

(** C10. An array of shape (1, h, w) with h > 32 and w > 32 fails the
    last-axis test (w is not 1), passes the channel-first test, and reaches
    the encoder transposed, with the 3-dimensional shape (h, w, 1): it is
    not reduced to a 2-dimensional (h, w) array. *)
Theorem save_jpg_keeps_singleton_channel (img u : ndarray) (h w : nat)
  (Hu : to_uint8 img = Ok u)
  (Hshape : shape img = [1; h; w]) (Hh : 32 < h) (Hw : 32 < w) :
  jpg_array' img = Ok (transpose_1_2_0 u)
  /\ shape (transpose_1_2_0 u) = [h; w; 1]
  /\ ndim (transpose_1_2_0 u) = 3
  /\ shape (transpose_1_2_0 u) <> [h; w].
Proof.
  pose proof (to_uint8_shape img u Hu) as Hs. rewrite Hshape in Hs.
  rewrite (jpg_array_eq img u Hu).
  destruct (is_chw_true 1 h w (or_introl eq_refl) Hh Hw) as [E1 E2].
  cbv zeta. rewrite Hs, E2, Hs, E1.
  pose proof (transpose_shape u 1 h w Hs) as Ht.
  unfold ndim. rewrite Ht. repeat split; auto. discriminate.
Qed.

End SaveJpg.

(** ** Text *)

Section Text.

Local Open Scope nat_scope.

Lemma str_app_assoc (s t u : string) : ((s ++ t) ++ u = s ++ t ++ u)%string.
Proof. induction s; simpl; congruence. Qed.

Lemma str_app_nil_r (s : string) : (s ++ EmptyString = s)%string.
Proof. induction s; simpl; congruence. Qed.

Lemma str_length_app s t : String.length (s ++ t) = String.length s + String.length t.
Proof. induction s; simpl; auto. Qed.

Lemma str_app_inv_l s t u : (s ++ t = s ++ u)%string -> t = u.
Proof. induction s; simpl; intros H; auto. inversion H. auto. Qed.

Lemma str_app_inv_len s1 : forall s2 t1 t2,
  (s1 ++ t1 = s2 ++ t2)%string -> String.length t1 = String.length t2 ->
  s1 = s2 /\ t1 = t2.
Proof.
  induction s1 as [|c s1 IH]; intros [|d s2] t1 t2 H L; simpl in *; auto.
  - apply (f_equal String.length) in H. simpl in H. rewrite str_length_app in H. lia.
  - apply (f_equal String.length) in H. simpl in H. rewrite str_length_app in H. lia.
  - inversion H; subst. destruct (IH s2 t1 t2 H2 L). subst. auto.
Qed.

Lemma substring_0_app s t : substring 0 (String.length s) (s ++ t) = s.
Proof.
  induction s as [|c s IH]; simpl.
  - now destruct t.
  - now rewrite IH.
Qed.

Lemma substring_all s : substring 0 (String.length s) s = s.
Proof. induction s; simpl; congruence. Qed.

Lemma substring_skip s t m : substring (String.length s) m (s ++ t) = substring 0 m t.
Proof. induction s; simpl; auto. Qed.

(** A text is its first [k] characters followed by the rest. *)
Lemma substring_split s : forall k,
  k <= String.length s ->
  s = (substring 0 k s ++ substring k (String.length s - k) s)%string.
Proof.
  induction s as [|c s IH]; intros [|k] H; simpl in *; try lia; auto.
  - now rewrite substring_all.
  - f_equal. apply IH. lia.
Qed.

Lemma length_substring s : forall k m,
  k + m <= String.length s -> String.length (substring k m s) = m.
Proof.
  induction s as [|c s IH]; intros [|k] [|m] H; simpl in *; try lia; auto.
  - rewrite (IH 0 m); auto. lia.
  - apply (IH k 0). lia.
  - apply (IH k (S m)). lia.
Qed.

End Text.

(** ** UTF-8 *)

Section Utf8.

Local Open Scope N_scope.

Lemma continuation_some a x : continuation a = Some x -> 128 <= byte a /\ x < 64.
Proof.
  unfold continuation. destruct ((128 <=? byte a) && (byte a <? 192)) eqn:E; [|discriminate].
  apply andb_prop in E. destruct E as [E1 E2].
  apply N.leb_le in E1. apply N.ltb_lt in E2. intros H. inversion H. lia.
Qed.

Lemma continuation_ascii a : byte a < 128 -> continuation a = None.
Proof.
  intros H. destruct (continuation a) eqn:E; auto.
  apply continuation_some in E. lia.
Qed.

(** A decoded character is made of the first bytes of the text, and of them
    only; an ASCII byte is a character of its own. *)
Lemma decode1_split s c r :
  decode1 s = Some (c, r) ->
  exists a d,
    s = (String a d ++ r)%string
    /\ (forall t, decode1 (String a d ++ t) = Some (c, t))
    /\ ((byte a < 128 /\ d = EmptyString /\ c = byte a) \/ (128 <= byte a /\ 128 <= c)).
Proof.
  destruct s as [|a s]; [discriminate|].
  unfold decode1. intros H.
  destruct (byte a <? 128) eqn:E0.
  { inversion H; subst. exists a, EmptyString. split; [reflexivity|]. split.
    - intros t. cbn [append]. now rewrite E0.
    - left. apply N.ltb_lt in E0. auto. }
  apply N.ltb_ge in E0.
  destruct (byte a <? 194) eqn:E1; [discriminate|].
  destruct (byte a <? 224) eqn:E2.
  { destruct s as [|a1 r1]; [discriminate|].
    destruct (continuation a1) as [x1|] eqn:C1; [|discriminate].
    inversion H; subst. exists a, (String a1 EmptyString).
    split; [reflexivity|]. split.
    - intros t. cbn [append]. apply N.ltb_ge in E0. now rewrite E0, E1, E2, C1.
    - right. apply N.ltb_ge in E1. lia. }
  destruct (byte a <? 240) eqn:E3.
  { destruct s as [|a1 [|a2 r2]]; try discriminate.
    destruct (continuation a1) as [x1|] eqn:C1; [|discriminate].
    destruct (continuation a2) as [x2|] eqn:C2; [|discriminate].
    cbv zeta in H.
    match type of H with
    | (if ?b then _ else _) = _ => destruct b eqn:V; [|discriminate]
    end.
    inversion H; subst. exists a, (String a1 (String a2 EmptyString)).
    split; [reflexivity|]. split.
    - intros t. cbn [append]. apply N.ltb_ge in E0.
      rewrite E0, E1, E2, E3, C1, C2. cbv zeta. now rewrite V.
    - right. apply andb_prop in V. destruct V as [V _]. apply N.leb_le in V. lia. }
  destruct (byte a <? 245) eqn:E4; [|discriminate].
  destruct s as [|a1 [|a2 [|a3 r3]]]; try discriminate.
  destruct (continuation a1) as [x1|] eqn:C1; [|discriminate].
  destruct (continuation a2) as [x2|] eqn:C2; [|discriminate].
  destruct (continuation a3) as [x3|] eqn:C3; [|discriminate].
  cbv zeta in H.
  match type of H with
  | (if ?b then _ else _) = _ => destruct b eqn:V; [|discriminate]
  end.
  inversion H; subst. exists a, (String a1 (String a2 (String a3 EmptyString))).
  split; [reflexivity|]. split.
  - intros t. cbn [append]. apply N.ltb_ge in E0.
    rewrite E0, E1, E2, E3, E4, C1, C2, C3. cbv zeta. now rewrite V.
  - right. apply andb_prop in V. destruct V as [V _]. apply N.leb_le in V. lia.
Qed.

End Utf8.

Section Utf8Bytes.

Local Open Scope N_scope.

Lemma byte_lt_256 a : byte a < 256.
Proof. apply N_ascii_bounded. Qed.

Lemma chr_byte a : chr (byte a) = String a EmptyString.
Proof. unfold chr, byte. now rewrite ascii_N_embedding. Qed.

Lemma div_mod_64 q x : x < 64 -> (q * 64 + x) / 64 = q /\ (q * 64 + x) mod 64 = x.
Proof.
  intros H. split.
  - symmetry. apply N.div_unique with x; lia.
  - symmetry. apply N.mod_unique with q; lia.
Qed.

(** The bytes of a decoded character are its UTF-8 encoding. *)
Lemma decode1_encode s c r : decode1 s = Some (c, r) -> s = (encode1 c ++ r)%string.
Proof.
  destruct s as [|a s]; [discriminate|].
  unfold decode1. intros H. pose proof (byte_lt_256 a) as Ba.
  destruct (byte a <? 128) eqn:E0.
  { inversion H; subst. unfold encode1.
    apply N.ltb_lt in E0. replace (byte a <? 0x80) with true by (symmetry; now apply N.ltb_lt).
    now rewrite chr_byte. }
  apply N.ltb_ge in E0.
  destruct (byte a <? 194) eqn:E1; [discriminate|]. apply N.ltb_ge in E1.
  destruct (byte a <? 224) eqn:E2.
  { apply N.ltb_lt in E2.
    destruct s as [|a1 r1]; [discriminate|].
    destruct (continuation a1) as [x1|] eqn:C1; [|discriminate].
    inversion H; subst; clear H.
    pose proof (continuation_some _ _ C1) as [B1 X1].
    unfold continuation in C1. destruct (_ && _) in C1; [|discriminate]. inversion C1 as [C].
    destruct (div_mod_64 (byte a - 192) (byte a1 - 128)) as [D M]; [lia|].
    unfold encode1.
    replace (_ <? 0x80) with false by (symmetry; apply N.ltb_ge; lia).
    replace (_ <? 0x800) with true by (symmetry; apply N.ltb_lt; lia).
    rewrite D, M.
    replace (192 + (byte a - 192)) with (byte a) by lia.
    replace (128 + (byte a1 - 128)) with (byte a1) by lia.
    now rewrite !chr_byte. }
  apply N.ltb_ge in E2.
  destruct (byte a <? 240) eqn:E3.
  { apply N.ltb_lt in E3.
    destruct s as [|a1 [|a2 r2]]; try discriminate.
    destruct (continuation a1) as [x1|] eqn:C1; [|discriminate].
    destruct (continuation a2) as [x2|] eqn:C2; [|discriminate].
    cbv zeta in H.
    match type of H with
    | (if ?b then _ else _) = _ => destruct b eqn:V; [|discriminate]
    end.
    inversion H; subst; clear H.
    pose proof (continuation_some _ _ C1) as [B1 X1].
    pose proof (continuation_some _ _ C2) as [B2 X2].
    unfold continuation in C1, C2.
    destruct (_ && _) in C1; [|discriminate]. inversion C1 as [C1'].
    destruct (_ && _) in C2; [|discriminate]. inversion C2 as [C2'].
    apply andb_prop in V. destruct V as [V1 V2].
    apply N.leb_le in V1. apply negb_true_iff, andb_false_iff in V2.
    set (q := (byte a - 224) * 64 + (byte a1 - 128)) in *.
    destruct (div_mod_64 q (byte a2 - 128)) as [D M]; [lia|].
    destruct (div_mod_64 (byte a - 224) (byte a1 - 128)) as [D' M']; [lia|].
    fold q in D', M'.
    assert (D2 : (q * 64 + (byte a2 - 128)) / 4096 = byte a - 224).
    { change 4096 with (64 * 64). rewrite <- N.Div0.div_div. now rewrite D, D'. }
    unfold encode1.
    replace (_ <? 0x80) with false by (symmetry; apply N.ltb_ge; lia).
    replace (_ <? 0x800) with false by (symmetry; apply N.ltb_ge; lia).
    replace ((0xdc80 <=? _) && _) with false.
    2:{ symmetry. apply andb_false_iff.
        destruct V2 as [V2|V2]; [left|right]; apply N.leb_gt in V2; apply N.leb_gt; lia. }
    replace (_ <? 0x10000) with true by (symmetry; apply N.ltb_lt; unfold q; lia).
    rewrite D2, D, M, M'.
    replace (224 + (byte a - 224)) with (byte a) by lia.
    replace (128 + (byte a1 - 128)) with (byte a1) by lia.
    replace (128 + (byte a2 - 128)) with (byte a2) by lia.
    now rewrite !chr_byte. }
  apply N.ltb_ge in E3.
  destruct (byte a <? 245) eqn:E4; [|discriminate]. apply N.ltb_lt in E4.
  destruct s as [|a1 [|a2 [|a3 r3]]]; try discriminate.
  destruct (continuation a1) as [x1|] eqn:C1; [|discriminate].
  destruct (continuation a2) as [x2|] eqn:C2; [|discriminate].
  destruct (continuation a3) as [x3|] eqn:C3; [|discriminate].
  cbv zeta in H.
  match type of H with
  | (if ?b then _ else _) = _ => destruct b eqn:V; [|discriminate]
  end.
  inversion H; subst; clear H.
  pose proof (continuation_some _ _ C1) as [B1 X1].
  pose proof (continuation_some _ _ C2) as [B2 X2].
  pose proof (continuation_some _ _ C3) as [B3 X3].
  unfold continuation in C1, C2, C3.
  destruct (_ && _) in C1; [|discriminate]. inversion C1 as [C1'].
  destruct (_ && _) in C2; [|discriminate]. inversion C2 as [C2'].
  destruct (_ && _) in C3; [|discriminate]. inversion C3 as [C3'].
  apply andb_prop in V. destruct V as [V1 V2].
  apply N.leb_le in V1, V2.
  set (q1 := (byte a - 240) * 64 + (byte a1 - 128)) in *.
  set (q2 := q1 * 64 + (byte a2 - 128)) in *.
  destruct (div_mod_64 q2 (byte a3 - 128)) as [D M]; [lia|].
  destruct (div_mod_64 q1 (byte a2 - 128)) as [D' M']; [lia|].
  destruct (div_mod_64 (byte a - 240) (byte a1 - 128)) as [D'' M'']; [lia|].
  fold q1 in D'', M''. fold q2 in D', M'.
  assert (D2 : (q2 * 64 + (byte a3 - 128)) / 4096 = q1).
  { change 4096 with (64 * 64). rewrite <- N.Div0.div_div. now rewrite D, D'. }
  assert (D3 : (q2 * 64 + (byte a3 - 128)) / 262144 = byte a - 240).
  { change 262144 with (4096 * 64). rewrite <- N.Div0.div_div. now rewrite D2, D''. }
  unfold encode1.
  replace (_ <? 0x80) with false by (symmetry; apply N.ltb_ge; lia).
  replace (_ <? 0x800) with false by (symmetry; apply N.ltb_ge; lia).
  replace ((0xdc80 <=? _) && _) with false.
  2:{ symmetry. apply andb_false_iff. right. apply N.leb_gt. lia. }
  replace (_ <? 0x10000) with false by (symmetry; apply N.ltb_ge; lia).
  rewrite D3, D2, D, M, M', M''.
  replace (240 + (byte a - 240)) with (byte a) by lia.
  replace (128 + (byte a1 - 128)) with (byte a1) by lia.
  replace (128 + (byte a2 - 128)) with (byte a2) by lia.
  replace (128 + (byte a3 - 128)) with (byte a3) by lia.
  now rewrite !chr_byte.
Qed.

(** Before an ASCII byte, the first character of a text lies within it. *)
Lemma decode1_app_ascii s c0 t c r' :
  s <> EmptyString -> byte c0 < 128 ->
  decode1 (s ++ String c0 t) = Some (c, r') ->
  exists r, decode1 s = Some (c, r) /\ r' = (r ++ String c0 t)%string.
Proof.
  intros Hs Hc H. apply continuation_ascii in Hc.
  destruct s as [|a s]; [contradiction|]. cbn [append] in H.
  unfold decode1 in *.
  destruct (byte a <? 128); [inversion H; subst; eauto|].
  destruct (byte a <? 194); [discriminate|].
  destruct (byte a <? 224).
  { destruct s as [|a1 r1]; cbn [append] in H.
    - now rewrite Hc in H.
    - destruct (continuation a1); [|discriminate]. inversion H; subst; eauto. }
  destruct (byte a <? 240).
  { destruct s as [|a1 [|a2 r2]]; cbn [append] in H.
    - destruct t; [discriminate|]. now rewrite Hc in H.
    - rewrite Hc in H. now destruct (continuation a1).
    - destruct (continuation a1); [|discriminate].
      destruct (continuation a2); [|discriminate]. cbv zeta in *.
      match type of H with
      | (if ?b then _ else _) = _ => destruct b; [|discriminate]
      end.
      inversion H; subst; eauto. }
  destruct (byte a <? 245); [|discriminate].
  destruct s as [|a1 [|a2 [|a3 r3]]]; cbn [append] in H.
  - destruct t as [|? [|? ?]]; try discriminate. now rewrite Hc in H.
  - destruct t; [discriminate|]. rewrite Hc in H. now destruct (continuation a1).
  - rewrite Hc in H. destruct (continuation a1); [|discriminate].
    now destruct (continuation a2).
  - destruct (continuation a1); [|discriminate].
    destruct (continuation a2); [|discriminate].
    destruct (continuation a3); [|discriminate]. cbv zeta in *.
    match type of H with
    | (if ?b then _ else _) = _ => destruct b; [|discriminate]
    end.
    inversion H; subst; eauto.
Qed.

End Utf8Bytes.

Section Decoding.

Local Open Scope nat_scope.

Lemma decode1_length s c r : decode1 s = Some (c, r) -> String.length r < String.length s.
Proof.
  intros H. destruct (decode1_split s c r H) as (a & d & -> & _).
  cbn [append String.length]. rewrite str_length_app. lia.
Qed.

Lemma next_length s c r : next s = Some (c, r) -> String.length r < String.length s.
Proof.
  unfold next. destruct (decode1 s) as [[c' r']|] eqn:E.
  - intros H. inversion H; subst. eapply decode1_length; eauto.
  - destruct s; [discriminate|]. intros H. inversion H; subst. simpl. lia.
Qed.

Lemma decode_fuel_eq f1 : forall f2 s,
  String.length s <= f1 -> String.length s <= f2 -> decode_fuel f1 s = decode_fuel f2 s.
Proof.
  induction f1 as [|f1 IH]; intros f2 s H1 H2.
  - destruct s; [|simpl in H1; lia]. now destruct f2.
  - destruct f2 as [|f2].
    + destruct s; [reflexivity|simpl in H2; lia].
    + cbn [decode_fuel]. destruct (next s) as [[c r]|] eqn:E; auto.
      apply next_length in E. f_equal. apply IH; lia.
Qed.

Lemma decode_fuel_enough fuel s :
  String.length s <= fuel -> decode_fuel fuel s = decode s.
Proof. intros H. apply decode_fuel_eq; auto. Qed.

Lemma decode_next s c r : next s = Some (c, r) -> decode s = c :: decode r.
Proof.
  intros H. pose proof (next_length _ _ _ H) as L.
  unfold decode at 1. destruct s as [|a s]; [discriminate|].
  cbn [String.length decode_fuel]. rewrite H. f_equal.
  apply decode_fuel_enough. cbn [String.length] in L. lia.
Qed.

Lemma next_some s : s <> EmptyString -> exists c r, next s = Some (c, r).
Proof.
  intros H. unfold next. destruct (decode1 s) as [[c r]|]; eauto.
  destruct s; [contradiction|eauto].
Qed.

End Decoding.

Section Digits.

Local Open Scope nat_scope.

Lemma isdecimal_range c :
  Unicode.isdecimal c = true ->
  ((48 <= c < 58) \/ (0x660 <= c < 0xd800) \/ 0xe000 <= c)%N.
Proof.
  unfold Unicode.isdecimal. rewrite existsb_exists. intros (z & Hz & Hc).
  apply andb_prop in Hc. destruct Hc as [H1 H2].
  apply N.leb_le in H1. apply N.ltb_lt in H2.
  unfold Unicode.decimal_zeros in Hz.
  repeat (destruct Hz as [<-|Hz]; [lia|]). destruct Hz.
Qed.

Lemma digit_decode1 s r :
  digit s = Some r <-> exists c, decode1 s = Some (c, r) /\ Unicode.isdecimal c = true.
Proof.
  unfold digit. destruct (decode1 s) as [[c r']|].
  - destruct (Unicode.isdecimal c) eqn:E; split.
    + intros H. inversion H; subst. eauto.
    + intros (c' & H & _). inversion H; subst. reflexivity.
    + discriminate.
    + intros (c' & H & Hd). inversion H; subst. congruence.
  - split; [discriminate|]. intros (c & H & _). discriminate.
Qed.

Lemma digit_length s r : digit s = Some r -> String.length r < String.length s.
Proof.
  intros H. apply digit_decode1 in H. destruct H as (c & H & _).
  eapply decode1_length; eauto.
Qed.

(** A digit begins with an ASCII digit or with a byte that is not ASCII. *)
Lemma digit_head a s r :
  digit (String a s) = Some r -> (48 <= byte a < 58 \/ 128 <= byte a)%N.
Proof.
  intros H. apply digit_decode1 in H. destruct H as (c & H & Hd).
  destruct (decode1_split _ _ _ H) as (a' & d & E & _ & Hc).
  cbn [append] in E. inversion E; subst a'.
  destruct Hc as [(Ha & _ & ->)|[Ha _]]; [|lia].
  apply isdecimal_range in Hd. lia.
Qed.

Lemma digit_app s r t : digit s = Some r -> digit (s ++ t) = Some (r ++ t)%string.
Proof.
  intros H. apply digit_decode1 in H. destruct H as (c & H & Hd).
  destruct (decode1_split _ _ _ H) as (a & d & -> & Ht & _).
  apply digit_decode1. exists c. split; auto.
  rewrite str_app_assoc. apply Ht.
Qed.

Lemma digit_app_ascii s c0 t r' :
  s <> EmptyString -> (byte c0 < 128)%N ->
  digit (s ++ String c0 t) = Some r' ->
  exists r, digit s = Some r /\ r' = (r ++ String c0 t)%string.
Proof.
  intros Hs Hc H. apply digit_decode1 in H. destruct H as (c & H & Hd).
  destruct (decode1_app_ascii _ _ _ _ _ Hs Hc H) as (r & Hr & ->).
  exists r. split; auto. apply digit_decode1. eauto.
Qed.

Lemma next_digit s c r :
  next s = Some (c, r) -> Unicode.isdecimal c = true -> digit s = Some r.
Proof.
  unfold next. intros H Hd. apply digit_decode1.
  destruct (decode1 s) as [[c' r']|] eqn:E.
  - inversion H; subst. eauto.
  - destruct s as [|a s]; [discriminate|].
    remember (0xdc00 + byte a)%N as k eqn:Hk. inversion H; subst c r.
    apply isdecimal_range in Hd. pose proof (byte_lt_256 a). lia.
Qed.

Lemma digit_next s r :
  digit s = Some r -> exists c, next s = Some (c, r) /\ Unicode.isdecimal c = true.
Proof.
  intros H. apply digit_decode1 in H. destruct H as (c & H & Hd).
  exists c. unfold next. now rewrite H.
Qed.

(** [all_digits] tells the runs of digits. *)
Lemma all_digits_digits s : all_digits s = true <-> digits s.
Proof.
  split.
  - remember (String.length s) as n eqn:Hn. revert s Hn.
    induction n as [n IH] using lt_wf_ind. intros s Hn Ha.
    destruct s as [|a s]; [constructor|].
    destruct (next_some (String a s)) as (c & r & E); [discriminate|].
    unfold all_digits in Ha. rewrite (decode_next _ _ _ E) in Ha.
    cbn [forallb] in Ha. apply andb_prop in Ha. destruct Ha as [Hc Hr].
    pose proof (next_length _ _ _ E) as L.
    apply digits_cons with r; [eapply next_digit; eauto|].
    apply (IH (String.length r)); auto. lia.
  - induction 1 as [|s r Hd Hr IH]; [reflexivity|].
    destruct (digit_next _ _ Hd) as (c & E & Hc).
    unfold all_digits. rewrite (decode_next _ _ _ E). cbn [forallb].
    rewrite Hc. exact IH.
Qed.

Lemma digits_split s r : digit s = Some r -> exists d, s = (d ++ r)%string /\ forall t, digit (d ++ t) = Some t.
Proof.
  intros H. apply digit_decode1 in H. destruct H as (c & H & Hd).
  destruct (decode1_split _ _ _ H) as (a & d & -> & Ht & _).
  exists (String a d). split; auto. intros t. apply digit_decode1. eauto.
Qed.

Lemma digits_app ds : digits ds -> forall es, digits es -> digits (ds ++ es).
Proof.
  induction 1 as [|s r Hd Hr IH]; intros es He; auto.
  apply digits_cons with (r ++ es)%string; auto. now apply digit_app.
Qed.

(** What [\d+] takes: the longest run of digits. *)
Lemma skip_digits_spec fuel : forall s,
  String.length s <= fuel ->
  exists ds, s = (ds ++ skip_digits fuel s)%string /\ digits ds
             /\ digit (skip_digits fuel s) = None.
Proof.
  induction fuel as [|fuel IH]; intros s Hl.
  - destruct s; [|simpl in Hl; lia]. exists EmptyString. repeat split; constructor.
  - cbn [skip_digits]. destruct (digit s) as [r|] eqn:E.
    + pose proof (digit_length _ _ E) as L.
      destruct (IH r) as (ds & Hr & Hd & Hn); [lia|].
      destruct (digits_split _ _ E) as (d & Hs & Ht).
      exists (d ++ ds)%string. split; [|split; auto].
      * rewrite str_app_assoc, <- Hr. exact Hs.
      * apply digits_cons with ds; auto.
    + exists EmptyString. repeat split; auto. constructor.
Qed.

Lemma skip_digits_intro ds : digits ds -> forall fuel tl,
  digit tl = None -> String.length (ds ++ tl) <= fuel ->
  skip_digits fuel (ds ++ tl) = tl.
Proof.
  induction 1 as [|s r Hd Hr IH]; intros fuel tl Ht Hl.
  - cbn [append]. destruct fuel; auto. cbn [skip_digits]. now rewrite Ht.
  - pose proof (digit_length _ _ Hd) as L.
    destruct fuel as [|fuel]; [rewrite str_length_app in Hl; lia|].
    cbn [skip_digits]. rewrite (digit_app _ _ tl Hd).
    apply IH; auto. rewrite str_length_app in *. lia.
Qed.

End Digits.

(** ** The two cases of an ASCII letter *)

Section AsciiCase.

Local Open Scope nat_scope.

Lemma nat_of_lower_ascii c :
  nat_of_ascii (lower_ascii c) =
  if is_upper c then nat_of_ascii c + 32 else nat_of_ascii c.
Proof.
  unfold lower_ascii, is_upper.
  destruct ((65 <=? nat_of_ascii c) && (nat_of_ascii c <=? 90)) eqn:E; auto.
  apply andb_prop in E. destruct E as [E1 E2].
  apply Nat.leb_le in E1, E2. apply nat_ascii_embedding. lia.
Qed.

Lemma nat_of_ascii_inj a b : nat_of_ascii a = nat_of_ascii b -> a = b.
Proof.
  intros H. rewrite <- (ascii_nat_embedding a), <- (ascii_nat_embedding b).
  now rewrite H.
Qed.

Lemma lower_ascii_ci a b : lower_ascii a = lower_ascii b <-> ci_char a b.
Proof.
  unfold ci_char. split.
  - intros H. apply (f_equal nat_of_ascii) in H.
    rewrite !nat_of_lower_ascii in H.
    destruct (is_upper a) eqn:Ea, (is_upper b) eqn:Eb.
    + left. apply nat_of_ascii_inj. lia.
    + right; left. split; auto.
    + right; right. split; auto.
    + left. now apply nat_of_ascii_inj.
  - intros H. apply nat_of_ascii_inj. rewrite !nat_of_lower_ascii.
    destruct H as [->|[[Ha Hb]|[Hb Ha]]]; auto.
    + rewrite Ha. destruct (is_upper b) eqn:Eb; auto.
      unfold is_upper in Ha, Eb. apply andb_prop in Ha, Eb.
      destruct Ha as [H1 H2], Eb as [H3 H4]. apply Nat.leb_le in H1, H2, H3, H4. lia.
    + rewrite Hb. destruct (is_upper a) eqn:Ea; auto.
      unfold is_upper in Hb, Ea. apply andb_prop in Hb, Ea.
      destruct Hb as [H1 H2], Ea as [H3 H4]. apply Nat.leb_le in H1, H2, H3, H4. lia.
Qed.

End AsciiCase.

(** ** The regular expression and [str.lower] *)

Section Regex.

Local Open Scope nat_scope.

Lemma byte_nat a : byte a = N.of_nat (nat_of_ascii a).
Proof. unfold byte, nat_of_ascii. now rewrite N2Nat.id. Qed.

Lemma ci_char_sym a b : ci_char a b -> ci_char b a.
Proof. unfold ci_char. intuition auto. Qed.

Lemma ci_char_ascii a b : ci_char a b -> (byte a < 128)%N -> (byte b < 128)%N.
Proof.
  rewrite !byte_nat. intros [->|[[H1 H2]|[H1 H2]]] Ha; auto.
  - unfold is_upper in H1. apply andb_prop in H1. destruct H1 as [_ H1].
    apply Nat.leb_le in H1. lia.
  - unfold is_upper in H1. apply andb_prop in H1. destruct H1 as [_ H1].
    apply Nat.leb_le in H1. lia.
Qed.

Lemma decode1_ascii a r : (byte a < 128)%N -> decode1 (String a r) = Some (byte a, r).
Proof. intros H. unfold decode1. apply N.ltb_lt in H. now rewrite H. Qed.

Lemma ci_extra_others a c : In c (ci_extra a) <-> In (lower_ascii a, c) ci_others.
Proof.
  unfold ci_extra, ci_others.
  destruct (Ascii.eqb (lower_ascii a) "i") eqn:Ei;
    [apply Ascii.eqb_eq in Ei; rewrite Ei; simpl; intuition congruence|].
  destruct (Ascii.eqb (lower_ascii a) "k") eqn:Ek;
    [apply Ascii.eqb_eq in Ek; rewrite Ek; simpl; intuition congruence|].
  destruct (Ascii.eqb (lower_ascii a) "s") eqn:Es;
    [apply Ascii.eqb_eq in Es; rewrite Es; simpl; intuition congruence|].
  apply Ascii.eqb_neq in Ei, Ek, Es. simpl. intuition congruence.
Qed.

Lemma decode1_other b c r :
  In (b, c) ci_others -> decode1 (encode1 c ++ r) = Some (c, r) /\ (128 <= c)%N.
Proof.
  unfold ci_others. intros H.
  repeat (destruct H as [H|H]; [inversion H; subst; split; [reflexivity|lia]|]).
  destruct H.
Qed.

(** One character of a pattern, ignoring case. *)
Lemma match_char_ci_some a s r :
  match_char_ci a s = Some r <->
  (exists a', s = String a' r /\ (byte a < 128)%N /\ ci_char a' a)
  \/ (exists c, s = (encode1 c ++ r)%string /\ In (lower_ascii a, c) ci_others).
Proof.
  unfold match_char_ci. split.
  - destruct (decode1 s) as [[c r']|] eqn:E; [|discriminate].
    pose proof (decode1_encode _ _ _ E) as Hs.
    destruct (decode1_split _ _ _ E) as (a0 & d & Hs' & _ & Hc).
    destruct (c <? 128)%N eqn:Ec.
    + apply N.ltb_lt in Ec. destruct Hc as [(Ha0 & -> & ->)|[_ Hc]]; [|lia].
      unfold byte at 1. rewrite ascii_N_embedding.
      destruct (Ascii.eqb (lower_ascii a0) (lower_ascii a)) eqn:El; [|discriminate].
      intros H. inversion H; subst r'. left. exists a0.
      apply Ascii.eqb_eq, lower_ascii_ci in El.
      split; [exact Hs'|]. split; auto. eapply ci_char_ascii; eauto.
    + destruct (existsb (N.eqb c) (ci_extra a)) eqn:Ex; [|discriminate].
      intros H. inversion H; subst r'. right. exists c. split; auto.
      apply existsb_exists in Ex. destruct Ex as (c' & Hin & Heq).
      apply N.eqb_eq in Heq. subst c'. now apply ci_extra_others.
  - intros [(a' & -> & Ha & Hc)|(c & -> & Hin)].
    + assert (Ha' : (byte a' < 128)%N) by (eapply ci_char_ascii; eauto using ci_char_sym).
      rewrite (decode1_ascii _ _ Ha'). apply N.ltb_lt in Ha'. rewrite Ha'.
      unfold byte. rewrite ascii_N_embedding.
      apply lower_ascii_ci in Hc. now rewrite Hc, Ascii.eqb_refl.
    + destruct (decode1_other _ _ r Hin) as [E Hc]. rewrite E.
      apply N.ltb_ge in Hc. rewrite Hc.
      apply ci_extra_others in Hin.
      replace (existsb (N.eqb c) (ci_extra a)) with true; auto.
      symmetry. apply existsb_exists. exists c. split; auto. apply N.eqb_refl.
Qed.

Lemma match_literal_ci_some lit : forall s r,
  match_literal_ci lit s = Some r <-> exists pre, s = pre ++ r /\ ci_match pre lit.
Proof.
  induction lit as [|a lit IH]; intros s r; cbn [match_literal_ci].
  - split.
    + intros H. inversion H. exists EmptyString. split; [reflexivity|constructor].
    + intros (pre & -> & H). inversion H. reflexivity.
  - split.
    + destruct (match_char_ci a s) as [r1|] eqn:E; [|discriminate].
      intros H. apply IH in H. destruct H as (pre & -> & Hp).
      apply match_char_ci_some in E.
      destruct E as [(a' & -> & Ha & Hc)|(c & -> & Hin)].
      * exists (String a' pre). split; [reflexivity|]. now constructor.
      * exists (encode1 c ++ pre)%string. split; [now rewrite str_app_assoc|].
        now constructor.
    + intros (pre & -> & Hp).
      inversion Hp as [|a0 b0 s0 t0 Hb Hc Hm|c b0 s0 t0 Hin Hm]; subst.
      * assert (E : match_char_ci a (String a0 s0 ++ r) = Some (s0 ++ r)%string).
        { apply match_char_ci_some. left. exists a0. auto. }
        rewrite E. apply IH. eauto.
      * assert (E : match_char_ci a ((encode1 c ++ s0) ++ r) = Some (s0 ++ r)%string).
        { apply match_char_ci_some. right. exists c. rewrite str_app_assoc. auto. }
        rewrite E. apply IH. eauto.
Qed.

End Regex.

Section LowerAscii.

Local Open Scope N_scope.

Lemma byte_chr n : n < 256 -> chr n = String (ascii_of_N n) EmptyString /\ byte (ascii_of_N n) = n.
Proof. intros H. split; [reflexivity|]. unfold byte. now apply N_ascii_embedding. Qed.

Lemma encode1_ascii a : byte a < 128 -> encode1 (byte a) = String a EmptyString.
Proof.
  intros H. unfold encode1. apply N.ltb_lt in H. rewrite H. apply chr_byte.
Qed.

(** The encoding of a character outside ASCII ends with a byte outside
    ASCII. *)
Lemma encode1_high c :
  128 <= c -> exists s a, encode1 c = (s ++ String a EmptyString)%string /\ 128 <= byte a.
Proof.
  intros H. unfold encode1.
  replace (c <? 0x80) with false by (symmetry; apply N.ltb_ge; lia).
  assert (M : forall n, 128 <= 128 + n mod 64 < 256).
  { intros n. assert (Hm : n mod 64 < 64) by (apply N.mod_upper_bound; discriminate).
    revert Hm. generalize (n mod 64). intros m Hm. lia. }
  assert (L : forall n, 128 <= byte (ascii_of_N (128 + n mod 64))).
  { intros n. destruct (byte_chr (128 + n mod 64)) as [_ E]; [apply M|].
    rewrite E. apply M. }
  destruct (c <? 0x800).
  { exists (chr (192 + c / 64)), (ascii_of_N (128 + c mod 64)). split; [reflexivity|apply L]. }
  destruct ((0xdc80 <=? c) && (c <=? 0xdcff)) eqn:E.
  { apply andb_prop in E. destruct E as [E1 E2]. apply N.leb_le in E1, E2.
    exists EmptyString, (ascii_of_N (c - 0xdc00)). split; [reflexivity|].
    destruct (byte_chr (c - 0xdc00)) as [_ Eb]; [lia|]. rewrite Eb. lia. }
  destruct (c <? 0x10000).
  { exists (chr (224 + c / 4096) ++ chr (128 + (c / 64) mod 64))%string,
      (ascii_of_N (128 + c mod 64)).
    split; [now rewrite str_app_assoc|apply L]. }
  exists (chr (240 + c / 262144) ++ chr (128 + (c / 4096) mod 64)
          ++ chr (128 + (c / 64) mod 64))%string, (ascii_of_N (128 + c mod 64)).
  split; [now rewrite !str_app_assoc|apply L].
Qed.

Lemma lower_ranges_ok : forallb lower_range_ok Unicode.lower_ranges = true.
Proof. vm_compute. reflexivity. Qed.

(** Outside ASCII, only the Kelvin sign and the dotted capital I have an
    ASCII lowercase. *)
Lemma tolower_high c :
  128 <= c -> c <> 0x130 -> 128 <= Unicode.tolower c \/ Unicode.tolower c = 107.
Proof.
  intros Hc Hn. unfold Unicode.tolower.
  destruct (find (Unicode.in_lower_range c) Unicode.lower_ranges) as [[[[lo hi] step] target]|] eqn:E;
    [|now left].
  apply find_some in E. destruct E as [Hin Hr].
  pose proof (proj1 (forallb_forall _ _) lower_ranges_ok _ Hin) as Ok.
  unfold Unicode.in_lower_range in Hr. unfold lower_range_ok in Ok.
  apply andb_prop in Hr. destruct Hr as [Hr _].
  apply andb_prop in Hr. destruct Hr as [H1 H2].
  apply N.leb_le in H1, H2.
  apply orb_prop in Ok. destruct Ok as [Ok|Ok].
  - apply orb_prop in Ok. destruct Ok as [Ok|Ok].
    + apply N.ltb_lt in Ok. lia.
    + apply N.leb_le in Ok. lia.
  - apply andb_prop in Ok. destruct Ok as [O1 O2]. apply N.eqb_eq in O1.
    apply orb_prop in O2. destruct O2 as [O2|O2]; apply N.eqb_eq in O2.
    + right. subst. replace (c - hi) with 0 by lia. lia.
    + lia.
Qed.

Lemma ascii_table : forallb ascii_lower_ok (seq 0 128) = true.
Proof. vm_compute. reflexivity. Qed.

Lemma ascii_facts c :
  c < 128 ->
  Unicode.tolower c = (if (65 <=? c) && (c <=? 90) then c + 32 else c)
  /\ c <> 0x130 /\ c <> SIGMA
  /\ Unicode.cased c = (((65 <=? c) && (c <=? 90)) || ((97 <=? c) && (c <=? 122)))
  /\ Unicode.case_ignorable c
     = ((c =? 39) || (c =? 46) || (c =? 58) || (c =? 94) || (c =? 96)).
Proof.
  intros H.
  assert (Hin : In (N.to_nat c) (seq 0 128)) by (apply in_seq; lia).
  pose proof (proj1 (forallb_forall _ _) ascii_table _ Hin) as Ok.
  unfold ascii_lower_ok in Ok. rewrite N2Nat.id in Ok.
  repeat (apply andb_prop in Ok; destruct Ok as [Ok ?]).
  apply N.eqb_eq in Ok.
  repeat match goal with
         | H : negb _ = true |- _ => apply negb_true_iff, N.eqb_neq in H
         | H : Bool.eqb _ _ = true |- _ => apply Bool.eqb_prop in H
         end.
  auto.
Qed.

End LowerAscii.

Section LowerText.

Local Open Scope N_scope.

Lemma encode_app l1 l2 : encode (l1 ++ l2) = (encode l1 ++ encode l2)%string.
Proof. induction l1 as [|c l1 IH]; simpl; auto. now rewrite IH, str_app_assoc. Qed.

Lemma next_ascii a r : byte a < 128 -> next (String a r) = Some (byte a, r).
Proof. intros H. unfold next. now rewrite decode1_ascii. Qed.

Lemma next_high a s c r : 128 <= byte a -> next (String a s) = Some (c, r) -> 128 <= c.
Proof.
  unfold next. intros Ha. destruct (decode1 (String a s)) as [[c' r']|] eqn:E.
  - intros H. inversion H; subst.
    destruct (decode1_split _ _ _ E) as (a' & d & Hs & _ & Hc).
    cbn [append] in Hs. inversion Hs; subst a'. destruct Hc as [[Hc _]|[_ Hc]]; lia.
  - remember (0xdc00 + byte a) as k eqn:Hk. intros H. inversion H; subst. lia.
Qed.

Lemma byte_lower_ascii a :
  byte (lower_ascii a) = (if (65 <=? byte a) && (byte a <=? 90) then byte a + 32 else byte a).
Proof.
  rewrite !byte_nat, nat_of_lower_ascii. unfold is_upper.
  destruct ((65 <=? nat_of_ascii a)%nat && (nat_of_ascii a <=? 90)%nat) eqn:E.
  - apply andb_prop in E. destruct E as [E1 E2]. apply Nat.leb_le in E1, E2.
    replace (65 <=? N.of_nat (nat_of_ascii a)) with true by (symmetry; apply N.leb_le; lia).
    replace (N.of_nat (nat_of_ascii a) <=? 90) with true by (symmetry; apply N.leb_le; lia).
    cbn [andb]. lia.
  - apply andb_false_iff in E.
    replace ((65 <=? N.of_nat (nat_of_ascii a)) && (N.of_nat (nat_of_ascii a) <=? 90)) with false;
      auto.
    symmetry. apply andb_false_iff.
    destruct E as [E|E]; [left|right]; apply Nat.leb_gt in E; apply N.leb_gt; lia.
Qed.

Lemma lower_ascii_lt a : byte a < 128 -> byte (lower_ascii a) < 128.
Proof.
  intros H. rewrite byte_lower_ascii.
  destruct ((65 <=? byte a) && (byte a <=? 90)) eqn:E; auto.
  apply andb_prop in E. destruct E as [_ E]. apply N.leb_le in E. lia.
Qed.

Lemma lower_ascii_idem a : lower_ascii (lower_ascii a) = lower_ascii a.
Proof.
  apply nat_of_ascii_inj. rewrite !nat_of_lower_ascii.
  destruct (is_upper a) eqn:E.
  - replace (is_upper (lower_ascii a)) with false; auto.
    symmetry. unfold is_upper in *. rewrite nat_of_lower_ascii. unfold is_upper. rewrite E.
    apply andb_prop in E. destruct E as [E1 E2]. apply Nat.leb_le in E1, E2.
    apply andb_false_iff. right. apply Nat.leb_gt. lia.
  - replace (lower_ascii a) with a; [now rewrite E|].
    apply nat_of_ascii_inj. now rewrite nat_of_lower_ascii, E.
Qed.

(** [str.lower] at an ASCII character. *)
Lemma lower_chars_ascii before a r :
  byte a < 128 ->
  encode (lower_chars before (decode (String a r)))
  = String (lower_ascii a)
      (encode (lower_chars (if Unicode.case_ignorable (byte a) then before
                            else Unicode.cased (byte a))
                 (decode r))).
Proof.
  intros H. rewrite (decode_next _ _ _ (next_ascii a r H)).
  destruct (ascii_facts _ H) as (Hl & H130 & Hs & _).
  cbn [lower_chars]. apply N.eqb_neq in Hs. rewrite Hs.
  unfold Unicode.tolower_full. apply N.eqb_neq in H130. rewrite H130.
  rewrite Hl, <- byte_lower_ascii. cbn [app encode].
  now rewrite (encode1_ascii _ (lower_ascii_lt a H)).
Qed.

Lemma is_ascii_cons a s : is_ascii (String a s) <-> byte a < 128 /\ is_ascii s.
Proof.
  unfold is_ascii. cbn [list_ascii_of_string]. split.
  - intros H. inversion H; auto.
  - intros [H1 H2]. now constructor.
Qed.

Lemma plain_cons a s :
  plain (String a s) <-> (byte a < 128 /\ lower_ascii a <> "k"%char) /\ plain s.
Proof.
  unfold plain. cbn [list_ascii_of_string]. split.
  - intros H. inversion H; auto.
  - intros [H1 H2]. now constructor.
Qed.

Lemma plain_app s t : plain (s ++ t) <-> plain s /\ plain t.
Proof.
  induction s as [|a s IH]; cbn [append].
  - split; [intros H; split; [constructor|auto]|tauto].
  - rewrite !plain_cons, IH. tauto.
Qed.

Lemma plain_is_ascii s : plain s -> is_ascii s.
Proof. unfold plain, is_ascii. apply Forall_impl. tauto. Qed.

Lemma plain_lower_bytes s : plain s -> plain (lower_bytes s).
Proof.
  induction s as [|a s IH]; [auto|]. cbn [lower_bytes]. rewrite !plain_cons.
  intros [[H1 H2] H3]. split; auto. split; [now apply lower_ascii_lt|].
  now rewrite lower_ascii_idem.
Qed.

(** On ASCII text [str.lower] works letter by letter. *)
Lemma lower_chars_is_ascii s : is_ascii s -> forall before,
  encode (lower_chars before (decode s)) = lower_bytes s.
Proof.
  induction s as [|a s IH]; intros Hs before; [reflexivity|].
  apply is_ascii_cons in Hs. destruct Hs as [Ha Hs].
  rewrite lower_chars_ascii by assumption. cbn [lower_bytes]. f_equal. now apply IH.
Qed.

Lemma lower_is_ascii s : is_ascii s -> lower s = lower_bytes s.
Proof. intros H. now apply lower_chars_is_ascii. Qed.

Lemma not_plain_high s a t : 128 <= byte a -> ~ plain ((s ++ String a EmptyString) ++ t).
Proof.
  intros Ha H. apply plain_app in H. destruct H as [H _].
  apply plain_app in H. destruct H as [_ H]. apply plain_cons in H. lia.
Qed.

Lemma not_plain_encode1 c t : 128 <= c -> ~ plain (encode1 c ++ t).
Proof.
  intros Hc. destruct (encode1_high c Hc) as (s & a & -> & Ha). now apply not_plain_high.
Qed.

(** Text whose lowercase is ASCII text without a k is ASCII text. *)
Lemma lower_plain_inv n : forall k before,
  (String.length k <= n)%nat ->
  plain (encode (lower_chars before (decode k))) -> is_ascii k.
Proof.
  induction n as [|n IH]; intros k before Hl Hp.
  - destruct k; [constructor|simpl in Hl; lia].
  - destruct k as [|a r]; [constructor|]. cbn [String.length] in Hl.
    destruct (N.lt_ge_cases (byte a) 128) as [Ha|Ha].
    + rewrite lower_chars_ascii in Hp by assumption.
      apply plain_cons in Hp. destruct Hp as [_ Hp].
      apply is_ascii_cons. split; auto. apply (IH r _ ltac:(lia) Hp).
    + exfalso. destruct (next_some (String a r)) as (c & r' & E); [discriminate|].
      pose proof (next_high _ _ _ _ Ha E) as Hc.
      rewrite (decode_next _ _ _ E) in Hp. cbn [lower_chars] in Hp.
      rewrite encode_app in Hp.
      destruct (c =? SIGMA) eqn:Es.
      * cbn [encode] in Hp. rewrite str_app_nil_r in Hp. revert Hp.
        destruct (before && negb (cased_ahead (decode r'))); now apply not_plain_encode1.
      * unfold Unicode.tolower_full in Hp. destruct (c =? 0x130) eqn:E130.
        -- apply plain_app in Hp. destruct Hp as [Hp _].
           change (encode [0x69; 0x307]) with (String "i" (encode1 0x307)) in Hp.
           apply plain_cons in Hp. destruct Hp as [_ Hp].
           rewrite <- (str_app_nil_r (encode1 0x307)) in Hp.
           revert Hp. apply not_plain_encode1. lia.
        -- apply N.eqb_neq in E130. cbn [encode] in Hp. rewrite str_app_nil_r in Hp.
           destruct (tolower_high c Hc E130) as [Ht|Ht].
           ++ revert Hp. now apply not_plain_encode1.
           ++ rewrite Ht in Hp. apply plain_app in Hp. destruct Hp as [Hp _].
              apply plain_cons in Hp. destruct Hp as [[_ Hp] _]. now apply Hp.
Qed.

Lemma lower_bytes_ci s : forall t, lower_bytes s = lower_bytes t <-> ci_eq s t.
Proof.
  induction s as [|a s IH]; intros [|b t]; simpl; split; intros H;
    try discriminate; try constructor; try (inversion H; fail).
  - inversion H. now apply lower_ascii_ci.
  - inversion H. now apply IH.
  - inversion H; subst. f_equal; [now apply lower_ascii_ci|now apply IH].
Qed.

Lemma ci_eq_is_ascii s t : ci_eq s t -> is_ascii t -> is_ascii s.
Proof.
  induction 1 as [|a b s t Hc Hs IH]; auto. rewrite !is_ascii_cons.
  intros [Hb Ht]. split; auto. eapply ci_char_ascii; eauto using ci_char_sym.
Qed.

(** For a name in ASCII without a k, [k.lower() == wanted.lower()] is
    equality up to the case of the ASCII letters. *)
Lemma lower_plain k t : plain t -> (lower k = lower t <-> ci_eq k t).
Proof.
  intros Ht. pose proof (plain_is_ascii _ Ht) as At.
  rewrite (lower_is_ascii t At). split.
  - intros H.
    assert (Ak : is_ascii k).
    { apply (lower_plain_inv (String.length k) k false (le_n _)).
      fold (lower k). rewrite H. now apply plain_lower_bytes. }
    rewrite (lower_is_ascii k Ak) in H. now apply lower_bytes_ci.
  - intros H. rewrite (lower_is_ascii k (ci_eq_is_ascii _ _ H At)).
    now apply lower_bytes_ci.
Qed.

Lemma plain_Icolor : plain "Icolor".
Proof. repeat (apply Forall_cons; [split; [reflexivity|discriminate]|]). constructor. Qed.

End LowerText.

Section LowerCase.

Local Open Scope N_scope.

Lemma ci_char_high a b : ci_char a b -> 128 <= byte a -> a = b.
Proof.
  rewrite byte_nat. intros [H|[[H1 H2]|[H1 H2]]] Ha; auto; exfalso;
    unfold is_upper in H1; apply andb_prop in H1; destruct H1 as [H0 H1];
    apply Nat.leb_le in H0, H1; lia.
Qed.

Lemma ci_char_cont a b : ci_char a b -> continuation a = continuation b.
Proof.
  intros H. destruct (N.lt_ge_cases (byte a) 128) as [Ha|Ha].
  - rewrite !continuation_ascii; auto. eapply ci_char_ascii; eauto.
  - now rewrite (ci_char_high a b H Ha).
Qed.

Lemma ci_char_cont_eq a b x : ci_char a b -> continuation a = Some x -> a = b.
Proof.
  intros H Hx. apply continuation_some in Hx. destruct Hx as [Hx _].
  now apply ci_char_high.
Qed.

(** The character that begins with a byte outside ASCII is the same in two
    texts that differ by the case of ASCII letters. *)
Lemma decode1_ci a s t :
  128 <= byte a -> ci_eq s t ->
  match decode1 (String a s), decode1 (String a t) with
  | Some (c, r), Some (c', r') => c = c' /\ ci_eq r r'
  | None, None => True
  | _, _ => False
  end.
Proof.
  intros Ha H. unfold decode1.
  replace (byte a <? 128) with false by (symmetry; apply N.ltb_ge; lia).
  destruct (byte a <? 194); auto.
  destruct (byte a <? 224).
  { inversion H as [|a1 b1 s1 t1 H1 Hr]; subst; auto.
    rewrite <- (ci_char_cont _ _ H1). destruct (continuation a1); auto. }
  destruct (byte a <? 240).
  { inversion H as [|a1 b1 s1 t1 H1 Hr]; subst; auto.
    inversion Hr as [|a2 b2 s2 t2 H2 Hr2]; subst; auto.
    rewrite <- (ci_char_cont _ _ H1), <- (ci_char_cont _ _ H2).
    destruct (continuation a1); auto. destruct (continuation a2); auto.
    cbv zeta. match goal with |- context [if ?b then _ else _] => destruct b end; auto. }
  destruct (byte a <? 245); auto.
  inversion H as [|a1 b1 s1 t1 H1 Hr]; subst; auto.
  inversion Hr as [|a2 b2 s2 t2 H2 Hr2]; subst; auto.
  inversion Hr2 as [|a3 b3 s3 t3 H3 Hr3]; subst; auto.
  rewrite <- (ci_char_cont _ _ H1), <- (ci_char_cont _ _ H2), <- (ci_char_cont _ _ H3).
  destruct (continuation a1); auto. destruct (continuation a2); auto.
  destruct (continuation a3); auto.
  cbv zeta. match goal with |- context [if ?b then _ else _] => destruct b end; auto.
Qed.

Lemma ci_char_cp a b : ci_char a b -> ci_cp (byte a) (byte b).
Proof.
  unfold ci_cp. rewrite !byte_nat. intros [->|[[H1 H2]|[H1 H2]]]; auto;
    unfold is_upper in H1; apply andb_prop in H1; destruct H1 as [H0 H1];
    apply Nat.leb_le in H0, H1; [right; left|right; right]; lia.
Qed.

Lemma next_ci s t :
  ci_eq s t ->
  match next s, next t with
  | Some (c, r), Some (c', r') => ci_cp c c' /\ ci_eq r r'
  | None, None => True
  | _, _ => False
  end.
Proof.
  intros H. inversion H as [|a b s' t' Hc Hr]; subst; [exact I|].
  destruct (N.lt_ge_cases (byte a) 128) as [Ha|Ha].
  - rewrite (next_ascii a s' Ha), (next_ascii b t' (ci_char_ascii _ _ Hc Ha)).
    split; auto using ci_char_cp.
  - pose proof (ci_char_high _ _ Hc Ha) as <-.
    pose proof (decode1_ci a s' t' Ha Hr) as D. unfold next.
    destruct (decode1 (String a s')) as [[c r]|], (decode1 (String a t')) as [[c' r']|];
      try contradiction.
    + destruct D as [-> D]. split; auto. now left.
    + split; auto. now left.
Qed.

Lemma decode_ci n : forall s t,
  (String.length s <= n)%nat -> ci_eq s t -> Forall2 ci_cp (decode s) (decode t).
Proof.
  induction n as [|n IH]; intros s t Hl H.
  - inversion H; subst; [constructor|simpl in Hl; lia].
  - pose proof (next_ci s t H) as N.
    destruct (next s) as [[c r]|] eqn:Es, (next t) as [[c' r']|] eqn:Et; try contradiction.
    + destruct N as [Hc Hr]. rewrite (decode_next _ _ _ Es), (decode_next _ _ _ Et).
      constructor; auto. apply IH; auto. apply next_length in Es. lia.
    + inversion H; subst; [constructor|].
      destruct (next_some (String a s0)) as (? & ? & E); [discriminate|congruence].
Qed.

Lemma ci_cp_facts x y :
  ci_cp x y ->
  Unicode.tolower_full x = Unicode.tolower_full y
  /\ (x =? SIGMA) = (y =? SIGMA)
  /\ Unicode.cased x = Unicode.cased y
  /\ Unicode.case_ignorable x = Unicode.case_ignorable y.
Proof.
  assert (Up : forall u, 65 <= u <= 90 ->
            Unicode.tolower_full u = Unicode.tolower_full (u + 32)
            /\ (u =? SIGMA) = (u + 32 =? SIGMA)
            /\ Unicode.cased u = Unicode.cased (u + 32)
            /\ Unicode.case_ignorable u = Unicode.case_ignorable (u + 32)).
  { intros u Hu.
    destruct (ascii_facts u) as (L1 & N1 & S1 & C1 & I1); [lia|].
    destruct (ascii_facts (u + 32)) as (L2 & N2 & S2 & C2 & I2); [lia|].
    unfold Unicode.tolower_full.
    apply N.eqb_neq in N1, N2, S1, S2. rewrite N1, N2, S1, S2, L1, L2, C1, C2, I1, I2.
    replace (65 <=? u) with true by (symmetry; apply N.leb_le; lia).
    replace (u <=? 90) with true by (symmetry; apply N.leb_le; lia).
    replace (u + 32 <=? 90) with false by (symmetry; apply N.leb_gt; lia).
    replace (97 <=? u + 32) with true by (symmetry; apply N.leb_le; lia).
    replace (u + 32 <=? 122) with true by (symmetry; apply N.leb_le; lia).
    replace (u =? 39) with false by (symmetry; apply N.eqb_neq; lia).
    replace (u =? 46) with false by (symmetry; apply N.eqb_neq; lia).
    replace (u =? 58) with false by (symmetry; apply N.eqb_neq; lia).
    replace (u + 32 =? 39) with false by (symmetry; apply N.eqb_neq; lia).
    replace (u + 32 =? 46) with false by (symmetry; apply N.eqb_neq; lia).
    replace (u + 32 =? 58) with false by (symmetry; apply N.eqb_neq; lia).
    replace (u =? 94) with false by (symmetry; apply N.eqb_neq; lia).
    replace (u =? 96) with false by (symmetry; apply N.eqb_neq; lia).
    replace (u + 32 =? 94) with false by (symmetry; apply N.eqb_neq; lia).
    replace (u + 32 =? 96) with false by (symmetry; apply N.eqb_neq; lia).
    rewrite andb_false_r. auto. }
  intros [->|[[H ->]|[H ->]]]; auto.
  destruct (Up y H) as (H1 & H2 & H3 & H4). auto.
Qed.

Lemma cased_ahead_ci l1 l2 : Forall2 ci_cp l1 l2 -> cased_ahead l1 = cased_ahead l2.
Proof.
  induction 1 as [|x y l1 l2 Hc Hl IH]; [reflexivity|].
  destruct (ci_cp_facts x y Hc) as (_ & _ & C & I).
  cbn [cased_ahead]. now rewrite C, I, IH.
Qed.

Lemma lower_chars_ci l1 l2 :
  Forall2 ci_cp l1 l2 -> forall before, lower_chars before l1 = lower_chars before l2.
Proof.
  induction 1 as [|x y l1 l2 Hc Hl IH]; intros before; [reflexivity|].
  destruct (ci_cp_facts x y Hc) as (L & S & C & I).
  cbn [lower_chars]. now rewrite L, S, C, I, (cased_ahead_ci _ _ Hl), IH.
Qed.

(** [str.lower] does not tell the two cases of an ASCII letter apart. *)
Lemma lower_ci s t : ci_eq s t -> lower s = lower t.
Proof.
  intros H. unfold lower.
  now rewrite (lower_chars_ci _ _ (decode_ci _ s t (le_n _) H)).
Qed.

End LowerCase.

(** ** Key resolution *)

Section KeyResolution.

Local Open Scope nat_scope.

(** For the name [Icolor], [k.lower() == wanted.lower()] is equality up to
    the case of the letters. *)
Lemma lower_icolor k : lower k = lower "Icolor" <-> ci_eq k "Icolor".
Proof. apply lower_plain, plain_Icolor. Qed.

Lemma startswith_metadata k : startswith k "__" = true <-> is_metadata k.
Proof.
  unfold startswith, is_metadata. rewrite prefix_correct. split.
  - destruct k as [|a [|b r]]; simpl; try discriminate.
    destruct r; simpl; intros H; inversion H; subst; eauto.
  - intros [r ->]. simpl. now destruct r.
Qed.

Lemma getitem_in (d : mat_dict) k :
  In k (keys d) -> exists v, getitem d k = Some v /\ In (k, v) d.
Proof.
  induction d as [|[k' v'] d IH]; simpl; [tauto|].
  intros H. destruct (String.eqb k' k) eqn:E.
  - apply String.eqb_eq in E. subst. eauto.
  - destruct H as [H|H]; [subst; rewrite String.eqb_refl in E; discriminate|].
    destruct (IH H) as (v & Hv & Hin). eauto.
Qed.

Lemma find_key_some d k :
  _find_key_case_insensitive d "Icolor" = Some k ->
  In k (keys d) /\ ci_eq k "Icolor".
Proof.
  unfold _find_key_case_insensitive. intros H. apply find_some in H.
  destruct H as [Hin He]. split; auto.
  apply String.eqb_eq in He. now apply lower_icolor.
Qed.

Lemma find_key_none d :
  _find_key_case_insensitive d "Icolor" = None <->
  forall k, In k (keys d) -> ~ ci_eq k "Icolor".
Proof.
  unfold _find_key_case_insensitive. split.
  - intros H k Hin Hci. pose proof (find_none _ _ H k Hin) as E. cbv beta in E.
    apply lower_icolor in Hci. rewrite Hci, String.eqb_refl in E. discriminate.
  - intros H. destruct (find _ (keys d)) as [k|] eqn:E; auto.
    apply find_some in E. destruct E as [Hin He].
    apply String.eqb_eq in He. apply lower_icolor in He. now apply H in Hin.
Qed.

End KeyResolution.

(** ** Extraction of one file *)

Section Extraction.

Variable invalid_cast : Z.
Variable no_loop_msg : string.
Variable jpeg : Type.
Variable pil_save : ndarray -> result jpeg.
Variable read_mat : Path -> result Scipy.matfile.

Local Open Scope nat_scope.

Local Abbreviation extract := (extract_from_mat invalid_cast no_loop_msg jpeg pil_save read_mat).
Local Abbreviation save_all := (save_frames invalid_cast no_loop_msg jpeg pil_save).
Local Abbreviation save := (_save_jpg invalid_cast no_loop_msg jpeg pil_save).
Local Abbreviation load' := (load read_mat).

Local Notation "m ;;; k" := (bind jpeg m (fun _ => k))
  (at level 61, right associativity).

Lemma extract_eq p mat ic frames w :
  load' p = Ok mat -> find_icolor mat = Ok ic -> frames_of ic = Ok frames ->
  extract p w = save_all p frames w.
Proof.
  intros H1 H2 H3. unfold extract_from_mat, bind, lift. now rewrite H1, H2, H3.
Qed.

Lemma save_frames_short p frames w :
  List.length frames < 5 ->
  save_all p frames w =
  (w, Raise (Exn RuntimeError
               ("Icolor contém " ++ str_of_nat (List.length frames)
                ++ " frame(s), esperado >= 5."))).
Proof.
  intros H. unfold save_frames. apply Nat.ltb_lt in H. now rewrite H.
Qed.

Lemma save_frames_five p f1 f2 f3 f4 f5 rest w :
  save_all p (f1 :: f2 :: f3 :: f4 :: f5 :: rest) w =
  (mkdir jpeg OUTPUT_DIR ;;;
   save (asarray f1) (out_path p 1) ;;;
   save (asarray f2) (out_path p 2) ;;;
   save (asarray f3) (out_path p 3) ;;;
   save (asarray f4) (out_path p 4) ;;;
   save (asarray f5) (out_path p 5)) w.
Proof.
  unfold save_frames. cbn [List.length Nat.ltb Nat.leb].
  unfold bind, lift, mkdir, out_path. cbn [for_each seq frame_at nth_error Nat.sub].
  unfold bind, lift, ret.
  repeat (match goal with
          | |- context [let (_, _) := ?m ?w in _] => destruct (m w) as [? [[]|?]]
          | |- context [match ?m ?w with (_, _) => _ end] => destruct (m w) as [? [[]|?]]
          end; try reflexivity).
Qed.

(** *** Claim C3 *)

(** C3. The variable [Icolor] is found under any key that matches the name
    case-insensitively (the first such key; [ICOLOR] is one); the lookup
    raises if and only if no key of the container matches, the extraction
    then ends with that error, and its message lists the keys that do not
    begin with two underscores, and only those: for a container holding
    only [other_var], the list ['other_var']. *)
Theorem icolor_lookup (mat : mat_dict) :
  (forall k, In k (keys mat) -> ci_eq k "Icolor" ->
     exists k' v, _find_key_case_insensitive mat "Icolor" = Some k'
       /\ ci_eq k' "Icolor" /\ In (k', v) mat /\ find_icolor mat = Ok v)
  /\
  ((exists e, find_icolor mat = Raise e) <->
   (forall k, In k (keys mat) -> ~ ci_eq k "Icolor"))
  /\
  (forall e, find_icolor mat = Raise e ->
     exists shown,
       e = Exn RuntimeError
             ("Variável 'Icolor' não encontrada. Chaves disponíveis: "
              ++ repr_list shown)
       /\ (forall k, In k shown <-> In k (keys mat) /\ ~ is_metadata k))
  /\
  (forall p w e, load' p = Ok mat -> find_icolor mat = Raise e ->
     extract p w = (w, Raise e))
  /\
  (forall v, find_icolor (("__header__", PyBytes []) :: ("ICOLOR", v) :: nil) = Ok v)
  /\
  (forall v,
     find_icolor (("__header__", PyBytes []) :: ("other_var", v) :: nil) =
     Raise (Exn RuntimeError
              "Variável 'Icolor' não encontrada. Chaves disponíveis: ['other_var']")).
Proof.
  assert (Found : forall k, _find_key_case_insensitive mat "Icolor" = Some k ->
            exists v, In (k, v) mat /\ find_icolor mat = Ok v).
  { intros k Hk. destruct (find_key_some mat k Hk) as [Hin _].
    destruct (getitem_in mat k Hin) as (v & Hv & Hi).
    exists v. split; auto. unfold find_icolor. now rewrite Hk, Hv. }
  split; [|split; [split|split; [|split; [|split; reflexivity]]]].
  - intros k Hin Hci.
    destruct (_find_key_case_insensitive mat "Icolor") as [k'|] eqn:E.
    + destruct (Found k' eq_refl) as (v & Hi & Hf).
      exists k', v. repeat split; auto. now apply (find_key_some mat k').
    + exfalso. now apply (proj1 (find_key_none mat) E k).
  - intros [e He]. apply find_key_none.
    destruct (_find_key_case_insensitive mat "Icolor") as [k'|] eqn:E; auto.
    destruct (Found k' eq_refl) as (v & _ & Hf). congruence.
  - intros H. apply find_key_none in H. unfold find_icolor. rewrite H. eauto.
  - intros e He.
    destruct (_find_key_case_insensitive mat "Icolor") as [k'|] eqn:E.
    + destruct (Found k' eq_refl) as (v & _ & Hf). congruence.
    + unfold find_icolor in He. rewrite E in He. inversion He; subst; clear He.
      eexists; split; [reflexivity|].
      intros k. rewrite filter_In, negb_true_iff, <- startswith_metadata.
      destruct (startswith k "__"); intuition congruence.
  - intros p w e Hl He. unfold extract_from_mat, bind, lift. now rewrite Hl, He.
Qed.

(** *** Claim C4 *)

(** C4. Once the value of [Icolor] is a list of frames: with fewer than 5
    frames the extraction raises an error that states their number (3 for
    a list of 3) and writes nothing; with 5 or more it saves frames 1 to 5
    and nothing else, whatever follows them in the list. *)
Theorem frame_count_check
  (p : Path) (mat : mat_dict) (ic : pyobj) (frames : list array_like)
  (w : world jpeg)
  (Hload : load' p = Ok mat)
  (Hic : find_icolor mat = Ok ic)
  (Hfr : frames_of ic = Ok frames) :
  (List.length frames < 5 ->
     extract p w =
     (w, Raise (Exn RuntimeError
                  ("Icolor contém " ++ str_of_nat (List.length frames)
                   ++ " frame(s), esperado >= 5."))))
  /\
  (List.length frames = 3 ->
     extract p w =
     (w, Raise (Exn RuntimeError "Icolor contém 3 frame(s), esperado >= 5.")))
  /\
  (forall f1 f2 f3 f4 f5 rest, frames = f1 :: f2 :: f3 :: f4 :: f5 :: rest ->
     extract p w =
     (mkdir jpeg OUTPUT_DIR ;;;
      save (asarray f1) (out_path p 1) ;;;
      save (asarray f2) (out_path p 2) ;;;
      save (asarray f3) (out_path p 3) ;;;
      save (asarray f4) (out_path p 4) ;;;
      save (asarray f5) (out_path p 5)) w).
Proof.
  rewrite (extract_eq p mat ic frames w Hload Hic Hfr). repeat split.
  - apply save_frames_short.
  - intros H. rewrite save_frames_short by lia. now rewrite H.
  - intros f1 f2 f3 f4 f5 rest ->. apply save_frames_five.
Qed.

End Extraction.


(** ** The chip identifier *)

Section ChipId.

Local Open Scope nat_scope.

Lemma ci_char_refl a : ci_char a a.
Proof. now left. Qed.

Lemma ci_eq_refl s : ci_eq s s.
Proof. induction s; constructor; auto using ci_char_refl. Qed.

Lemma ci_eq_length s t : ci_eq s t -> String.length s = String.length t.
Proof. induction 1; simpl; auto. Qed.

Lemma ci_eq_sym s t : ci_eq s t -> ci_eq t s.
Proof. induction 1; constructor; auto using ci_char_sym. Qed.

(** In ASCII text, the two cases of a letter are all that matches it. *)
Lemma ci_eq_match s t :
  ci_eq s t -> Forall (fun b => (byte b < 128)%N) (list_ascii_of_string t) -> ci_match s t.
Proof.
  induction 1 as [|a b s t Hc Hs IH]; intros Ht; [constructor|].
  cbn [list_ascii_of_string] in Ht. inversion Ht; subst. constructor; auto.
Qed.

Lemma ci_match_mat suf : ci_match suf ".mat" -> ci_eq suf ".mat".
Proof.
  intros H.
  repeat match goal with
         | H : ci_match _ (String _ _) |- _ =>
             inversion H as [|? ? ? ? ? ? ?|? ? ? ? Hin ?]; subst; clear H;
             [|simpl in Hin; intuition discriminate]
         | H : ci_match _ EmptyString |- _ => inversion H; subst; clear H
         end.
  repeat (apply ci_cons; [assumption|]). apply ci_nil.
Qed.

Lemma span_digits_spec s ds tl :
  span_digits s = (ds, tl) <-> s = ds ++ tl /\ digits ds /\ digit tl = None.
Proof.
  unfold span_digits. split.
  - intros H.
    destruct (skip_digits_spec (String.length s) s (le_n _)) as (ds' & Hs & Hd' & Hn).
    remember (skip_digits (String.length s) s) as tl' eqn:Ht'. clear Ht'.
    subst s. rewrite str_length_app in H.
    replace (String.length ds' + String.length tl' - String.length tl')
      with (String.length ds') in H by lia.
    rewrite substring_0_app in H. inversion H; subst. auto.
  - intros (-> & Hd & Ht).
    rewrite (skip_digits_intro ds Hd _ tl Ht (le_n _)).
    rewrite str_length_app.
    replace (String.length ds + String.length tl - String.length tl)
      with (String.length ds) by lia.
    now rewrite substring_0_app.
Qed.

Lemma ci_dot c : ci_char c "." -> c = "."%char.
Proof.
  intros [H|[[H1 H2]|[H _]]]; auto; [|discriminate].
  exfalso. change (nat_of_ascii ".") with 46 in H2.
  unfold is_upper in H1. apply andb_prop in H1. destruct H1 as [H1 _].
  apply Nat.leb_le in H1. lia.
Qed.

Lemma digit_dot r : digit (String "." r) = None.
Proof. reflexivity. Qed.

Lemma at_dollar_spec t : at_dollar t = true <-> t = EmptyString \/ t = String newline EmptyString.
Proof.
  destruct t as [|c [|d t]]; simpl; split; auto; try discriminate.
  - intros H. apply Ascii.eqb_eq in H. subst. auto.
  - intros [H|H]; [discriminate|]. inversion H. apply Ascii.eqb_refl.
  - intros [H|H]; discriminate.
Qed.

(** What [CHIP_RE] accepts: [Chip_], one or more decimal digits, [.mat],
    letters in either case, alone or followed by one newline. *)
Lemma CHIP_RE_spec n ds :
  CHIP_RE n = Some ds <->
  exists pre suf tail,
    n = pre ++ ds ++ suf ++ tail
    /\ ci_match pre "Chip_" /\ ci_match suf ".mat"
    /\ ds <> EmptyString /\ all_digits ds = true
    /\ (tail = EmptyString \/ tail = String newline EmptyString).
Proof.
  unfold CHIP_RE. split.
  - destruct (match_literal_ci "Chip_" n) as [r1|] eqn:E1; [|discriminate].
    destruct (span_digits r1) as [d r2] eqn:E2.
    destruct d as [|c d]; [discriminate|].
    destruct (match_literal_ci ".mat" r2) as [r3|] eqn:E3; [|discriminate].
    destruct (at_dollar r3) eqn:E4; [|discriminate].
    intros H. inversion H; subst; clear H.
    apply match_literal_ci_some in E1, E3.
    destruct E1 as (pre & -> & Hpre), E3 as (suf & -> & Hsuf).
    apply span_digits_spec in E2. destruct E2 as (-> & Hd & _).
    exists pre, suf, r3. split; [reflexivity|].
    split; auto. split; auto. split; [discriminate|].
    split; [now apply all_digits_digits|now apply at_dollar_spec].
  - intros (pre & suf & tail & -> & Hpre & Hsuf & Hne & Hd & Ht).
    assert (E1 : match_literal_ci "Chip_" (pre ++ ds ++ suf ++ tail)
                 = Some (ds ++ suf ++ tail)).
    { apply match_literal_ci_some. eauto. }
    rewrite E1.
    assert (E2 : span_digits (ds ++ suf ++ tail) = (ds, suf ++ tail)).
    { apply span_digits_spec. split; auto. split; [now apply all_digits_digits|].
      apply ci_match_mat in Hsuf.
      inversion Hsuf as [|a b s t Hc Hrest]; subst.
      apply ci_dot in Hc. subst. apply digit_dot. }
    rewrite E2. destruct ds as [|c d]; [congruence|].
    assert (E3 : match_literal_ci ".mat" (suf ++ tail) = Some tail).
    { apply match_literal_ci_some. eauto. }
    rewrite E3. apply at_dollar_spec in Ht. now rewrite Ht.
Qed.

(** A name [Chip_<digits>.mat], letters in either case, gives its
    digits. *)
Lemma chip_id_of_chip_name p ds : chip_name (name p) ds -> chip_id p = ds.
Proof.
  intros (pre & suf & Hn & Hpre & Hsuf & Hne & Hd). unfold chip_id.
  assert (E : CHIP_RE (name p) = Some ds).
  { apply CHIP_RE_spec. exists pre, suf, EmptyString. rewrite str_app_nil_r.
    split; [exact Hn|].
    split; [apply ci_eq_match; [exact Hpre|repeat constructor]|].
    split; [apply ci_eq_match; [exact Hsuf|repeat constructor]|].
    auto. }
  now rewrite E.
Qed.

Lemma str_last_app s t : t <> EmptyString -> str_last (s ++ t) = str_last t.
Proof.
  intros Ht. induction s as [|c s IH]; simpl; auto.
  rewrite IH. destruct (s ++ t)%string eqn:E; auto.
  destruct s; simpl in E; congruence.
Qed.

(** A name of the form [Chip_<digits>.mat] ends with a letter t. *)
Lemma chip_name_last n ds :
  chip_name n ds -> exists c, str_last n = Some c /\ ci_char c "t".
Proof.
  intros (pre & suf & -> & _ & Hsuf & _).
  inversion Hsuf as [|a1 b1 s1 t1 _ H1]; subst.
  inversion H1 as [|a2 b2 s2 t2 _ H2]; subst.
  inversion H2 as [|a3 b3 s3 t3 _ H3]; subst.
  inversion H3 as [|a4 b4 s4 t4 Hc H4]; subst.
  inversion H4; subst.
  exists a4. split; auto.
  rewrite str_last_app; [rewrite str_last_app; [reflexivity|discriminate]|].
  destruct ds; discriminate.
Qed.

Lemma chip_name_no_newline n ds : chip_name n ds -> ~ ends_with_newline n.
Proof.
  intros H [n' E]. destruct (chip_name_last n ds H) as (c & Hl & Hc).
  rewrite E, str_last_app in Hl by discriminate. simpl in Hl. inversion Hl; subst.
  destruct Hc as [Hc|[[Hc _]|[_ Hc]]]; discriminate.
Qed.

End ChipId.

(** ** Files written by one extraction *)

Section Writes.

Variable invalid_cast : Z.
Variable no_loop_msg : string.
Variable jpeg : Type.
Variable pil_save : ndarray -> result jpeg.
Variable read_mat : Path -> result Scipy.matfile.

Local Open Scope nat_scope.
Local Open Scope list_scope.

Local Abbreviation extract := (extract_from_mat invalid_cast no_loop_msg jpeg pil_save read_mat).
Local Abbreviation save_all := (save_frames invalid_cast no_loop_msg jpeg pil_save).
Local Abbreviation save := (_save_jpg invalid_cast no_loop_msg jpeg pil_save).
Local Abbreviation encoded' := (encoded invalid_cast no_loop_msg jpeg pil_save).
Local Abbreviation valid := (valid_mat invalid_cast no_loop_msg jpeg pil_save read_mat).
Local Abbreviation outcome' := (outcome invalid_cast no_loop_msg jpeg pil_save read_mat).
Local Abbreviation log_line' := (log_line invalid_cast no_loop_msg jpeg pil_save read_mat).
Local Abbreviation succeeded' := (succeeded invalid_cast no_loop_msg jpeg pil_save read_mat).
Local Abbreviation stateless := (stateless jpeg).

(** A frame is saved when it encodes, and only then; nothing else of the
    state changes. *)
Lemma save_jpg_eq f path w :
  save (asarray f) path w =
  match encoded' f with
  | Ok j => (World jpeg (files jpeg w ++ [(path_str path, j)]) (dirs jpeg w) (stdout jpeg w),
             Ok tt)
  | Raise e => (w, Raise e)
  end.
Proof.
  unfold _save_jpg, encoded, bind, lift, write_file.
  destruct (jpg_array invalid_cast no_loop_msg (asarray f)) as [x|e]; simpl; auto.
Qed.

(** The files a valid container yields: five, one per frame 1 to 5, at the
    paths [out_path p 1] to [out_path p 5]. *)
Lemma extract_valid p js w :
  valid p js ->
  exists ds,
    extract p w =
    (World jpeg
       (files jpeg w
        ++ map (fun ij => (path_str (out_path p (fst ij)), snd ij)) (combine (seq 1 5) js))
       ds (stdout jpeg w), Ok tt)
    /\ List.length js = 5.
Proof.
  intros (mat & ic & frames & Hl & Hi & Hf & Hlen & Henc).
  rewrite (extract_eq _ _ _ _ _ p mat ic frames w Hl Hi Hf).
  destruct frames as [|f1 [|f2 [|f3 [|f4 [|f5 rest]]]]]; simpl in Hlen; try lia.
  cbn [firstn] in Henc.
  inversion Henc as [|? j1 ? l1 E1 Henc1]; subst; clear Henc.
  inversion Henc1 as [|? j2 ? l2 E2 Henc2]; subst; clear Henc1.
  inversion Henc2 as [|? j3 ? l3 E3 Henc3]; subst; clear Henc2.
  inversion Henc3 as [|? j4 ? l4 E4 Henc4]; subst; clear Henc3.
  inversion Henc4 as [|? j5 ? l5 E5 Henc5]; subst; clear Henc4.
  inversion Henc5; subst; clear Henc5.
  rewrite save_frames_five. unfold bind at 1. unfold mkdir at 1.
  repeat (unfold bind at 1; rewrite save_jpg_eq;
          rewrite ?E1, ?E2, ?E3, ?E4, ?E5; cbn [files dirs stdout]).
  rewrite save_jpg_eq, E5. cbn [files dirs stdout].
  eexists. split; [|reflexivity].
  rewrite <- !app_assoc. reflexivity.
Qed.

(** *** The result of an extraction does not depend on the state *)

Lemma stateless_lift {A} (r : result A) : stateless (lift jpeg r).
Proof. exists r. intros w. auto. Qed.

Lemma stateless_bind {A B} (m : M jpeg A) (k : A -> M jpeg B) :
  stateless m -> (forall a, stateless (k a)) -> stateless (bind jpeg m k).
Proof.
  intros [r Hm] Hk. destruct r as [a|e].
  - destruct (Hk a) as [r' Hk']. exists r'. intros w. unfold bind.
    destruct (Hm w) as [H1 H2]. destruct (m w) as [w1 r1]. simpl in *. subst r1.
    destruct (Hk' w1) as [H3 H4]. split; congruence.
  - exists (Raise e). intros w. unfold bind.
    destruct (Hm w) as [H1 H2]. destruct (m w) as [w1 r1]. simpl in *. subst r1.
    auto.
Qed.

Lemma stateless_for_each {A} (l : list A) (body : A -> M jpeg unit) :
  (forall a, stateless (body a)) -> stateless (for_each jpeg l body).
Proof.
  intros H. induction l as [|a l IH]; simpl.
  - exists (Ok tt). intros w. auto.
  - apply stateless_bind; auto.
Qed.

Lemma stateless_save img path : stateless (save img path).
Proof.
  unfold _save_jpg. apply stateless_bind; [apply stateless_lift|]. intros x.
  apply stateless_bind; [apply stateless_lift|]. intros j.
  exists (Ok tt). intros w. auto.
Qed.

Lemma stateless_extract p : stateless (extract p).
Proof.
  unfold extract_from_mat.
  apply stateless_bind; [apply stateless_lift|]. intros mat.
  apply stateless_bind; [apply stateless_lift|]. intros ic.
  apply stateless_bind; [apply stateless_lift|]. intros frames.
  unfold save_frames. destruct (List.length frames <? 5); [apply stateless_lift|].
  apply stateless_bind; [exists (Ok tt); intros w; auto|]. intros _.
  apply stateless_for_each. intros i.
  apply stateless_bind; [apply stateless_lift|]. intros f.
  apply stateless_save.
Qed.

Lemma extract_outcome p w :
  snd (extract p w) = outcome' p /\ stdout jpeg (fst (extract p w)) = stdout jpeg w.
Proof.
  destruct (stateless_extract p) as [r H]. unfold outcome.
  destruct (H w) as [H1 H2], (H (empty_world jpeg)) as [H3 _]. split; congruence.
Qed.

(** ** The batch driver *)

Local Abbreviation main_loop' := (main_loop invalid_cast no_loop_msg jpeg pil_save read_mat).
Local Abbreviation main_step' := (main_step invalid_cast no_loop_msg jpeg pil_save read_mat).
Local Abbreviation main' := (main invalid_cast no_loop_msg jpeg pil_save read_mat).

Lemma main_step_eq total p w :
  let w1 := fst (extract p w) in
  main_step' total p w =
  (World jpeg (files jpeg w1) (dirs jpeg w1) (stdout jpeg w ++ [log_line' p]),
   if succeeded' p then total + 5 else total).
Proof.
  unfold main_step, log_line, succeeded. destruct (extract_outcome p w) as [H1 H2].
  destruct (extract p w) as [w1 r]. simpl in *. rewrite <- H1.
  destruct r as [[]|e]; simpl; rewrite H2; reflexivity.
Qed.

(** *** Claim C6 *)

(** C6. The driver handles the files in order; for each it prints one
    line, [[OK] <name> ...] when the extraction succeeded and
    [[ERRO] <name>: <message>] with the message of the exception when it
    raised, and goes on with the next file either way; the total grows by 5
    for each file whose extraction succeeded and by nothing for the
    others.  [main] then prints the total and the output directory. *)
Theorem batch_driver_continues (mats : list Path) (total : nat) (w : world jpeg) :
  stdout jpeg (fst (main_loop' mats total w)) = stdout jpeg w ++ map log_line' mats
  /\ snd (main_loop' mats total w) = total + 5 * List.length (filter succeeded' mats)
  /\ (forall input_dir,
        glob_mats input_dir = mats -> mats <> [] ->
        snd (main' input_dir w) = Done /\
        stdout jpeg (fst (main' input_dir w)) =
        stdout jpeg w ++ map log_line' mats
        ++ [(String newline "Concluído. Total extraído: "
             ++ str_of_nat (5 * List.length (filter succeeded' mats)) ++ " imagens")%string;
            ("Saída: " ++ OUTPUT_DIR)%string]).
Proof.
  assert (L : forall mats total w,
    stdout jpeg (fst (main_loop' mats total w)) = stdout jpeg w ++ map log_line' mats
    /\ snd (main_loop' mats total w) = total + 5 * List.length (filter succeeded' mats)).
  { clear. induction mats as [|p mats IH]; intros total w; simpl.
    - rewrite app_nil_r. split; auto.
    - pose proof (main_step_eq total p w) as E. cbv zeta in E. rewrite E.
      match goal with |- context [main_loop' mats ?t ?w1] =>
        destruct (IH t w1) as [H1 H2] end.
      rewrite H1, H2. cbn [stdout]. rewrite <- app_assoc. split; auto.
      destruct (succeeded' p); simpl; lia. }
  destruct (L mats total w) as [L1 L2]. split; [exact L1|split; [exact L2|]].
  intros input_dir Hg Hne. destruct (L mats 0 w) as [M1 M2].
  unfold main. rewrite Hg. destruct mats as [|p r]; [congruence|].
  destruct (main_loop' (p :: r) 0 w) as [w1 t] eqn:E. cbn [fst snd] in M1, M2.
  split; [reflexivity|].
  unfold print. cbn [fst stdout]. rewrite M1, M2, <- !app_assoc. reflexivity.
Qed.

End Writes.

(** ** Loading the container *)

Section Loading.

Variable read_mat : Path -> result Scipy.matfile.

Local Open Scope nat_scope.

Import Scipy.

(** *** Claim C8, as the code has it *)

(** C8 (amended). The container is loaded with [squeeze_me=True] and
    [struct_as_record=False]: every axis of size one is dropped, so a 1 x n
    cell array (n > 1) loads as a 1-dimensional array of its n items and a
    cell array of a single element loads as that element itself, not as a
    container; it is with [squeeze_me=False] that cell arrays keep their
    stored shape. *)
Theorem loadmat_squeezes_unit_dimensions :
  squeeze_me loadmat_args = true
  /\ struct_as_record loadmat_args = false
  /\ (forall p f, read_mat p = Ok f ->
        load read_mat p = Ok (loadmat f (Kwargs true false)))
  /\ (forall n items, 1 < n ->
        load_value loadmat_args (MCell [1; n] items)
        = ObjArray [n] (map (load_atom loadmat_args) items))
  /\ (forall x,
        load_value loadmat_args (MCell [1; 1] [x])
        = Num (load_atom loadmat_args x))
  /\ keeps_containers (Kwargs false false).
Proof.
  repeat split.
  - intros p f H. unfold load. now rewrite H.
  - intros n items Hn. unfold load_value, loadmat_args. cbn [squeeze_me].
    destruct n as [|[|n]]; try lia. reflexivity.
  - intros sh items. exists (map (load_atom (Kwargs false false)) items).
    split; [reflexivity|apply length_map].
Qed.

End Loading.

(** * Further properties of the code *)


(** ** Discovery of the files *)

Section Discovery.

Local Open Scope nat_scope.
Local Open Scope list_scope.

Lemma prefix_app p n : prefix p n = true -> exists r, n = (p ++ r)%string.
Proof.
  intros H. apply prefix_correct in H.
  destruct (Nat.le_gt_cases (String.length p) (String.length n)) as [L|L].
  - exists (substring (String.length p) (String.length n - String.length p) n).
    rewrite <- H at 1. now apply substring_split.
  - exfalso. revert n H L. induction p as [|c p IH]; intros [|d n] H L; simpl in *; try lia.
    + discriminate.
    + inversion H. apply (IH n); auto. lia.
Qed.

Lemma substring_skip_add s t k m :
  substring (String.length s + k) m (s ++ t) = substring k m t.
Proof. induction s; simpl; auto. Qed.

Lemma FILE_GLOB_spec (n : string) :
  FILE_GLOB n = true <-> exists mid, glob_name n mid.
Proof.
  unfold FILE_GLOB, glob_name. split.
  - intros H. apply andb_prop in H. destruct H as [H H3].
    apply andb_prop in H. destruct H as [H1 H2].
    apply prefix_app in H1. destruct H1 as [r ->].
    apply Nat.leb_le in H2. apply String.eqb_eq in H3.
    rewrite str_length_app in H2, H3. simpl String.length in H2, H3.
    replace (5 + String.length r - 4) with (String.length "Chip_" + (String.length r - 4))
      in H3 by (simpl; lia).
    rewrite substring_skip_add in H3.
    exists (substring 0 (String.length r - 4) r). f_equal.
    rewrite (substring_split r (String.length r - 4)) at 1 by lia.
    f_equal. replace (String.length r - (String.length r - 4)) with 4 by lia. exact H3.
  - intros [mid ->]. apply andb_true_intro. split; [apply andb_true_intro; split|].
    + apply prefix_correct, substring_0_app.
    + apply Nat.leb_le. rewrite !str_length_app. simpl. lia.
    + apply String.eqb_eq. rewrite <- str_app_assoc.
      rewrite !str_length_app. simpl String.length.
      replace (5 + String.length mid + 4 - 4) with (String.length ("Chip_" ++ mid) + 0)
        by (rewrite str_length_app; simpl; lia).
      now rewrite substring_skip_add.
Qed.

(** X1. The glob [Chip_*.mat] accepts a name exactly when it is [Chip_],
    any text (possibly empty), then [.mat], in that case; such a name has
    at least 9 characters and does not end with a newline. *)
Theorem glob_accepts (n : string) :
  (FILE_GLOB n = true <-> exists mid, glob_name n mid)
  /\ (FILE_GLOB n = true -> 9 <= String.length n /\ ~ ends_with_newline n).
Proof.
  split; [apply FILE_GLOB_spec|].
  intros H. apply FILE_GLOB_spec in H. destruct H as [mid H].
  unfold glob_name in H. subst n. split.
  - rewrite !str_length_app. simpl. lia.
  - intros [n' E]. apply (f_equal str_last) in E.
    rewrite <- str_app_assoc in E.
    rewrite (str_last_app ("Chip_" ++ mid) ".mat"), (str_last_app n') in E
      by discriminate.
    discriminate E.
Qed.

Lemma insert_sorted_perm n l : Permutation (insert_sorted n l) (n :: l).
Proof.
  induction l as [|m l IH]; simpl; auto.
  destruct (String.leb n m); auto.
  rewrite IH. apply perm_swap.
Qed.


Lemma sorted_perm l : Permutation (sorted l) l.
Proof.
  unfold sorted. induction l as [|n l IH]; simpl; auto.
  rewrite insert_sorted_perm. now constructor.
Qed.


Lemma glob_mats_sorted_names (input_dir : list string) :
  Permutation (map name (glob_mats input_dir)) (filter FILE_GLOB input_dir)
  /\ (forall p, In p (glob_mats input_dir) -> FILE_GLOB (name p) = true).
Proof.
  unfold glob_mats. split.
  - rewrite map_map. simpl. rewrite map_id. apply sorted_perm.
  - intros p Hp. apply in_map_iff in Hp. destruct Hp as (n & <- & Hn). simpl.
    apply (Permutation_in _ (sorted_perm _)) in Hn. apply filter_In in Hn. tauto.
Qed.


End Discovery.

(** ** Names of the images *)

Section OutputNames.

Local Open Scope nat_scope.

Lemma rfind_dot_none s : forall i, contains "." s = false -> rfind_dot s i = None.
Proof.
  induction s as [|c s IH]; intros i H; simpl in *; auto.
  apply orb_false_iff in H. destruct H as [H1 H2].
  now rewrite (IH (S i) H2), H1.
Qed.

Lemma rfind_dot_app s ext : forall i,
  contains "." ext = false ->
  rfind_dot (s ++ String "." ext) i = Some (i + String.length s).
Proof.
  induction s as [|c s IH]; intros i H.
  - cbn [append rfind_dot]. rewrite (rfind_dot_none ext (S i) H).
    rewrite Ascii.eqb_refl. simpl. f_equal. lia.
  - cbn [append rfind_dot]. rewrite (IH (S i) H). simpl. f_equal. lia.
Qed.

(** The stem of [<base>.mat] is [<base>]. *)
Lemma stem_mat d base :
  base <> EmptyString -> stem (MkPath d (base ++ ".mat")) = base.
Proof.
  intros Hb. unfold stem. cbn [name].
  rewrite (rfind_dot_app base "mat" 0 eq_refl). cbn [Nat.add].
  rewrite str_length_app. simpl String.length.
  assert (L : 0 < String.length base) by (destruct base; simpl; [congruence|lia]).
  assert (E1 : (0 <? String.length base) = true) by now apply Nat.ltb_lt.
  assert (E2 : (String.length base <? String.length base + 4 - 1) = true)
    by (apply Nat.ltb_lt; lia).
  rewrite E1, E2. simpl andb. cbv iota. apply substring_0_app.
Qed.

Lemma str_last_mat x : str_last (x ++ ".mat") = Some "t"%char.
Proof. rewrite str_last_app by discriminate. reflexivity. Qed.

(** No run of digits begins with a letter C. *)
Lemma all_digits_Chip m : all_digits ("Chip_" ++ m) = false.
Proof. reflexivity. Qed.

Lemma digits_app_inv ds : digits ds -> forall x, digits (ds ++ x) -> digits x.
Proof.
  induction 1 as [|s r Hd Hr IH]; intros x Hx; auto.
  pose proof (digit_app _ _ x Hd) as E.
  inversion Hx as [E0|s' r' Hd' Hr']; subst.
  - rewrite <- E0 in E. discriminate E.
  - rewrite E in Hd'. inversion Hd'; subst. auto.
Qed.

(** The digits that [\d+] takes from [<mid>.mat] are digits of [<mid>]. *)
Lemma digits_prefix_mat ds : digits ds -> forall mid tl,
  (mid ++ ".mat" = ds ++ tl)%string ->
  exists x, mid = (ds ++ x)%string /\ tl = (x ++ ".mat")%string.
Proof.
  induction 1 as [|s r Hd Hr IH]; intros mid tl E.
  - exists mid. auto.
  - pose proof (digit_app _ _ tl Hd) as E1. rewrite <- E in E1.
    destruct mid as [|a mid]; [discriminate E1|].
    apply digit_app_ascii in E1; [|discriminate|reflexivity].
    destruct E1 as (r0 & Hr0 & Er).
    destruct (IH r0 tl (eq_sym Er)) as (x & -> & ->).
    exists x. split; auto.
    destruct (digits_split _ _ Hd) as (d & -> & _).
    destruct (digits_split _ _ Hr0) as (d0 & E0 & _).
    rewrite E0 in E. rewrite !str_app_assoc in E.
    apply str_app_inv_len in E; [|reflexivity]. destruct E as [E _].
    rewrite E0, E. now rewrite !str_app_assoc.
Qed.

(** After text that does not consist of digits, [\.mat$] cannot match
    [<x>.mat]: what is left after four characters ends with a t. *)
Lemma no_match_after x c :
  match match_literal_ci ".mat" (String c x ++ ".mat") with
  | Some r3 => at_dollar r3
  | None => false
  end = false.
Proof.
  destruct (match_literal_ci ".mat" (String c x ++ ".mat")) as [r3|] eqn:E; auto.
  apply match_literal_ci_some in E. destruct E as (pre & E & Hc).
  apply ci_match_mat, ci_eq_length in Hc. simpl in Hc.
  assert (L : String.length r3 = S (String.length x)).
  { apply (f_equal String.length) in E.
    change (String c x ++ ".mat")%string with (String c (x ++ ".mat")) in E.
    cbn [String.length] in E. rewrite !str_length_app in E.
    cbn [String.length] in E. lia. }
  assert (Hl : str_last r3 = Some "t"%char).
  { rewrite <- (str_last_app pre r3) by (destruct r3; [discriminate|discriminate]).
    rewrite <- E. apply (str_last_mat (String c x)). }
  destruct (at_dollar r3) eqn:D; auto.
  apply at_dollar_spec in D. destruct D as [->| ->]; discriminate.
Qed.

Lemma CHIP_RE_glob mid :
  CHIP_RE ("Chip_" ++ mid ++ ".mat") =
  if all_digits mid && negb (String.eqb mid EmptyString) then Some mid else None.
Proof.
  unfold CHIP_RE.
  assert (E1 : match_literal_ci "Chip_" ("Chip_" ++ mid ++ ".mat") = Some (mid ++ ".mat")%string).
  { apply match_literal_ci_some. exists "Chip_"%string. split; auto.
    apply ci_eq_match; [apply ci_eq_refl|]. repeat constructor. }
  rewrite E1. destruct (span_digits (mid ++ ".mat")) as [ds tl] eqn:Es.
  apply span_digits_spec in Es. destruct Es as (E & Hd & Hn).
  destruct (digits_prefix_mat ds Hd mid tl E) as (x & -> & ->).
  destruct x as [|c x].
  - rewrite str_app_nil_r.
    replace (all_digits ds) with true by (symmetry; now apply all_digits_digits).
    destruct ds as [|c ds]; reflexivity.
  - assert (Hall : all_digits (ds ++ String c x) = false).
    { destruct (all_digits (ds ++ String c x)) eqn:A; auto.
      apply all_digits_digits in A. apply (digits_app_inv ds Hd) in A.
      inversion A as [|s r Hs Hr]; subst.
      apply (digit_app _ _ ".mat") in Hs. congruence. }
    rewrite Hall. cbn [andb]. destruct ds as [|d ds]; auto.
    pose proof (no_match_after x c) as N.
    destruct (match_literal_ci ".mat" (String c x ++ ".mat")); auto.
    now rewrite N.
Qed.

(** X3. For a name the glob accepts, [Chip_<mid>.mat], the identifier is
    [<mid>] when it is a non-empty run of decimal digits (of any script, as
    [\d] takes them), and [Chip_<mid>] (the stem) otherwise. *)
Theorem chip_id_of_glob_name (d n mid : string) (Hn : glob_name n mid) :
  chip_id (MkPath d n) =
  if all_digits mid && negb (String.eqb mid EmptyString) then mid
  else ("Chip_" ++ mid)%string.
Proof.
  unfold glob_name in Hn. subst n. unfold chip_id. cbn [name].
  rewrite CHIP_RE_glob.
  destruct (all_digits mid && negb (String.eqb mid EmptyString)); auto.
  rewrite <- str_app_assoc. apply stem_mat. discriminate.
Qed.

Lemma chip_id_glob_inj d1 d2 n1 n2 :
  FILE_GLOB n1 = true -> FILE_GLOB n2 = true ->
  chip_id (MkPath d1 n1) = chip_id (MkPath d2 n2) -> n1 = n2.
Proof.
  intros G1 G2. apply FILE_GLOB_spec in G1, G2.
  destruct G1 as [m1 H1], G2 as [m2 H2].
  unfold chip_id. unfold glob_name in H1, H2. subst n1 n2. cbn [name].
  rewrite !CHIP_RE_glob, <- !str_app_assoc, !stem_mat by discriminate.
  destruct (all_digits m1 && negb (String.eqb m1 EmptyString)) eqn:E1,
           (all_digits m2 && negb (String.eqb m2 EmptyString)) eqn:E2; intros H.
  - now subst.
  - subst m1. now rewrite all_digits_Chip in E1.
  - subst m2. now rewrite all_digits_Chip in E2.
  - apply str_app_inv_l in H. now subst.
Qed.

Lemma out_path_inj p1 p2 i j :
  In i (seq 1 5) -> In j (seq 1 5) ->
  path_str (out_path p1 i) = path_str (out_path p2 j) ->
  chip_id p1 = chip_id p2 /\ i = j.
Proof.
  intros Hi Hj H. unfold out_path, path_join, path_str, out_name in H.
  cbn [parent name] in H. apply str_app_inv_l in H.
  generalize dependent (chip_id p2). generalize dependent (chip_id p1).
  intros c1 c2 H. simpl in Hi, Hj.
  repeat (destruct Hi as [<-|Hi]); try (now destruct Hi);
    repeat (destruct Hj as [<-|Hj]); try (now destruct Hj);
    vm_compute in H; injection H as H;
    apply str_app_inv_len in H; try reflexivity;
    destruct H as [Hc Ht]; split; try exact Hc; try reflexivity; discriminate Ht.
Qed.

Lemma out_paths_nodup (p : Path) : NoDup (out_paths p).
Proof.
  unfold out_paths.
  assert (H : forall l, NoDup l -> (forall i, In i l -> In i (seq 1 5)) ->
            NoDup (map (fun i => path_str (out_path p i)) l)).
  { induction 1 as [|i l Hni Hnd IH]; intros Hin; simpl; constructor.
    - intros Hc. apply in_map_iff in Hc. destruct Hc as (j & Hj & Hjl).
      assert (E : j = i).
      { apply (out_path_inj p p j i); auto; apply Hin; [now right|now left]. }
      subst. contradiction.
    - apply IH. intros k Hk. apply Hin. now right. }
  apply H; auto. apply seq_NoDup.
Qed.

(** X4. The five images of a file go to five different paths, each of the
    form [OUTPUT_DIR/imagem_<chip id>_<i>.jpg] with i from 1 to 5. *)
Theorem out_paths_distinct (p : Path) :
  NoDup (out_paths p)
  /\ List.length (out_paths p) = 5
  /\ forall x, In x (out_paths p) <->
       exists i, 1 <= i <= 5
                 /\ x = (OUTPUT_DIR ++ "/imagem_" ++ chip_id p ++ "_"
                         ++ str_of_nat i ++ ".jpg")%string.
Proof.
  split; [apply out_paths_nodup|split; [reflexivity|]].
  intros x. unfold out_paths. rewrite in_map_iff. split.
  - intros (i & <- & Hi). apply in_seq in Hi. exists i. split; [lia|reflexivity].
  - intros (i & Hi & ->). exists i. split; [reflexivity|]. apply in_seq. lia.
Qed.

(** X5. Two different files that [main] handles never write to the same
    path. *)
Theorem batch_outputs_disjoint (d1 d2 n1 n2 : string) (i j : nat)
  (G1 : FILE_GLOB n1 = true) (G2 : FILE_GLOB n2 = true)
  (Hi : In i (seq 1 5)) (Hj : In j (seq 1 5))
  (Hp : path_str (out_path (MkPath d1 n1) i) = path_str (out_path (MkPath d2 n2) j)) :
  n1 = n2 /\ i = j.
Proof.
  destruct (out_path_inj _ _ i j Hi Hj Hp) as [Hc Hij]. split; auto.
  now apply (chip_id_glob_inj d1 d2).
Qed.

End OutputNames.

(** ** The identifier and the names of the five images *)

Section ChipNames.

Variable invalid_cast : Z.
Variable no_loop_msg : string.
Variable jpeg : Type.
Variable pil_save : ndarray -> result jpeg.
Variable read_mat : Path -> result Scipy.matfile.

Local Open Scope nat_scope.
Local Open Scope list_scope.

Local Abbreviation extract := (extract_from_mat invalid_cast no_loop_msg jpeg pil_save read_mat).
Local Abbreviation valid := (valid_mat invalid_cast no_loop_msg jpeg pil_save read_mat).

(** *** Claim C5 *)

(** C5. For a file with a valid container of at least 5 frames, the
    extraction adds exactly 5 files, [imagem_<chip_id>_<i>.jpg] for i = 1 to
    5 in the output directory, holding frames 1 to 5.  The identifier is the
    group of digits when the name is [Chip_<digits>.mat], letters in either
    case; for every other name that the glob of [main] accepts it is the
    stem of the name. *)
Theorem chip_output_names (p : Path) (js : list jpeg) (w : world jpeg)
  (Hvalid : valid p js) :
  (exists ds,
     extract p w =
     (World jpeg
        (files jpeg w
         ++ map (fun ij =>
                   ((OUTPUT_DIR ++ "/imagem_" ++ chip_id p ++ "_"
                     ++ str_of_nat (fst ij) ++ ".jpg")%string, snd ij))
              (combine (seq 1 5) js))
        ds (stdout jpeg w), Ok tt)
     /\ List.length js = 5)
  /\ (forall ds, chip_name (name p) ds -> chip_id p = ds)
  /\ (FILE_GLOB (name p) = true ->
      (forall ds, ~ chip_name (name p) ds) -> chip_id p = stem p).
Proof.
  split; [|split].
  - destruct (extract_valid invalid_cast no_loop_msg jpeg pil_save read_mat p js w Hvalid)
      as (ds & E & Hl).
    exists ds. split; [|exact Hl]. rewrite E. reflexivity.
  - intros ds. apply chip_id_of_chip_name.
  - intros Hg Hno. apply FILE_GLOB_spec in Hg. destruct Hg as [mid Hn].
    unfold glob_name in Hn. unfold chip_id. rewrite Hn, CHIP_RE_glob.
    destruct (all_digits mid && negb (String.eqb mid EmptyString)) eqn:E; [|reflexivity].
    exfalso. apply andb_prop in E. destruct E as [Hd Hne].
    apply (Hno mid). exists "Chip_"%string, ".mat"%string.
    split; [exact Hn|]. split; [apply ci_eq_refl|]. split; [apply ci_eq_refl|].
    split; [|exact Hd].
    intros ->. discriminate Hne.
Qed.

End ChipNames.

(** ** What an extraction writes *)

Section Appends.

Variable invalid_cast : Z.
Variable no_loop_msg : string.
Variable jpeg : Type.
Variable pil_save : ndarray -> result jpeg.
Variable read_mat : Path -> result Scipy.matfile.

Local Open Scope nat_scope.
Local Open Scope list_scope.

Local Abbreviation extract := (extract_from_mat invalid_cast no_loop_msg jpeg pil_save read_mat).
Local Abbreviation save_all := (save_frames invalid_cast no_loop_msg jpeg pil_save).
Local Abbreviation save := (_save_jpg invalid_cast no_loop_msg jpeg pil_save).
Local Abbreviation encoded' := (encoded invalid_cast no_loop_msg jpeg pil_save).
Local Abbreviation frames_for' := (frames_for read_mat).
Local Abbreviation validated' := (validated read_mat).
Local Abbreviation succeeded' := (succeeded invalid_cast no_loop_msg jpeg pil_save read_mat).
Local Abbreviation main_loop' := (main_loop invalid_cast no_loop_msg jpeg pil_save read_mat).
Local Abbreviation main' := (main invalid_cast no_loop_msg jpeg pil_save read_mat).

Lemma extract_frames_for p w :
  extract p w =
  match frames_for' p with
  | Ok frames => save_all p frames w
  | Raise e => (w, Raise e)
  end.
Proof.
  unfold extract_from_mat, frames_for, bind, lift.
  destruct (load read_mat p) as [mat|e]; simpl; auto.
  destruct (find_icolor mat) as [ic|e]; simpl; auto.
Qed.

Local Abbreviation loop_body p frames :=
  (fun i : nat =>
     bind jpeg (lift jpeg (frame_at frames (i - 1)))
       (fun f => save (asarray f) (out_path p i))).

Lemma loop_body_eq p frames i w :
  loop_body p frames i w =
  match frame_at frames (i - 1) with
  | Ok f =>
      match encoded' f with
      | Ok j =>
          (World jpeg (files jpeg w ++ [(path_str (out_path p i), j)])
             (dirs jpeg w) (stdout jpeg w), Ok tt)
      | Raise e => (w, Raise e)
      end
  | Raise e => (w, Raise e)
  end.
Proof.
  unfold bind, lift. destruct (frame_at frames (i - 1)); [apply save_jpg_eq|reflexivity].
Qed.

(** The loop of lines 79-82 over any list of indices: it appends one file
    per index, in order, up to the first frame that fails. *)
Lemma loop_appends p frames idx : forall w,
  let r := for_each jpeg idx (loop_body p frames) w in
  exists new,
    files jpeg (fst r) = files jpeg w ++ new
    /\ dirs jpeg (fst r) = dirs jpeg w
    /\ stdout jpeg (fst r) = stdout jpeg w
    /\ map fst new
       = firstn (List.length new) (map (fun i => path_str (out_path p i)) idx)
    /\ (snd r = Ok tt -> List.length new = List.length idx)
    /\ ((exists e, snd r = Raise e) -> List.length new < List.length idx).
Proof.
  induction idx as [|i idx IH]; intros w; cbv zeta.
  - exists []. simpl. rewrite app_nil_r. repeat split; auto.
    intros [e H]. discriminate.
  - assert (E : for_each jpeg (i :: idx) (loop_body p frames) w =
                match frame_at frames (i - 1) with
                | Ok f =>
                    match encoded' f with
                    | Ok j =>
                        for_each jpeg idx (loop_body p frames)
                          (World jpeg (files jpeg w ++ [(path_str (out_path p i), j)])
                             (dirs jpeg w) (stdout jpeg w))
                    | Raise e => (w, Raise e)
                    end
                | Raise e => (w, Raise e)
                end).
    { cbn [for_each]. unfold bind at 1. rewrite loop_body_eq.
      destruct (frame_at frames (i - 1)) as [f|e]; auto.
      destruct (encoded' f); auto. }
    rewrite E. clear E.
    destruct (frame_at frames (i - 1)) as [f|e].
    + destruct (encoded' f) as [j|e].
      * specialize (IH (World jpeg (files jpeg w ++ [(path_str (out_path p i), j)])
                          (dirs jpeg w) (stdout jpeg w))).
        cbv zeta in IH. destruct IH as (new & H1 & H2 & H3 & H4 & H5 & H6).
        cbn [files dirs stdout] in H1, H2, H3.
        exists ((path_str (out_path p i), j) :: new).
        rewrite H1, H2, H3, <- app_assoc. cbn [List.length map firstn fst app].
        rewrite H4. repeat split; auto; intros H;
          first [ now rewrite (H5 H) | apply H6 in H; lia ].
      * exists []. simpl. rewrite app_nil_r. repeat split; auto.
        -- discriminate.
        -- intros _. lia.
    + exists []. simpl. rewrite app_nil_r. repeat split; auto.
      * discriminate.
      * intros _. lia.
Qed.

(** What one extraction does to the state. *)
Lemma extract_files p w :
  exists new,
    files jpeg (fst (extract p w)) = files jpeg w ++ new
    /\ stdout jpeg (fst (extract p w)) = stdout jpeg w
    /\ map fst new = firstn (List.length new) (out_paths p)
    /\ (snd (extract p w) = Ok tt -> List.length new = 5)
    /\ ((exists e, snd (extract p w) = Raise e) -> List.length new < 5).
Proof.
  rewrite extract_frames_for. destruct (frames_for' p) as [frames|e].
  - unfold save_frames. destruct (List.length frames <? 5).
    + exists []. simpl. rewrite app_nil_r. repeat split; auto.
      * discriminate.
      * intros _. lia.
    + unfold bind at 1. unfold mkdir at 1.
      pose proof (loop_appends p frames (seq 1 5)
                    (World jpeg (files jpeg w)
                       (if existsb (String.eqb OUTPUT_DIR) (dirs jpeg w)
                        then dirs jpeg w else dirs jpeg w ++ [OUTPUT_DIR])
                       (stdout jpeg w))) as L.
      cbv zeta in L. destruct L as (new & H1 & H2 & H3 & H4 & H5 & H6).
      cbn [files dirs stdout] in H1, H2, H3.
      exists new. repeat split; auto.
  - exists []. simpl. rewrite app_nil_r. repeat split; auto.
    + discriminate.
    + intros _. lia.
Qed.

(** X6. An extraction only appends: the files that were there stay, nothing
    is printed, and the files it adds are the first k of the five paths of
    the file, in order, with k = 5 exactly when it succeeds. *)
Theorem extract_appends_in_order (p : Path) (w : world jpeg) :
  exists new,
    files jpeg (fst (extract p w)) = files jpeg w ++ new
    /\ stdout jpeg (fst (extract p w)) = stdout jpeg w
    /\ map fst new = firstn (List.length new) (out_paths p)
    /\ List.length new <= 5
    /\ (snd (extract p w) = Ok tt <-> List.length new = 5).
Proof.
  destruct (extract_files p w) as (new & H1 & H2 & H3 & H4 & H5).
  exists new. repeat split; auto.
  - destruct (snd (extract p w)) as [[]|e] eqn:E.
    + rewrite H4; auto.
    + assert (List.length new < 5) by (apply H5; eauto). lia.
  - intros L. destruct (snd (extract p w)) as [[]|e] eqn:E; auto.
    assert (List.length new < 5) by (apply H5; eauto). lia.
Qed.

Lemma firstn_seq_le k : forall s n, k <= n -> firstn k (seq s n) = seq s k.
Proof.
  induction k as [|k IH]; intros s [|n] H; simpl; auto; try lia.
  f_equal. apply IH. lia.
Qed.

(** The loop stops at the first frame that does not encode, and keeps what
    it wrote before. *)
Lemma loop_stops p frames f post e : forall pre js s w,
  (forall k x, nth_error (pre ++ f :: post) k = Some x ->
     frame_at frames (s + k - 1) = Ok x) ->
  Forall2 (fun f j => encoded' f = Ok j) pre js ->
  encoded' f = Raise e ->
  for_each jpeg (seq s (List.length (pre ++ f :: post))) (loop_body p frames) w =
  (World jpeg
     (files jpeg w
      ++ combine (map (fun i => path_str (out_path p i)) (seq s (List.length pre))) js)
     (dirs jpeg w) (stdout jpeg w),
   Raise e).
Proof.
  induction pre as [|a pre IH]; intros js s w Hfr Henc He.
  - inversion Henc; subst. cbn [app List.length seq for_each map combine].
    unfold bind at 1. rewrite loop_body_eq.
    pose proof (Hfr 0 f eq_refl) as H0. rewrite Nat.add_0_r in H0.
    rewrite H0, He. rewrite app_nil_r. now destruct w.
  - inversion Henc as [|? j ? js' Ea Henc']; subst.
    cbn [app List.length seq for_each map combine].
    unfold bind at 1. rewrite loop_body_eq.
    pose proof (Hfr 0 a eq_refl) as H0. rewrite Nat.add_0_r in H0.
    rewrite H0, Ea.
    rewrite (IH js' (S s)); auto.
    + cbn [files dirs stdout]. now rewrite <- app_assoc.
    + intros k x Hk. replace (S s + k - 1) with (s + S k - 1) by lia.
      now apply Hfr.
Qed.

(** X7. When a frame fails, the images of the frames before it stay on disk
    and the error of that frame is what the extraction raises. *)
Theorem extract_keeps_partial_output
  (p : Path) (w : world jpeg) (frames pre post : list array_like)
  (f : array_like) (js : list jpeg) (e : exn)
  (Hfr : frames_for' p = Ok frames)
  (Hlen : 5 <= List.length frames)
  (Hsplit : firstn 5 frames = pre ++ f :: post)
  (Henc : Forall2 (fun f j => encoded' f = Ok j) pre js)
  (Hfail : encoded' f = Raise e) :
  snd (extract p w) = Raise e
  /\ files jpeg (fst (extract p w))
     = files jpeg w ++ combine (firstn (List.length pre) (out_paths p)) js.
Proof.
  assert (L : (List.length frames <? 5) = false) by (apply Nat.ltb_ge; exact Hlen).
  assert (L5 : List.length (pre ++ f :: post) = 5).
  { rewrite <- Hsplit. now apply firstn_length_le. }
  assert (Lp : List.length pre <= 5).
  { rewrite length_app in L5. simpl in L5. lia. }
  assert (E : exists ds,
    extract p w =
    (World jpeg
       (files jpeg w ++ combine (firstn (List.length pre) (out_paths p)) js)
       ds (stdout jpeg w), Raise e)).
  { rewrite extract_frames_for, Hfr. unfold save_frames. rewrite L.
    unfold bind at 1. unfold mkdir.
    replace (seq 1 5) with (seq 1 (List.length (pre ++ f :: post))) by now rewrite L5.
    rewrite (loop_stops p frames f post e pre js 1); auto.
    - cbn [files dirs stdout]. eexists. unfold out_paths.
      rewrite firstn_map, firstn_seq_le by exact Lp. reflexivity.
    - intros k x Hk. rewrite <- Hsplit, nth_error_firstn in Hk.
      replace (1 + k - 1) with k by lia. unfold frame_at.
      destruct (k <? 5); [now rewrite Hk|discriminate]. }
  destruct E as [ds E]. rewrite E. split; reflexivity.
Qed.

(** X8. A file that does not pass the checks leaves no trace and raises;
    one that passes them has the output directory made, whatever happens
    to its frames afterwards. *)
Theorem extract_validation (p : Path) (w : world jpeg) :
  if validated' p
  then In OUTPUT_DIR (dirs jpeg (fst (extract p w)))
  else fst (extract p w) = w /\ exists e, snd (extract p w) = Raise e.
Proof.
  unfold validated. rewrite extract_frames_for.
  destruct (frames_for' p) as [frames|e]; [|simpl; eauto].
  unfold save_frames. rewrite Nat.ltb_antisym.
  destruct (5 <=? List.length frames); cbn [negb]; [|simpl; eauto].
  unfold bind at 1. unfold mkdir at 1.
  pose proof (loop_appends p frames (seq 1 5)
                (World jpeg (files jpeg w)
                   (if existsb (String.eqb OUTPUT_DIR) (dirs jpeg w)
                    then dirs jpeg w else dirs jpeg w ++ [OUTPUT_DIR])
                   (stdout jpeg w))) as L.
  cbv zeta in L. destruct L as (new & _ & H2 & _).
  rewrite H2. cbn [dirs].
  destruct (existsb (String.eqb OUTPUT_DIR) (dirs jpeg w)) eqn:E.
  - apply existsb_exists in E. destruct E as (d & Hd & Heq).
    apply String.eqb_eq in Heq. now subst.
  - apply in_or_app. right. now left.
Qed.

(** X9. Over a whole batch nothing that was written is lost, and the number
    of files added lies between 5 per file that succeeded and 5 per file
    handled. *)
Theorem batch_keeps_files (mats : list Path) (total : nat) (w : world jpeg) :
  exists new,
    files jpeg (fst (main_loop' mats total w)) = files jpeg w ++ new
    /\ 5 * List.length (filter succeeded' mats) <= List.length new
    /\ List.length new <= 5 * List.length mats.
Proof.
  revert total w. induction mats as [|p mats IH]; intros total w.
  - exists []. simpl. now rewrite app_nil_r.
  - cbn [main_loop].
    pose proof (main_step_eq invalid_cast no_loop_msg jpeg pil_save read_mat total p w) as E.
    cbv zeta in E. rewrite E.
    destruct (extract_files p w) as (new1 & H1 & _ & _ & H4 & H5).
    match goal with |- context [main_loop' mats ?t ?w1] =>
      destruct (IH t w1) as (new2 & G1 & G2 & G3) end.
    exists (new1 ++ new2). rewrite G1. cbn [files]. rewrite H1, app_assoc.
    split; auto.
    rewrite length_app. cbn [filter List.length].
    destruct (extract_outcome invalid_cast no_loop_msg jpeg pil_save read_mat p w) as [O _].
    destruct (succeeded' p) eqn:S; unfold succeeded in S; rewrite <- O in S;
      destruct (snd (extract p w)) as [[]|e] eqn:R; try discriminate.
    + rewrite (H4 eq_refl). cbn [List.length]. lia.
    + assert (List.length new1 < 5) by (apply H5; eauto). lia.
Qed.

(** X10. [main] stops with [SystemExit], before printing or writing
    anything, exactly when no entry of the input directory matches the
    glob; otherwise it runs to the end. *)
Theorem main_exits_without_files (input_dir : list string) (w : world jpeg) :
  if existsb FILE_GLOB input_dir
  then snd (main' input_dir w) = Done
  else main' input_dir w
       = (w, SystemExit ("Nenhum arquivo .mat encontrado em " ++ INPUT_DIR)%string).
Proof.
  unfold main, glob_mats.
  destruct (existsb FILE_GLOB input_dir) eqn:E.
  - apply existsb_exists in E. destruct E as (n & Hin & Hg).
    assert (Hs : In n (sorted (filter FILE_GLOB input_dir))).
    { apply (Permutation_in _ (Permutation_sym (sorted_perm _))). now apply filter_In. }
    destruct (sorted (filter FILE_GLOB input_dir)) as [|m l]; [destruct Hs|].
    cbn [map]. now destruct (main_loop' _ 0 w).
  - assert (Hf : filter FILE_GLOB input_dir = []).
    { destruct (filter FILE_GLOB input_dir) as [|n l] eqn:F; auto.
      assert (Hn : In n (filter FILE_GLOB input_dir)) by (rewrite F; now left).
      apply filter_In in Hn. destruct Hn as [Hin Hg].
      assert (T : existsb FILE_GLOB input_dir = true)
        by (apply existsb_exists; eauto).
      congruence. }
    rewrite Hf. reflexivity.
Qed.

End Appends.



(** ** Looking a key up *)

Section Lookup.

Local Open Scope list_scope.

Lemma find_first {A} (g : A -> bool) (l : list A) (x : A) :
  find g l = Some x <->
  exists pre post, l = pre ++ x :: post /\ g x = true
                   /\ Forall (fun y => g y = false) pre.
Proof.
  induction l as [|a l IH]; simpl.
  - split; [discriminate|]. intros (pre & post & H & _). now destruct pre.
  - destruct (g a) eqn:E.
    + split.
      * intros H. inversion H; subst. exists [], l. auto.
      * intros (pre & post & H & Hx & Hpre). destruct pre as [|b pre].
        -- simpl in H. now inversion H.
        -- simpl in H. inversion H; subst. inversion Hpre; subst. congruence.
    + rewrite IH. split.
      * intros (pre & post & -> & Hx & Hpre). exists (a :: pre), post. auto.
      * intros (pre & post & H & Hx & Hpre). destruct pre as [|b pre].
        -- simpl in H. inversion H; subst. congruence.
        -- simpl in H. inversion H; subst. inversion Hpre; subst. eauto.
Qed.

(** X11. For any wanted name, [_find_key_case_insensitive] returns the first
    key, in the order of the dictionary, whose lowercase is that of the
    name, and nothing exactly when there is none; the case of the ASCII
    letters of the wanted name does not matter, and a key that differs from
    the name by the case of ASCII letters matches.  For a name in ASCII
    without the letter k these are all the keys that match; the letter k is
    also the lowercase of the Kelvin sign U+212A. *)
Theorem find_key_first_match (d : mat_dict) (wanted : string) :
  (forall k, _find_key_case_insensitive d wanted = Some k <->
     exists pre post, keys d = pre ++ k :: post /\ lower k = lower wanted
                      /\ Forall (fun k' => lower k' <> lower wanted) pre)
  /\ (_find_key_case_insensitive d wanted = None <->
      Forall (fun k' => lower k' <> lower wanted) (keys d))
  /\ (forall wanted', ci_eq wanted wanted' ->
        _find_key_case_insensitive d wanted' = _find_key_case_insensitive d wanted)
  /\ (forall k, ci_eq k wanted -> lower k = lower wanted)
  /\ (plain wanted -> forall k, lower k = lower wanted <-> ci_eq k wanted)
  /\ (forall v : pyobj,
        _find_key_case_insensitive [(encode [0x212a%N], v)] "k" = Some (encode [0x212a%N])).
Proof.
  unfold _find_key_case_insensitive.
  split; [|split; [|split; [|split; [|split]]]].
  - intros k. rewrite find_first. split;
      intros (pre & post & H & Hk & Hpre); exists pre, post;
      (split; [exact H|split]).
    + now apply String.eqb_eq.
    + eapply Forall_impl; [|exact Hpre]. intros a Ha Hc.
      cbv beta in Ha. rewrite Hc, String.eqb_refl in Ha. discriminate.
    + now apply String.eqb_eq.
    + eapply Forall_impl; [|exact Hpre]. intros a Ha. cbv beta.
      now apply String.eqb_neq.
  - split.
    + intros H. apply Forall_forall. intros k Hin Hc.
      pose proof (find_none _ _ H k Hin) as E. cbv beta in E.
      rewrite Hc, String.eqb_refl in E. discriminate.
    + intros H. destruct (find _ (keys d)) as [k|] eqn:E; auto.
      apply find_some in E. destruct E as [Hin E]. apply String.eqb_eq in E.
      rewrite Forall_forall in H. now apply H in Hin.
  - intros wanted' Hc. apply lower_ci in Hc. now rewrite Hc.
  - intros k Hc. now apply lower_ci.
  - intros Hp k. now apply lower_plain.
  - intros v. vm_compute. reflexivity.
Qed.

End Lookup.

(** ** More on the pixel format *)

Section PixelFormat.

Variable invalid_cast : Z.
Variable no_loop_msg : string.

Local Open Scope Z_scope.
Local Open Scope list_scope.

Import FloatOrder NanMax.

Local Abbreviation to_uint8 := (_to_uint8 invalid_cast no_loop_msg).
Local Abbreviation to_jpg := (jpg_array invalid_cast no_loop_msg).
Local Abbreviation cast := (float_to_uint8 invalid_cast).

#[local] Arguments of_Z : simpl never.
#[local] Arguments mul_255 : simpl never.
#[local] Arguments clip_float : simpl never.

(** The shape of the result of [_to_uint8]. *)
Lemma to_uint8_result img u :
  to_uint8 img = Ok u ->
  exists vs, u = NdArray (shape img) (Ints UInt8 vs)
             /\ List.length vs = buf_length (buf img)
             /\ Forall (fun v => 0 <= v <= 255) vs.
Proof.
  unfold _to_uint8. destruct img as [sh b]. cbn [buf shape].
  destruct b as [d vs|f vs|vs]; cbn [rbind clip_astype_uint8 buf shape buf_length].
  - intros H. inversion H. eexists. split; [reflexivity|].
    split; [apply length_map|]. apply Forall_map_all. intros v. apply mod_256_range.
  - destruct (nanmax vs) as [m|e]; cbn [rbind]; [|discriminate].
    destruct (SFleb m (of_Z f 1)); cbn [rbind clip_astype_uint8 buf shape];
      intros H; inversion H; (eexists; split; [reflexivity|]);
      (split; [now rewrite ?length_map|]);
      apply Forall_map_all; intros v; unfold float_to_uint8;
      destruct (trunc _); apply mod_256_range.
  - discriminate.
Qed.

(** X12. [_to_uint8] is idempotent: converting its result again gives the
    same array. *)
Theorem to_uint8_idempotent (img u : ndarray) (H : to_uint8 img = Ok u) :
  to_uint8 u = Ok u.
Proof.
  destruct (to_uint8_result img u H) as (vs & -> & _ & Hr).
  unfold _to_uint8. cbn [buf shape rbind clip_astype_uint8].
  do 3 f_equal. rewrite <- (map_id vs) at 2.
  apply map_ext_in. intros v Hv. rewrite Forall_forall in Hr.
  apply clip_int_id. auto.
Qed.

Lemma fold_fmax_nan rest : forall v,
  is_nan v = true -> Forall (fun x => is_nan x = true) rest ->
  fold_left fmax rest v = S754_nan.
Proof.
  induction rest as [|a rest IH]; intros v Hv Hall; simpl.
  - now destruct v.
  - inversion Hall; subst. apply IH; auto.
    unfold fmax. destruct v, a; try discriminate. reflexivity.
Qed.

(** X13. A floating-point array that holds nothing but NaN is converted
    without an error and without scaling: each element becomes what the
    platform stores for a NaN. *)
Theorem to_uint8_all_nan (sh : list nat) (f : float_dtype) (vs : list spec_float)
  (Hne : vs <> []) (Hnan : Forall (fun x => is_nan x = true) vs) :
  to_uint8 (NdArray sh (Floats f vs))
  = Ok (NdArray sh (Ints UInt8 (map (fun _ => invalid_cast mod 256) vs))).
Proof.
  destruct vs as [|v rest]; [congruence|]. inversion Hnan as [|? ? Hv Hrest]; subst.
  unfold _to_uint8. cbn [buf shape nanmax rbind].
  rewrite (fold_fmax_nan rest v Hv Hrest). cbn [SFleb SFcompare].
  cbn [rbind clip_astype_uint8 buf shape]. do 3 f_equal.
  apply map_ext_in. intros x Hx.
  assert (Hn : is_nan x = true) by (rewrite Forall_forall in Hnan; auto).
  destruct x; try discriminate. reflexivity.
Qed.

Lemma one_lt_inf f : SFltb (of_Z f 1) (S754_infinity false) = true.
Proof. destruct f; reflexivity. Qed.

(** X14. One positive infinity in a floating-point array is enough to switch
    the scaling off, whatever the other values are; the infinity itself
    becomes 255. *)
Theorem to_uint8_infinity_not_scaled
  (sh : list nat) (f : float_dtype) (vs : list spec_float)
  (Hinf : In (S754_infinity false) vs) :
  to_uint8 (NdArray sh (Floats f vs))
  = Ok (NdArray sh (Ints UInt8
          (map (fun v => cast (clip_float (of_Z f 0) (of_Z f 255) v)) vs)))
  /\ cast (clip_float (of_Z f 0) (of_Z f 255) (S754_infinity false)) = 255.
Proof.
  split.
  - unfold _to_uint8. cbn [buf shape].
    destruct (nanmax vs) as [m|e] eqn:Hm.
    + cbn [rbind].
      assert (Hge : SFleb (S754_infinity false) m = true)
        by (apply (nanmax_ge vs m _ Hm Hinf); reflexivity).
      rewrite (SFltb_not_leb _ _ (SFltb_leb_trans _ _ _ (one_lt_inf f) Hge)).
      reflexivity.
    + destruct vs; [destruct Hinf|discriminate].
  - apply clip_cast_above. destruct f; reflexivity.
Qed.

(** X15. An array that is 2-dimensional, or 3-dimensional with a last axis
    other than 1 and a first axis other than 1, 3 and 4, reaches the
    encoder exactly as [_to_uint8] returns it. *)
Theorem jpg_array_passes_through (img : ndarray)
  (Hsh : ndim img <> 3%nat
         \/ exists h w c, shape img = [h; w; c] /\ c <> 1%nat /\ ~ In h [1; 3; 4]%nat) :
  to_jpg img = to_uint8 img.
Proof.
  unfold jpg_array. destruct (to_uint8 img) as [u|e] eqn:E; cbn [rbind]; auto.
  pose proof (to_uint8_shape invalid_cast no_loop_msg img u E) as Hs.
  assert (H1 : is_hw1 (shape u) = false).
  { rewrite Hs. unfold is_hw1. destruct Hsh as [Hn|(h & w & c & -> & Hc & _)].
    - unfold ndim in Hn. apply Nat.eqb_neq in Hn. now rewrite Hn.
    - cbn [List.length nth Nat.eqb andb]. now apply Nat.eqb_neq. }
  rewrite H1.
  assert (H2 : is_chw (shape u) = false).
  { rewrite Hs. unfold is_chw. destruct Hsh as [Hn|(h & w & c & -> & _ & Hh)].
    - unfold ndim in Hn. apply Nat.eqb_neq in Hn. now rewrite Hn.
    - cbn [List.length nth Nat.eqb andb existsb].
      assert (Hx : (Nat.eqb h 1 || (Nat.eqb h 3 || (Nat.eqb h 4 || false)))%bool = false).
      { simpl in Hh. repeat (apply orb_false_iff; split); auto;
          apply Nat.eqb_neq; intros ->; tauto. }
      now rewrite Hx. }
  now rewrite H2.
Qed.

Local Open Scope nat_scope.

(** X16. Dropping the channel axis of an (a, b, 1) image keeps every pixel
    where it is. *)
Theorem squeeze_keeps_pixels (img u : ndarray) (a b : nat)
  (Hu : to_uint8 img = Ok u)
  (Hshape : shape img = [a; b; 1])
  (Hfull : buf_length (buf img) = a * b * 1) :
  exists x, to_jpg img = Ok x /\ shape x = [a; b]
            /\ elems (buf x) = elems (buf u).
Proof.
  pose proof (to_uint8_shape invalid_cast no_loop_msg img u Hu) as Hs.
  rewrite Hshape in Hs.
  destruct (to_uint8_result img u Hu) as (vs & Eu & Hl & _).
  assert (Hlen : buf_length (buf u) = a * b * 1).
  { rewrite Eu. cbn [buf buf_length]. congruence. }
  exists (index_last_0 u). rewrite (jpg_array_eq invalid_cast no_loop_msg img u Hu).
  cbv zeta. rewrite Hs. change (is_hw1 [a; b; 1]) with true. cbv iota.
  rewrite (index_last_0_shape u a b 1 Hs).
  change (is_chw [a; b]) with false. cbv iota.
  repeat split; auto. now apply (index_last_0_elems u a b).
Qed.

(** X17. Transposing a channel-first image moves pixel (k, i, j) to
    (i, j, k) and changes no value. *)
Theorem transpose_moves_pixels (img u : ndarray) (c h w i j k : nat)
  (Hu : to_uint8 img = Ok u)
  (Hshape : shape img = [c; h; w])
  (Hc : In c [1; 3; 4]) (Hh : 32 < h) (Hw : 32 < w)
  (Hfull : buf_length (buf img) = c * h * w)
  (Hi : i < h) (Hj : j < w) (Hk : k < c) :
  exists x, to_jpg img = Ok x /\ shape x = [h; w; c]
            /\ nth_error (elems (buf x)) ((i * w + j) * c + k)
               = nth_error (elems (buf u)) (k * (h * w) + i * w + j).
Proof.
  pose proof (to_uint8_shape invalid_cast no_loop_msg img u Hu) as Hs.
  rewrite Hshape in Hs.
  destruct (to_uint8_result img u Hu) as (vs & Eu & Hl & _).
  assert (Hlen : buf_length (buf u) = c * h * w).
  { rewrite Eu. cbn [buf buf_length]. congruence. }
  exists (transpose_1_2_0 u). rewrite (jpg_array_eq invalid_cast no_loop_msg img u Hu).
  destruct (is_chw_true c h w Hc Hh Hw) as [E1 E2].
  cbv zeta. rewrite Hs, E2, Hs, E1.
  repeat split; auto.
  - now apply transpose_shape.
  - now apply transpose_elems.
Qed.

End PixelFormat.

(** ** An array in the place of the cell array *)

Section Frames.

Local Open Scope nat_scope.
Local Open Scope list_scope.

Lemma chunks_length {A} n k : forall l : list A, List.length (chunks n k l) = k.
Proof. induction k as [|k IH]; intros l; simpl; auto. Qed.

Lemma chunks_concat {A} n k : forall l : list A,
  List.length l = k * n -> List.concat (chunks n k l) = l.
Proof.
  induction k as [|k IH]; intros l H; simpl in *.
  - destruct l; [reflexivity|discriminate].
  - rewrite IH; [apply firstn_skipn|]. rewrite length_skipn. lia.
Qed.

Lemma chunks_each {A} n k : forall l : list A,
  List.length l = k * n -> Forall (fun c => List.length c = n) (chunks n k l).
Proof.
  induction k as [|k IH]; intros l H; simpl in *; constructor.
  - apply firstn_length_le. lia.
  - apply IH. rewrite length_skipn. lia.
Qed.

Lemma flat_map_concat_map {A B C} (g : A -> B) (h : B -> list C) l :
  flat_map h (map g l) = flat_map (fun a => h (g a)) l.
Proof. induction l; simpl; congruence. Qed.

Lemma flat_map_map_concat {A B} (g : A -> B) (cs : list (list A)) :
  flat_map (map g) cs = map g (List.concat cs).
Proof. induction cs as [|c cs IH]; simpl; auto. now rewrite map_app, IH. Qed.

(** X18. A numeric array met in the place of the cell array is read as one
    frame per index of its first axis: an array of shape (n, ...) gives n
    frames of the remaining shape, which put end to end are the array. *)
Theorem array_is_split_along_first_axis (a : ndarray) (n : nat) (sh : list nat)
  (Hshape : shape a = n :: sh)
  (Hfull : buf_length (buf a) = size_of (shape a)) :
  exists frames,
    frames_of (Num (Arr a)) = Ok frames
    /\ List.length frames = n
    /\ Forall (fun fr => exists x, fr = Arr x /\ shape x = sh
                                   /\ buf_length (buf x) = size_of sh) frames
    /\ flat_map (fun fr => elems (buf (asarray fr))) frames = elems (buf a).
Proof.
  rewrite Hshape in Hfull. cbn [size_of fold_right] in Hfull. fold (size_of sh) in Hfull.
  unfold frames_of, py_list, iter_array. rewrite Hshape.
  destruct (buf a) as [d vs|f vs|vs]; cbn [buf_length] in Hfull;
    (eexists; split; [reflexivity|]);
    (split; [now rewrite length_map, chunks_length|]);
    (split;
     [ apply Forall_forall; intros fr Hin; apply in_map_iff in Hin;
       destruct Hin as (c & <- & Hc); eexists; split; [reflexivity|];
       split; [reflexivity|]; cbn [buf buf_length];
       pose proof (chunks_each (size_of sh) n vs Hfull) as Hall;
       rewrite Forall_forall in Hall; now apply Hall
     | rewrite flat_map_concat_map; cbn [asarray buf elems];
       rewrite flat_map_map_concat; now rewrite chunks_concat ]).
Qed.

End Frames.

(** ** The regular expression, and a whole run *)

Section Run.

Variable invalid_cast : Z.
Variable no_loop_msg : string.
Variable jpeg : Type.
Variable pil_save : ndarray -> result jpeg.
Variable read_mat : Path -> result Scipy.matfile.

Local Open Scope nat_scope.
Local Open Scope list_scope.

Local Abbreviation extract := (extract_from_mat invalid_cast no_loop_msg jpeg pil_save read_mat).
Local Abbreviation main_loop' := (main_loop invalid_cast no_loop_msg jpeg pil_save read_mat).
Local Abbreviation main' := (main invalid_cast no_loop_msg jpeg pil_save read_mat).

(** X19. [CHIP_RE] matches a name exactly when the name is [Chip_], one or
    more decimal digits of any script, [.mat], and then nothing or one
    newline; a letter may be in either case, and an i may also be the dotted
    capital I or the dotless i; group 1 is the run of digits. *)
Theorem chip_re_accepts (n ds : string) :
  CHIP_RE n = Some ds <->
  exists pre suf tail,
    n = (pre ++ ds ++ suf ++ tail)%string
    /\ ci_match pre "Chip_" /\ ci_eq suf ".mat"
    /\ ds <> EmptyString /\ all_digits ds = true
    /\ (tail = EmptyString \/ tail = String newline EmptyString).
Proof.
  rewrite CHIP_RE_spec. split.
  - intros (pre & suf & tail & Hn & Hp & Hs & H). exists pre, suf, tail.
    split; [exact Hn|]. split; [exact Hp|]. split; [now apply ci_match_mat|exact H].
  - intros (pre & suf & tail & Hn & Hp & Hs & H). exists pre, suf, tail.
    split; [exact Hn|]. split; [exact Hp|].
    split; [apply ci_eq_match; [exact Hs|repeat constructor]|exact H].
Qed.

Lemma main_loop_paths (mats : list Path) : forall total w,
  exists ks,
    List.length ks = List.length mats
    /\ map fst (files jpeg (fst (main_loop' mats total w)))
       = map fst (files jpeg w)
         ++ List.concat (map (fun pk => firstn (snd pk) (out_paths (fst pk)))
                           (combine mats ks)).
Proof.
  induction mats as [|p mats IH]; intros total w.
  - exists []. simpl. now rewrite app_nil_r.
  - cbn [main_loop].
    pose proof (main_step_eq invalid_cast no_loop_msg jpeg pil_save read_mat total p w) as E.
    cbv zeta in E. rewrite E.
    destruct (extract_files invalid_cast no_loop_msg jpeg pil_save read_mat p w)
      as (new1 & H1 & _ & H3 & _).
    match goal with |- context [main_loop' mats ?t ?w1] =>
      destruct (IH t w1) as (ks & L & G) end.
    exists (List.length new1 :: ks). split; [simpl; congruence|].
    rewrite G. cbn [files combine map List.concat fst snd].
    rewrite H1, map_app, H3, <- app_assoc. reflexivity.
Qed.

Lemma NoDup_prefixes (mats : list Path) : forall ks,
  NoDup (map name mats) ->
  Forall (fun p => FILE_GLOB (name p) = true) mats ->
  NoDup (List.concat (map (fun pk => firstn (snd pk) (out_paths (fst pk)))
                        (combine mats ks))).
Proof.
  induction mats as [|p mats IH]; intros ks Hnd Hg; [constructor|].
  destruct ks as [|k ks]; [constructor|].
  cbn [combine map List.concat fst snd].
  inversion Hnd as [|? ? Hnin Hnd']; subst. inversion Hg as [|? ? Hp Hg']; subst.
  assert (Pre : forall q (k' : nat) x, In x (firstn k' (out_paths q)) ->
                exists i, In i (seq 1 5) /\ x = path_str (out_path q i)).
  { intros q k' x Hx.
    assert (Hx' : In x (out_paths q)).
    { rewrite <- (firstn_skipn k' (out_paths q)). apply in_or_app. now left. }
    clear Hx. rename Hx' into Hx. unfold out_paths in Hx.
    apply in_map_iff in Hx. destruct Hx as (i & <- & Hi). eauto. }
  apply NoDup_app.
  - assert (D := out_paths_nodup p).
    rewrite <- (firstn_skipn k (out_paths p)) in D. now apply NoDup_app_remove_r in D.
  - now apply IH.
  - intros x Hx Hc. apply in_concat in Hc. destruct Hc as (l & Hl & Hxl).
    apply in_map_iff in Hl. destruct Hl as ([q kq] & <- & Hq). cbn [fst snd] in Hxl.
    apply in_combine_l in Hq.
    destruct (Pre p k x Hx) as (i & Hi & ->).
    destruct (Pre q kq _ Hxl) as (j & Hj & E).
    destruct (out_path_inj p q i j Hi Hj E) as [Hc _].
    assert (Hqg : FILE_GLOB (name q) = true) by (rewrite Forall_forall in Hg'; auto).
    destruct p as [dp np], q as [dq nq]. cbn [name] in *.
    apply (chip_id_glob_inj dp dq np nq Hp Hqg) in Hc. subst.
    apply Hnin. apply in_map_iff. exists (MkPath dq nq). auto.
Qed.

(** X20. In a run over a directory whose entries have different names, no
    path is written twice: the images of one file never replace those of
    another, or one another. *)
Theorem run_writes_each_path_once (input_dir : list string) (w : world jpeg)
  (Hnames : NoDup input_dir) (Hclean : files jpeg w = []) :
  NoDup (map fst (files jpeg (fst (main' input_dir w)))).
Proof.
  assert (Hf : files jpeg (fst (main' input_dir w))
               = files jpeg (fst (main_loop' (glob_mats input_dir) 0 w))).
  { unfold main. destruct (glob_mats input_dir) as [|p r] eqn:G; [reflexivity|].
    now destruct (main_loop' (p :: r) 0 w). }
  rewrite Hf.
  destruct (main_loop_paths (glob_mats input_dir) 0 w) as (ks & _ & E).
  rewrite E, Hclean. cbn [map app].
  destruct (glob_mats_sorted_names input_dir) as [Hperm Hin].
  apply NoDup_prefixes.
  - apply (Permutation_NoDup (Permutation_sym Hperm)). now apply NoDup_filter.
  - apply Forall_forall. intros p Hp. now apply Hin.
Qed.

End Run.

(** * The theorems at sample inputs *)

Import Sample.

Local Open Scope list_scope.

Local Abbreviation u8 := (_to_uint8 0 "no loop").
Local Abbreviation to_jpg := (jpg_array 0 "no loop").
Local Abbreviation run := (extract_from_mat 0 "no loop" ndarray encoder disk).

Ltac max_of_list :=
  split; [simpl; tauto | split; [reflexivity|]];
  let x := fresh in let H := fresh in
  intros x H _; simpl in H;
  repeat (destruct H as [H|H]; [subst x; reflexivity|]); destruct H.

Ltac ci_chars :=
  repeat (apply ci_cons || apply ci_nil); unfold ci_char;
  first [ left; reflexivity
        | right; left; split; reflexivity
        | right; right; split; reflexivity ].

(** C1 at [0.5, 1.0] (scaled) and at [0.5, 2.0] (not scaled). *)
Lemma to_uint8_scales_normalized_floats_witness :
  u8 (NdArray [2%nat] (Floats Float64 [half; one]))
  = Ok (NdArray [2%nat] (Ints UInt8 [127; 255]))
  /\ u8 (NdArray [2%nat] (Floats Float64 [half; two]))
     = Ok (NdArray [2%nat] (Ints UInt8 [0; 2])).
Proof.
  split.
  - refine (proj1 (to_uint8_scales_normalized_floats 0 "no loop"
                     [2%nat] Float64 [half; one] one _) _).
    + max_of_list.
    + reflexivity.
  - refine (proj2 (to_uint8_scales_normalized_floats 0 "no loop"
                     [2%nat] Float64 [half; two] two _) _).
    + max_of_list.
    + reflexivity.
Defined.

(** C1 as it was stated, with the greatest finite value, does not hold:
    in [0.5, +inf] the greatest finite value is 0.5, at most 1.0, yet
    [np.nanmax] is +inf and the values are not multiplied by 255: 0.5
    becomes 0, where the scaled array would hold 127. *)
Lemma to_uint8_finite_maximum_not_scaled :
  is_finite_max [half; inf] half
  /\ SFleb half one = true
  /\ u8 (NdArray [2%nat] (Floats Float64 [half; inf]))
     = Ok (NdArray [2%nat] (Ints UInt8 [0; 255]))
  /\ map (fun v => float_to_uint8 0
                     (clip_float (of_Z Float64 0) (of_Z Float64 255) (mul_255 Float64 v)))
         [half; inf] = [127; 255]
  /\ ~ scales_by_finite_max 0 "no loop".
Proof.
  assert (M : is_finite_max [half; inf] half).
  { split; [simpl; tauto|]. split; [reflexivity|].
    intros x [<-|[<-|[]]] Hx; [reflexivity|discriminate Hx]. }
  split; [exact M|]. split; [reflexivity|]. split; [reflexivity|].
  split; [reflexivity|].
  intros H. specialize (H [2%nat] Float64 [half; inf] half M eq_refl).
  vm_compute in H. discriminate H.
Qed.

(** C2 at a (2, 2, 1) array and at a (3, 64, 64) array whose elements
    differ from one position to the next. *)
Lemma save_jpg_shape_correction_witness :
  (exists x, to_jpg hw1_image = Ok x /\ shape x = [2; 2]%nat /\ ndim x = 2%nat
     /\ elems (buf x) = [EInt 0; EInt 64; EInt 128; EInt 255])
  /\
  (exists x, to_jpg ramp_image = Ok x /\ shape x = [64; 64; 3]%nat
     /\ List.length (elems (buf x)) = (64 * 64 * 3)%nat
     /\ nth_error (elems (buf x)) ((1 * 64 + 2) * 3 + 1)
        = nth_error (elems (buf ramp_image)) (1 * (64 * 64) + 1 * 64 + 2)
     /\ nth_error (elems (buf ramp_image)) (1 * (64 * 64) + 1 * 64 + 2)
        = Some (EInt 66)).
Proof.
  split.
  - destruct (proj1 (save_jpg_shape_correction 0 "no loop" hw1_image hw1_image eq_refl)
                2%nat 2%nat eq_refl) as (x & E & Hs & Hn & He).
    exists x. split; [exact E|]. split; [exact Hs|]. split; [exact Hn|].
    exact (He eq_refl).
  - assert (Hu : u8 ramp_image = Ok ramp_image) by (vm_compute; reflexivity).
    destruct (proj1 (proj2 (proj2 (save_jpg_shape_correction 0 "no loop"
                                     ramp_image ramp_image Hu))) eq_refl)
      as (x & E & Hs & He).
    assert (Hfull : buf_length (buf ramp_image) = (3 * 64 * 64)%nat)
      by (vm_compute; reflexivity).
    destruct (He Hfull) as [Hlen Hpix].
    exists x. split; [exact E|]. split; [exact Hs|]. split; [exact Hlen|].
    split; [apply Hpix; lia|]. vm_compute. reflexivity.
Defined.

(** C10 at a (1, 33, 33) array. *)
Lemma save_jpg_keeps_singleton_channel_witness :
  to_jpg one_hw_image
  = Ok (transpose_1_2_0 one_hw_image)
  /\ shape (transpose_1_2_0 one_hw_image)
     = [33; 33; 1]%nat
  /\ ndim (transpose_1_2_0 one_hw_image) = 3%nat
  /\ shape (transpose_1_2_0 one_hw_image)
     <> [33; 33]%nat.
Proof.
  refine (save_jpg_keeps_singleton_channel 0 "no loop"
            one_hw_image one_hw_image 33%nat 33%nat _ _ _ _).
  - vm_compute. reflexivity.
  - reflexivity.
  - lia.
  - lia.
Defined.

(** C7 at the integers [300, -4, 77] and at the bytes [0, 64, 128, 255]. *)
Lemma to_uint8_identity_and_saturation_witness :
  u8 frame = Ok frame
  /\ exists out,
       buf (NdArray [3%nat] (Ints UInt8 [255; 0; 77])) = Ints UInt8 out
       /\ nth_error out 0 = Some 255.
Proof.
  split.
  - refine (proj1 (to_uint8_identity_and_saturation 0 "no loop" frame)
                  UInt8 [0; 64; 128; 255] eq_refl _).
    repeat constructor; lia.
  - destruct (proj2 (to_uint8_identity_and_saturation 0 "no loop"
                       (NdArray [3%nat] (Ints Int16 [300; -4; 77])))
                    (NdArray [3%nat] (Ints UInt8 [255; 0; 77])) 0%nat (EInt 300)
                    eq_refl eq_refl) as (out & Hb & _ & Habove).
    exists out. split; [exact Hb|]. apply Habove. simpl. lia.
Defined.

(** C3 at a container that holds [ICOLOR]. *)
Lemma icolor_lookup_witness :
  exists k v,
    _find_key_case_insensitive
      [("__header__", PyBytes []); ("ICOLOR", Num (Arr frame))] "Icolor" = Some k
    /\ ci_eq k "Icolor"
    /\ In (k, v) [("__header__", PyBytes []); ("ICOLOR", Num (Arr frame))]
    /\ find_icolor [("__header__", PyBytes []); ("ICOLOR", Num (Arr frame))] = Ok v.
Proof.
  refine (proj1 (icolor_lookup 0 "no loop" ndarray encoder disk
                   [("__header__", PyBytes []); ("ICOLOR", Num (Arr frame))])
                "ICOLOR" _ _).
  - simpl. tauto.
  - ci_chars.
Defined.

(** C4 at [Chip_2.mat], which holds 3 frames. *)
Lemma frame_count_check_witness :
  run (MkPath INPUT_DIR "Chip_2.mat") (empty_world ndarray)
  = (empty_world ndarray,
     Raise (Exn RuntimeError "Icolor contém 3 frame(s), esperado >= 5.")).
Proof.
  refine (proj1 (proj2 (frame_count_check 0 "no loop" ndarray encoder disk
                          (MkPath INPUT_DIR "Chip_2.mat")
                          (Scipy.loadmat (file 3) loadmat_args)
                          (ObjArray [3%nat] (repeat (Arr frame) 3))
                          (repeat (Arr frame) 3)
                          (empty_world ndarray) _ _ _)) _); reflexivity.
Defined.

(** C6 at a directory of four matching files, one of them good. *)
Lemma batch_driver_continues_witness :
  snd (main 0 "no loop" ndarray encoder disk listing (empty_world ndarray)) = Done
  /\ stdout ndarray
       (fst (main 0 "no loop" ndarray encoder disk listing (empty_world ndarray)))
     = [ "[OK] Chip_10.mat -> 5 imagens extraídas (Icolor)";
         "[ERRO] Chip_2.mat: Icolor contém 3 frame(s), esperado >= 5.";
         "[ERRO] Chip_3.mat: could not read bytes";
         String newline "Concluído. Total extraído: 5 imagens";
         "Saída: /mnt/projects/tilapia_ia/data/raw_images/imagens_jpg" ]%string.
Proof.
  refine (proj2 (proj2 (batch_driver_continues 0 "no loop" ndarray encoder disk
                          (glob_mats listing) 0 (empty_world ndarray)))
                listing eq_refl _).
  vm_compute. discriminate.
Defined.

(** C8 (amended) at a 1 x 5 cell array. *)
Lemma loadmat_squeezes_unit_dimensions_witness :
  Scipy.load_value loadmat_args
    (Scipy.MCell [1; 5]%nat (repeat (Scipy.MNumeric frame) 5))
  = ObjArray [5%nat]
      (map (Scipy.load_atom loadmat_args) (repeat (Scipy.MNumeric frame) 5)).
Proof.
  refine (proj1 (proj2 (proj2 (proj2 (loadmat_squeezes_unit_dimensions disk))))
                5%nat (repeat (Scipy.MNumeric frame) 5) _).
  lia.
Defined.

(** C8 as it was stated does not hold: with the keywords of the code a
    cell array of one image loads as the image, not as a container. *)
Lemma loadmat_flattens_single_cell :
  getitem
    (Scipy.loadmat
       (Scipy.MatFile [] "1.0" [("Icolor", Scipy.MCell [1; 1]%nat [Scipy.MNumeric frame])])
       loadmat_args) "Icolor"
  = Some (Num (Arr frame))
  /\ ~ keeps_containers loadmat_args.
Proof.
  split; [reflexivity|].
  intros H. destruct (H [1; 1]%nat [Scipy.MNumeric frame]) as (items & E & _).
  discriminate E.
Qed.

(** A name that ends with a newline cannot come from the glob; passed to
    [extract_from_mat] directly, [Chip_7.mat] followed by a newline gives
    the identifier [7], because [$] accepts a final newline, although the
    name is not of the form [Chip_<digits>.mat] and its stem is [Chip_7]. *)
Lemma chip_id_trailing_newline :
  (forall ds, ~ chip_name (name newline_path) ds)
  /\ FILE_GLOB (name newline_path) = false
  /\ stem newline_path = "Chip_7"
  /\ chip_id newline_path = "7".
Proof.
  split; [|split; [reflexivity|split; reflexivity]].
  intros ds H. apply chip_name_no_newline in H. apply H.
  exists "Chip_7.mat"%string. reflexivity.
Qed.

(** C5 at [Chip_10.mat], which holds 5 frames; at [Chip_] with the
    Arabic-Indic digit three, which [\d] takes; and at [Chip_a1.mat], where
    the stem is used. *)
Lemma chip_output_names_witness :
  map fst (files ndarray (fst (run (MkPath INPUT_DIR "Chip_10.mat") (empty_world ndarray))))
  = [ "/mnt/projects/tilapia_ia/data/raw_images/imagens_jpg/imagem_10_1.jpg";
      "/mnt/projects/tilapia_ia/data/raw_images/imagens_jpg/imagem_10_2.jpg";
      "/mnt/projects/tilapia_ia/data/raw_images/imagens_jpg/imagem_10_3.jpg";
      "/mnt/projects/tilapia_ia/data/raw_images/imagens_jpg/imagem_10_4.jpg";
      "/mnt/projects/tilapia_ia/data/raw_images/imagens_jpg/imagem_10_5.jpg" ]%string
  /\ chip_id (MkPath INPUT_DIR ("Chip_" ++ encode [0x663%N] ++ ".mat")) = encode [0x663%N]
  /\ chip_id (MkPath INPUT_DIR "Chip_a1.mat") = "Chip_a1"%string.
Proof.
  assert (V : forall n, disk (MkPath INPUT_DIR n) = Ok (file 5) ->
            valid_mat 0 "no loop" ndarray encoder disk (MkPath INPUT_DIR n) (repeat frame 5)).
  { intros n Hn.
    exists (Scipy.loadmat (file 5) loadmat_args),
      (ObjArray [5%nat] (repeat (Arr frame) 5)), (repeat (Arr frame) 5).
    split; [unfold load; rewrite Hn; reflexivity|].
    split; [reflexivity|split; [reflexivity|split]].
    + apply Nat.le_refl.
    + repeat constructor. }
  split; [|split].
  - destruct (proj1 (chip_output_names 0 "no loop" ndarray encoder disk
                       (MkPath INPUT_DIR "Chip_10.mat") (repeat frame 5)
                       (empty_world ndarray) (V "Chip_10.mat"%string eq_refl)))
      as (ds & E & _).
    rewrite E. reflexivity.
  - refine (proj1 (proj2 (chip_output_names 0 "no loop" ndarray encoder disk
                     (MkPath INPUT_DIR ("Chip_" ++ encode [0x663%N] ++ ".mat"))
                     (repeat frame 5) (empty_world ndarray)
                     (V ("Chip_" ++ encode [0x663%N] ++ ".mat")%string eq_refl)))
              (encode [0x663%N]) _).
    exists "Chip_"%string, ".mat"%string.
    split; [reflexivity|]. split; [apply ci_eq_refl|]. split; [apply ci_eq_refl|].
    split; [discriminate|reflexivity].
  - refine (proj2 (proj2 (chip_output_names 0 "no loop" ndarray encoder disk
                     (MkPath INPUT_DIR "Chip_a1.mat")
                     (repeat frame 5) (empty_world ndarray)
                     (V "Chip_a1.mat"%string eq_refl)))
              eq_refl _).
    intros ds H. pose proof (chip_id_of_chip_name _ _ H) as E.
    vm_compute in E. subst ds.
    destruct H as (pre & suf & _ & _ & _ & _ & Hd). vm_compute in Hd. discriminate Hd.
Defined.
(** * The further properties at sample inputs *)

(** A name the glob accepts and the identifier it gives. *)
Lemma chip_id_of_glob_name_witness :
  chip_id (MkPath INPUT_DIR "Chip_12.mat") = "12"%string
  /\ chip_id (MkPath INPUT_DIR "Chip_a1.mat") = "Chip_a1"%string
  /\ chip_id (MkPath INPUT_DIR ("Chip_" ++ encode [0x663%N] ++ ".mat")) = encode [0x663%N].
Proof.
  split; [|split].
  - exact (chip_id_of_glob_name INPUT_DIR "Chip_12.mat" "12" eq_refl).
  - exact (chip_id_of_glob_name INPUT_DIR "Chip_a1.mat" "a1" eq_refl).
  - exact (chip_id_of_glob_name INPUT_DIR ("Chip_" ++ encode [0x663%N] ++ ".mat")
             (encode [0x663%N]) eq_refl).
Defined.

Lemma batch_outputs_disjoint_witness :
  "Chip_1.mat"%string = "Chip_1.mat"%string /\ 2%nat = 2%nat.
Proof.
  refine (batch_outputs_disjoint INPUT_DIR INPUT_DIR "Chip_1.mat" "Chip_1.mat"
            2 2 eq_refl eq_refl _ _ eq_refl); simpl; tauto.
Defined.

(** The third frame of [Faulty.file] fails: two images stay. *)
Lemma extract_keeps_partial_output_witness :
  snd (extract_from_mat 0 "no loop" ndarray encoder Faulty.disk Faulty.path
         (empty_world ndarray))
  = Raise (Exn TypeError "Cannot handle this data type")
  /\ files ndarray
       (fst (extract_from_mat 0 "no loop" ndarray encoder Faulty.disk Faulty.path
               (empty_world ndarray)))
     = files ndarray (empty_world ndarray)
       ++ combine (firstn (List.length [Arr frame; Arr frame]) (out_paths Faulty.path))
            [frame; frame].
Proof.
  refine (extract_keeps_partial_output 0 "no loop" ndarray encoder Faulty.disk
            Faulty.path (empty_world ndarray)
            [Arr frame; Arr frame; Arr Faulty.row_loaded; Arr frame; Arr frame]
            [Arr frame; Arr frame] [Arr frame; Arr frame]
            (Arr Faulty.row_loaded) [frame; frame]
            (Exn TypeError "Cannot handle this data type") _ _ _ _ _).
  - reflexivity.
  - simpl. lia.
  - reflexivity.
  - repeat constructor.
  - reflexivity.
Defined.

Lemma to_uint8_idempotent_witness :
  u8 (NdArray [3%nat] (Ints UInt8 [255; 0; 77]))
  = Ok (NdArray [3%nat] (Ints UInt8 [255; 0; 77])).
Proof.
  exact (to_uint8_idempotent 0 "no loop"
           (NdArray [3%nat] (Ints Int16 [300; -4; 77]))
           (NdArray [3%nat] (Ints UInt8 [255; 0; 77])) eq_refl).
Defined.

Lemma to_uint8_all_nan_witness :
  u8 (NdArray [2%nat] (Floats Float32 [S754_nan; S754_nan]))
  = Ok (NdArray [2%nat]
          (Ints UInt8 (map (fun _ => 0 mod 256) [S754_nan; S754_nan]))).
Proof.
  refine (to_uint8_all_nan 0 "no loop" [2%nat] Float32 [S754_nan; S754_nan] _ _).
  - discriminate.
  - repeat constructor.
Defined.

Lemma to_uint8_infinity_not_scaled_witness :
  u8 (NdArray [2%nat] (Floats Float64 [half; S754_infinity false]))
  = Ok (NdArray [2%nat] (Ints UInt8 [0; 255])).
Proof.
  refine (proj1 (to_uint8_infinity_not_scaled 0 "no loop" [2%nat] Float64
                   [half; S754_infinity false] _)).
  simpl. tauto.
Defined.

Lemma jpg_array_passes_through_witness : to_jpg frame = u8 frame.
Proof.
  refine (jpg_array_passes_through 0 "no loop" frame _).
  left. discriminate.
Defined.

Lemma squeeze_keeps_pixels_witness :
  exists x, to_jpg hw1_image = Ok x /\ shape x = [2; 2]%nat
            /\ elems (buf x) = elems (buf hw1_image).
Proof.
  refine (squeeze_keeps_pixels 0 "no loop" hw1_image hw1_image 2 2 _ _ _);
    reflexivity.
Defined.

Lemma transpose_moves_pixels_witness :
  exists x, to_jpg chw_image = Ok x /\ shape x = [64; 64; 3]%nat
            /\ nth_error (elems (buf x)) ((1 * 64 + 2) * 3 + 0)
               = nth_error (elems (buf chw_image)) (0 * (64 * 64) + 1 * 64 + 2).
Proof.
  refine (transpose_moves_pixels 0 "no loop" chw_image chw_image 3 64 64 1 2 0
            _ _ _ _ _ _ _ _ _).
  - vm_compute. reflexivity.
  - reflexivity.
  - simpl. tauto.
  - lia.
  - lia.
  - vm_compute. reflexivity.
  - lia.
  - lia.
  - lia.
Defined.

Lemma array_is_split_along_first_axis_witness :
  exists frames,
    frames_of (Num (Arr frame)) = Ok frames
    /\ List.length frames = 2%nat
    /\ Forall (fun fr => exists x, fr = Arr x /\ shape x = [2%nat]
                                   /\ buf_length (buf x) = size_of [2%nat]) frames
    /\ flat_map (fun fr => elems (buf (asarray fr))) frames = elems (buf frame).
Proof.
  refine (array_is_split_along_first_axis frame 2 [2%nat] _ _); reflexivity.
Defined.

Lemma run_writes_each_path_once_witness :
  NoDup (map fst (files ndarray
                    (fst (main 0 "no loop" ndarray encoder disk listing
                            (empty_world ndarray))))).
Proof.
  refine (run_writes_each_path_once 0 "no loop" ndarray encoder disk listing
            (empty_world ndarray) _ eq_refl).
  repeat constructor; simpl; intuition discriminate.
Defined.

